(** * GolangConcurrencyDemo: the integrated pipeline of [main.go]

    A shallow embedding of [demonstrateIntegrated] and the functions it
    runs ([fetchWithTimeout], [processingWorker], [outputPipeline], the
    [Stats] methods) as an executable interleaving semantics: every
    goroutine is a small program counter, every action of the scheduler is
    one statement of one goroutine, and the Go run-time primitives the
    program uses (buffered channels, [sync.WaitGroup], [sync.Mutex]) are
    given their Go meaning, run-time panics included.

    The other demos of the two programs are embedded in the same way,
    each in a module of its own: [demonstrateMutex], [demonstratePipeline],
    [demonstrateAsyncFetching] and [demonstrateWorkerPool],
    [demonstrateSelect] and [selectExample], [waitGroupExample],
    [bufferedChannel], [channelDirection] and [pipelineExample].  Of what
    a demo prints, its heading line and (in [demonstrateAsyncFetching])
    the elapsed time are left out. *)

From Stdlib Require Import ZArith Lia.
From stdpp Require Import base list strings pretty.

Local Open Scope Z_scope.

(** ** Go run-time primitives *)

(** Go's [int] on the 64-bit targets, two's complement. *)
Definition int_wrap (z : Z) : Z := (z + 2 ^ 63) mod 2 ^ 64 - 2 ^ 63.

(** [x++] on an [int]. *)
Definition int_incr (x : Z) : Z := int_wrap (x + 1).

(** The result of one scheduling attempt of a statement: the goroutine is
    blocked, the statement runs, or the run time panics (which ends the
    whole process). *)
Inductive outcome (S : Type) : Type :=
| Blocked
| Step (s : S)
| Crash (msg : string).
Arguments Blocked {S}.
Arguments Step {S} s.
Arguments Crash {S} msg.

(** [make(chan A, cap)]: a FIFO buffer, its capacity and the closed flag. *)
Record chan (A : Type) : Type := MkChan {
  buf : list A;
  cap : nat;
  closed : bool
}.
Arguments MkChan {A} buf cap closed.
Arguments buf {A} c.
Arguments cap {A} c.
Arguments closed {A} c.

Definition make_chan {A : Type} (n : nat) : chan A := MkChan [] n false.

(** [c <- x].  A send on a closed channel is a run-time panic; a send on a
    full buffer blocks.  (A capacity of 0 is Go's unbuffered channel, whose
    send needs a receiver at the same instant: the one unbuffered channel of
    the program, [done], is handled as a rendezvous in
    [outputPipeline_step].) *)
Definition chan_send {A : Type} (c : chan A) (x : A) : outcome (chan A) :=
  if closed c then Crash "send on closed channel"
  else if (length (buf c) <? cap c)%nat
       then Step (MkChan (buf c ++ [x]) (cap c) (closed c))
       else Blocked.

(** [x, ok := <-c], as [range] and [select] use it. *)
Inductive recv_result (A : Type) : Type :=
| RecvBlocked
| RecvOk (x : A) (c : chan A)
| RecvClosed.
Arguments RecvBlocked {A}.
Arguments RecvOk {A} x c.
Arguments RecvClosed {A}.

Definition chan_recv {A : Type} (c : chan A) : recv_result A :=
  match buf c with
  | x :: rest => RecvOk x (MkChan rest (cap c) (closed c))
  | [] => if closed c then RecvClosed else RecvBlocked
  end.

(** [close(c)]. *)
Definition chan_close {A : Type} (c : chan A) : outcome (chan A) :=
  if closed c then Crash "close of closed channel"
  else Step (MkChan (buf c) (cap c) true).

(** [sync.WaitGroup]: the counter. *)
Definition wg_add (wg : Z) (delta : Z) : outcome Z :=
  if wg + delta <? 0 then Crash "sync: negative WaitGroup counter"
  else Step (wg + delta).

Definition wg_done (wg : Z) : outcome Z := wg_add wg (-1).

(** [wg.Wait()] returns when the counter is zero. *)
Definition wg_wait (wg : Z) : outcome unit :=
  if wg =? 0 then Step tt else Blocked.

(** ** Data of the integrated demo *)

Record APIResponse : Type := MkAPIResponse {
  Source : string;
  Data : string;
  Time : Z          (* time.Duration, nanoseconds *)
}.

Record ProcessedData : Type := MkProcessedData {
  ID : Z;
  Original : string;
  Processed : string;
  PSource : string  (* field [Source] of [ProcessedData] *)
}.

(** [Stats]; the mutex is the subject of module [StatsMutex] below, the
    pipeline semantics runs each method as one critical section. *)
Record Stats : Type := MkStats {
  totalFetched : Z;
  totalProcessed : Z;
  errors : Z
}.

Definition IncrementFetched (s : Stats) : Stats :=
  MkStats (int_incr (totalFetched s)) (totalProcessed s) (errors s).

Definition IncrementProcessed (s : Stats) : Stats :=
  MkStats (totalFetched s) (int_incr (totalProcessed s)) (errors s).

Definition IncrementErrors (s : Stats) : Stats :=
  MkStats (totalFetched s) (totalProcessed s) (int_incr (errors s)).

(** What [Print] formats: the three counters, read in one critical
    section.  The receiver is not modified. *)
Definition Print (s : Stats) : (Z * Z * Z) * Stats :=
  ((totalFetched s, totalProcessed s, errors s), s).

(** [time.Millisecond] *)
Definition Millisecond : Z := 1000000.

(** ** [fetchWithTimeout] *)

(** The anonymous goroutine started by [fetchWithTimeout]. *)
Inductive inner_pc : Type :=
| IStart                       (* before rand.Intn(800) *)
| ISleeping (fetchTime : Z)    (* in time.Sleep(fetchTime) *)
| IFinished.                   (* after responseChan <- ... *)

(** The caller's side. *)
Inductive select_pc : Type :=
| FSelect                          (* blocked in the select *)
| FGotResponse (r : APIResponse)   (* case response := <-responseChan *)
| FGotError (e : string)           (* case err := <-errorChan *)
| FGotTimeout                      (* case <-time.After(timeout) *)
| FReturned (response : option APIResponse) (err : option string).

Record fetch_call : Type := MkFetch {
  fc_source : string;
  responseChan : chan APIResponse;
  errorChan : chan string;
  timerChan : chan unit;           (* the channel of time.After(timeout) *)
  timerFired : bool;               (* the timer has delivered on it *)
  fc_inner : inner_pc;
  fc_pc : select_pc
}.

(** Entry of [fetchWithTimeout(source, timeout, stats)]: both channels made
    with capacity 1, the goroutine started, the select reached. *)
Definition fetch_init (source : string) : fetch_call :=
  MkFetch source (make_chan 1) (make_chan 1) (make_chan 1) false IStart FSelect.

Inductive fetch_action : Type :=
| InnerRand (n : Z)    (* rand.Intn(800) returns n *)
| InnerSend            (* the sleep is over: responseChan <- &APIResponse{...} *)
| TimerFire            (* the run time delivers on the time.After channel *)
| SelectResponse
| SelectError
| SelectTimeout
| FetchReturn.         (* the body of the chosen case *)

Definition set_inner (fc : fetch_call) (p : inner_pc) : fetch_call :=
  MkFetch (fc_source fc) (responseChan fc) (errorChan fc) (timerChan fc)
          (timerFired fc) p (fc_pc fc).

Definition set_response (fc : fetch_call) (c : chan APIResponse) (p : inner_pc) : fetch_call :=
  MkFetch (fc_source fc) c (errorChan fc) (timerChan fc) (timerFired fc) p (fc_pc fc).

Definition set_timer (fc : fetch_call) (c : chan unit) (fired : bool) : fetch_call :=
  MkFetch (fc_source fc) (responseChan fc) (errorChan fc) c fired (fc_inner fc) (fc_pc fc).

Definition set_pc (fc : fetch_call) (p : select_pc) : fetch_call :=
  MkFetch (fc_source fc) (responseChan fc) (errorChan fc) (timerChan fc)
          (timerFired fc) (fc_inner fc) p.

Definition timeout_error (source : string) : string :=
  "timeout fetching from " +:+ source.

Definition fetched_response (source : string) (fetchTime : Z) : APIResponse :=
  MkAPIResponse source ("data-from-" +:+ source) fetchTime.

(** One statement of one call of [fetchWithTimeout], on the call's own
    state and the shared [Stats]. *)
Definition fetchWithTimeout_step (a : fetch_action) (fc : fetch_call) (stats : Stats)
  : outcome (fetch_call * Stats) :=
  match a with
  | InnerRand n =>
      match fc_inner fc with
      | IStart =>
          if (0 <=? n) && (n <? 800)
          then Step (set_inner fc (ISleeping (n * Millisecond)), stats)
          else Blocked
      | _ => Blocked
      end
  | InnerSend =>
      match fc_inner fc with
      | ISleeping fetchTime =>
          match chan_send (responseChan fc) (fetched_response (fc_source fc) fetchTime) with
          | Step c => Step (set_response fc c IFinished, stats)
          | Blocked => Blocked
          | Crash m => Crash m
          end
      | _ => Blocked
      end
  | TimerFire =>
      if timerFired fc then Blocked      (* the timer delivers once *)
      else match chan_send (timerChan fc) tt with
           | Step c => Step (set_timer fc c true, stats)
           | Blocked => Blocked
           | Crash m => Crash m
           end
  | SelectResponse =>
      match fc_pc fc, chan_recv (responseChan fc) with
      | FSelect, RecvOk r c =>
          Step (set_pc (set_response fc c (fc_inner fc)) (FGotResponse r), stats)
      | _, _ => Blocked
      end
  | SelectError =>
      match fc_pc fc, chan_recv (errorChan fc) with
      | FSelect, RecvOk e c =>
          Step (MkFetch (fc_source fc) (responseChan fc) c (timerChan fc)
                        (timerFired fc) (fc_inner fc) (FGotError e), stats)
      | _, _ => Blocked
      end
  | SelectTimeout =>
      match fc_pc fc, chan_recv (timerChan fc) with
      | FSelect, RecvOk _ c =>
          Step (set_pc (set_timer fc c (timerFired fc)) FGotTimeout, stats)
      | _, _ => Blocked
      end
  | FetchReturn =>
      match fc_pc fc with
      | FGotResponse r =>
          Step (set_pc fc (FReturned (Some r) None), IncrementFetched stats)
      | FGotError e =>
          Step (set_pc fc (FReturned None (Some e)), IncrementErrors stats)
      | FGotTimeout =>
          Step (set_pc fc (FReturned None (Some (timeout_error (fc_source fc)))),
                IncrementErrors stats)
      | _ => Blocked
      end
  end.

(** Running the statements of one call in a given order. *)
Fixpoint fetch_run (sched : list fetch_action) (fc : fetch_call) (stats : Stats)
  : outcome (fetch_call * Stats) :=
  match sched with
  | [] => Step (fc, stats)
  | a :: rest =>
      match fetchWithTimeout_step a fc stats with
      | Step (fc', stats') => fetch_run rest fc' stats'
      | Blocked => Blocked
      | Crash m => Crash m
      end
  end.

(** The states of a call of [fetchWithTimeout(source, _, stats0)]. *)
Inductive fetch_reachable (source : string) (stats0 : Stats) : fetch_call -> Stats -> Prop :=
| fetch_reach_init : fetch_reachable source stats0 (fetch_init source) stats0
| fetch_reach_step fc stats a fc' stats' :
    fetch_reachable source stats0 fc stats ->
    fetchWithTimeout_step a fc stats = Step (fc', stats') ->
    fetch_reachable source stats0 fc' stats'.

(** The call has returned to its caller. *)
Definition returned (fc : fetch_call) : bool :=
  match fc_pc fc with FReturned _ _ => true | _ => false end.

(** ** [processingWorker] and the goroutines of [demonstrateIntegrated] *)

(** The result a worker builds from a job. *)
Definition transform (id : Z) (job : APIResponse) : ProcessedData :=
  MkProcessedData id (Data job) ("PROCESSED[" +:+ Data job +:+ "]") (Source job).

(** The closure [go func(src string)] of stage 1. *)
Inductive fetcher_pc : Type :=
| GInFetch                          (* inside fetchWithTimeout, or at [if err != nil] *)
| GSend (response : APIResponse)    (* at fetchedData <- response *)
| GExit                             (* returning: the deferred fetchWg.Done() *)
| GDone.

Record fetcher : Type := MkFetcher {
  f_call : fetch_call;
  f_pc : fetcher_pc
}.

Inductive worker_pc : Type :=
| WRecv                             (* for job := range jobs *)
| WHave (job : APIResponse)         (* sleeping, building the result *)
| WSend (result : ProcessedData)    (* at results <- result *)
| WExit                             (* the range ended: the deferred wg.Done() *)
| WDone.

Record worker : Type := MkWorker {
  w_id : Z;
  w_pc : worker_pc
}.

(** The two goroutines [go func() { wg.Wait(); close(ch) }]. *)
Inductive closer_pc : Type := CNotStarted | CWait | CClose | CDone.

Inductive output_pc : Type := ONotStarted | ORecv | OSendDone | ODone.

(** [demonstrateIntegrated] itself. *)
Inductive main_pc : Type :=
| MFetchLoop | MWorkerLoop | MStartOutput | MWaitDone | MPrint | MReturned.

(** What the demo fixes as literals: the sources, [numWorkers := 3], and
    the capacity [len(sources)] of both stage queues. *)
Record Config : Type := MkConfig {
  sources : list string;
  numWorkers : nat;
  queueCapacity : nat
}.

Definition demo_config : Config :=
  MkConfig ["API-1"; "API-2"; "API-3"; "API-4"; "API-5"] 3 5.

Record state : Type := MkState {
  stats : Stats;
  fetchedData : chan APIResponse;
  processedData : chan ProcessedData;
  fetchWg : Z;
  processWg : Z;
  fetchers : list fetcher;
  closer1 : closer_pc;
  workers : list worker;
  closer2 : closer_pc;
  output : output_pc;
  count : Z;                          (* of outputPipeline *)
  printed : list ProcessedData;       (* the lines outputPipeline has printed *)
  mainpc : main_pc;
  printedStats : option (Z * Z * Z)   (* what stats.Print() has printed *)
}.

Definition init (cfg : Config) : state :=
  MkState (MkStats 0 0 0) (make_chan (queueCapacity cfg)) (make_chan (queueCapacity cfg))
          0 0 [] CNotStarted [] CNotStarted ONotStarted 0 [] MFetchLoop None.

Definition set_fetcher (st : state) (i : nat) (f : fetcher) (s : Stats)
    (fd : chan APIResponse) (wg : Z) : state :=
  MkState s fd (processedData st) wg (processWg st) (<[i:=f]> (fetchers st))
          (closer1 st) (workers st) (closer2 st) (output st) (count st) (printed st)
          (mainpc st) (printedStats st).

Definition set_worker (st : state) (w : nat) (wk : worker) (s : Stats)
    (fd : chan APIResponse) (pd : chan ProcessedData) (wg : Z) : state :=
  MkState s fd pd (fetchWg st) wg (fetchers st) (closer1 st) (<[w:=wk]> (workers st))
          (closer2 st) (output st) (count st) (printed st) (mainpc st) (printedStats st).

Definition set_closer1 (st : state) (p : closer_pc) (fd : chan APIResponse) : state :=
  MkState (stats st) fd (processedData st) (fetchWg st) (processWg st) (fetchers st)
          p (workers st) (closer2 st) (output st) (count st) (printed st)
          (mainpc st) (printedStats st).

Definition set_closer2 (st : state) (p : closer_pc) (pd : chan ProcessedData) : state :=
  MkState (stats st) (fetchedData st) pd (fetchWg st) (processWg st) (fetchers st)
          (closer1 st) (workers st) p (output st) (count st) (printed st)
          (mainpc st) (printedStats st).

Definition set_output (st : state) (p : output_pc) (pd : chan ProcessedData)
    (n : Z) (out : list ProcessedData) (m : main_pc) : state :=
  MkState (stats st) (fetchedData st) pd (fetchWg st) (processWg st) (fetchers st)
          (closer1 st) (workers st) (closer2 st) p n out m (printedStats st).

(** The actions of the scheduler: which goroutine runs its next statement. *)
Inductive action : Type :=
| AMain
| AFetch (i : nat) (a : fetch_action)   (* inside the i-th call of fetchWithTimeout *)
| AFetcher (i : nat)                    (* the i-th stage-1 closure *)
| ACloser1
| AWorker (w : nat)
| ACloser2
| AOutput.

(** The statements of a stage-1 closure after [fetchWithTimeout] returned. *)
Definition fetcher_step (i : nat) (st : state) : outcome state :=
  match fetchers st !! i with
  | None => Blocked
  | Some f =>
      match f_pc f with
      | GInFetch =>
          match fc_pc (f_call f) with
          | FReturned response err =>
              match err, response with
              | Some _, _ =>
                  Step (set_fetcher st i (MkFetcher (f_call f) GExit) (stats st)
                                    (fetchedData st) (fetchWg st))
              | None, Some r =>
                  Step (set_fetcher st i (MkFetcher (f_call f) (GSend r)) (stats st)
                                    (fetchedData st) (fetchWg st))
              | None, None => Crash "invalid memory address or nil pointer dereference"
              end
          | _ => Blocked
          end
      | GSend r =>
          match chan_send (fetchedData st) r with
          | Step c =>
              Step (set_fetcher st i (MkFetcher (f_call f) GExit) (stats st) c (fetchWg st))
          | Blocked => Blocked
          | Crash m => Crash m
          end
      | GExit =>
          match wg_done (fetchWg st) with
          | Step wg =>
              Step (set_fetcher st i (MkFetcher (f_call f) GDone) (stats st)
                                (fetchedData st) wg)
          | Blocked => Blocked
          | Crash m => Crash m
          end
      | GDone => Blocked
      end
  end.

(** A statement inside the i-th call of [fetchWithTimeout], its goroutine
    and timer included (they outlive the call). *)
Definition fetch_step (i : nat) (a : fetch_action) (st : state) : outcome state :=
  match fetchers st !! i with
  | None => Blocked
  | Some f =>
      match fetchWithTimeout_step a (f_call f) (stats st) with
      | Step (fc, s) =>
          Step (set_fetcher st i (MkFetcher fc (f_pc f)) s (fetchedData st) (fetchWg st))
      | Blocked => Blocked
      | Crash m => Crash m
      end
  end.

Definition processingWorker_step (w : nat) (st : state) : outcome state :=
  match workers st !! w with
  | None => Blocked
  | Some wk =>
      match w_pc wk with
      | WRecv =>
          match chan_recv (fetchedData st) with
          | RecvOk job c =>
              Step (set_worker st w (MkWorker (w_id wk) (WHave job)) (stats st) c
                               (processedData st) (processWg st))
          | RecvClosed =>
              Step (set_worker st w (MkWorker (w_id wk) WExit) (stats st) (fetchedData st)
                               (processedData st) (processWg st))
          | RecvBlocked => Blocked
          end
      | WHave job =>
          Step (set_worker st w (MkWorker (w_id wk) (WSend (transform (w_id wk) job)))
                           (IncrementProcessed (stats st)) (fetchedData st)
                           (processedData st) (processWg st))
      | WSend result =>
          match chan_send (processedData st) result with
          | Step c =>
              Step (set_worker st w (MkWorker (w_id wk) WRecv) (stats st) (fetchedData st)
                               c (processWg st))
          | Blocked => Blocked
          | Crash m => Crash m
          end
      | WExit =>
          match wg_done (processWg st) with
          | Step wg =>
              Step (set_worker st w (MkWorker (w_id wk) WDone) (stats st) (fetchedData st)
                               (processedData st) wg)
          | Blocked => Blocked
          | Crash m => Crash m
          end
      | WDone => Blocked
      end
  end.

Definition closer1_step (st : state) : outcome state :=
  match closer1 st with
  | CWait =>
      match wg_wait (fetchWg st) with
      | Step _ => Step (set_closer1 st CClose (fetchedData st))
      | Blocked => Blocked
      | Crash m => Crash m
      end
  | CClose =>
      match chan_close (fetchedData st) with
      | Step c => Step (set_closer1 st CDone c)
      | Blocked => Blocked
      | Crash m => Crash m
      end
  | _ => Blocked
  end.

Definition closer2_step (st : state) : outcome state :=
  match closer2 st with
  | CWait =>
      match wg_wait (processWg st) with
      | Step _ => Step (set_closer2 st CClose (processedData st))
      | Blocked => Blocked
      | Crash m => Crash m
      end
  | CClose =>
      match chan_close (processedData st) with
      | Step c => Step (set_closer2 st CDone c)
      | Blocked => Blocked
      | Crash m => Crash m
      end
  | _ => Blocked
  end.

(** [outputPipeline]; [done] is unbuffered, so [done <- true] runs together
    with the [<-done] of [demonstrateIntegrated]. *)
Definition outputPipeline_step (st : state) : outcome state :=
  match output st with
  | ORecv =>
      match chan_recv (processedData st) with
      | RecvOk result c =>
          Step (set_output st ORecv c (int_incr (count st)) (printed st ++ [result])
                           (mainpc st))
      | RecvClosed =>
          Step (set_output st OSendDone (processedData st) (count st) (printed st)
                           (mainpc st))
      | RecvBlocked => Blocked
      end
  | OSendDone =>
      match mainpc st with
      | MWaitDone =>
          Step (set_output st ODone (processedData st) (count st) (printed st) MPrint)
      | _ => Blocked
      end
  | _ => Blocked
  end.

(** The statements of [demonstrateIntegrated]. *)
Definition demonstrateIntegrated_step (cfg : Config) (st : state) : outcome state :=
  match mainpc st with
  | MFetchLoop =>
      match sources cfg !! length (fetchers st) with
      | Some src =>
          match wg_add (fetchWg st) 1 with
          | Step wg =>
              Step (MkState (stats st) (fetchedData st) (processedData st) wg (processWg st)
                            (fetchers st ++ [MkFetcher (fetch_init src) GInFetch])
                            (closer1 st) (workers st) (closer2 st) (output st) (count st)
                            (printed st) MFetchLoop (printedStats st))
          | Blocked => Blocked
          | Crash m => Crash m
          end
      | None =>
          Step (MkState (stats st) (fetchedData st) (processedData st) (fetchWg st)
                        (processWg st) (fetchers st) CWait (workers st) (closer2 st)
                        (output st) (count st) (printed st) MWorkerLoop (printedStats st))
      end
  | MWorkerLoop =>
      if (length (workers st) <? numWorkers cfg)%nat
      then match wg_add (processWg st) 1 with
           | Step wg =>
               Step (MkState (stats st) (fetchedData st) (processedData st) (fetchWg st) wg
                             (fetchers st) (closer1 st)
                             (workers st ++ [MkWorker (Z.of_nat (length (workers st)) + 1) WRecv])
                             (closer2 st) (output st) (count st) (printed st) MWorkerLoop
                             (printedStats st))
           | Blocked => Blocked
           | Crash m => Crash m
           end
      else Step (MkState (stats st) (fetchedData st) (processedData st) (fetchWg st)
                         (processWg st) (fetchers st) (closer1 st) (workers st) CWait
                         (output st) (count st) (printed st) MStartOutput (printedStats st))
  | MStartOutput =>
      Step (set_output st ORecv (processedData st) (count st) (printed st) MWaitDone)
  | MWaitDone => Blocked
  | MPrint =>
      Step (MkState (snd (Print (stats st))) (fetchedData st) (processedData st) (fetchWg st)
                    (processWg st) (fetchers st) (closer1 st) (workers st) (closer2 st)
                    (output st) (count st) (printed st) MReturned
                    (Some (fst (Print (stats st)))))
  | MReturned => Blocked
  end.

Definition exec (cfg : Config) (a : action) (st : state) : outcome state :=
  match a with
  | AMain => demonstrateIntegrated_step cfg st
  | AFetch i fa => fetch_step i fa st
  | AFetcher i => fetcher_step i st
  | ACloser1 => closer1_step st
  | AWorker w => processingWorker_step w st
  | ACloser2 => closer2_step st
  | AOutput => outputPipeline_step st
  end.

(** Running a schedule. *)
Fixpoint run (cfg : Config) (sched : list action) (st : state) : outcome state :=
  match sched with
  | [] => Step st
  | a :: rest =>
      match exec cfg a st with
      | Step st' => run cfg rest st'
      | Blocked => Blocked
      | Crash m => Crash m
      end
  end.

Inductive reachable (cfg : Config) : state -> Prop :=
| reach_init : reachable cfg (init cfg)
| reach_step st a st' :
    reachable cfg st -> exec cfg a st = Step st' -> reachable cfg st'.

(** ** Counting over the goroutine tables *)

Fixpoint wsum {A : Type} (g : A -> nat) (l : list A) : nat :=
  match l with
  | [] => 0%nat
  | x :: rest => (g x + wsum g rest)%nat
  end.

(** The closure has not run its [fetchWg.Done()] yet. *)
Definition f_live (f : fetcher) : nat :=
  match f_pc f with GDone => 0 | _ => 1 end.

(** [fetchWithTimeout] returned a response. *)
Definition f_ok (f : fetcher) : nat :=
  match fc_pc (f_call f) with FReturned (Some _) _ => 1 | _ => 0 end.

(** [fetchWithTimeout] returned no response. *)
Definition f_err (f : fetcher) : nat :=
  match fc_pc (f_call f) with FReturned None _ => 1 | _ => 0 end.

(** The closure holds a response it has not sent yet. *)
Definition f_hold (f : fetcher) : nat :=
  match fc_pc (f_call f), f_pc f with
  | FReturned (Some _) _, GInFetch => 1
  | FReturned (Some _) _, GSend _ => 1
  | _, _ => 0
  end.

Definition w_live (w : worker) : nat :=
  match w_pc w with WDone => 0 | _ => 1 end.

Definition w_have (w : worker) : nat :=
  match w_pc w with WHave _ => 1 | _ => 0 end.

Definition w_send (w : worker) : nat :=
  match w_pc w with WSend _ => 1 | _ => 0 end.

(** The worker has seen the end of [jobs]. *)
Definition w_exited (w : worker) : nat :=
  match w_pc w with WExit | WDone => 1 | _ => 0 end.

(** ** Where the items are *)

(** The source a stage-1 closure still stands for. *)
Definition f_src (f : fetcher) : list string :=
  match f_pc f with
  | GInFetch =>
      match fc_pc (f_call f) with
      | FReturned None _ => []
      | _ => [fc_source (f_call f)]
      end
  | GSend r => [Source r]
  | _ => []
  end.

Definition w_src (w : worker) : list string :=
  match w_pc w with
  | WHave job => [Source job]
  | WSend result => [PSource result]
  | _ => []
  end.

(** The results that exist: held by a worker, queued, or printed. *)
Definition w_result (w : worker) : list ProcessedData :=
  match w_pc w with WSend result => [result] | _ => [] end.

Definition results_of (st : state) : list ProcessedData :=
  flat_map w_result (workers st) ++ buf (processedData st) ++ printed st.

(** The sources of all items in flight, not yet fetched ones included. *)
Definition all_sources (cfg : Config) (st : state) : list string :=
  drop (length (fetchers st)) (sources cfg)
  ++ flat_map f_src (fetchers st)
  ++ (Source <$> buf (fetchedData st))
  ++ flat_map w_src (workers st)
  ++ (PSource <$> buf (processedData st))
  ++ (PSource <$> printed st).

(** ** Invariants *)

(** Of one call of [fetchWithTimeout]. *)
Record fetch_inv (fc : fetch_call) : Prop := MkFetchInv {
  fi_error : errorChan fc = make_chan 1;
  fi_resp_open : closed (responseChan fc) = false;
  fi_resp_cap : cap (responseChan fc) = 1%nat;
  fi_resp_empty : fc_inner fc <> IFinished -> buf (responseChan fc) = [];
  fi_resp_src : forall r, r ∈ buf (responseChan fc) -> Source r = fc_source fc;
  fi_timer_open : closed (timerChan fc) = false;
  fi_timer_cap : cap (timerChan fc) = 1%nat;
  fi_timer_empty : timerFired fc = false -> buf (timerChan fc) = [];
  fi_timer_full : fc_pc fc = FSelect -> timerFired fc = true -> buf (timerChan fc) = [tt];
  fi_pc :
    match fc_pc fc with
    | FSelect | FGotTimeout => True
    | FGotResponse r => Source r = fc_source fc
    | FGotError _ => False
    | FReturned response err =>
        (exists r, response = Some r /\ err = None /\ Source r = fc_source fc)
        \/ (response = None /\ err = Some (timeout_error (fc_source fc)))
    end
}.

(** Of one stage-1 closure. *)
Definition fetcher_inv (f : fetcher) : Prop :=
  fetch_inv (f_call f) /\
  match f_pc f with
  | GInFetch => True
  | GSend r => fc_pc (f_call f) = FReturned (Some r) None
  | GExit | GDone => exists response err, fc_pc (f_call f) = FReturned response err
  end.

Definition snapshot (s : Stats) : Z * Z * Z :=
  (totalFetched s, totalProcessed s, errors s).

Record inv (cfg : Config) (st : state) : Prop := MkInv {
  (* stage 1 *)
  i_fetchers : Forall fetcher_inv (fetchers st);
  i_fsrc : forall i f, fetchers st !! i = Some f ->
           sources cfg !! i = Some (fc_source (f_call f));
  i_flen : (length (fetchers st) <= length (sources cfg))%nat;
  i_fall : mainpc st <> MFetchLoop -> length (fetchers st) = length (sources cfg);
  i_fwg : fetchWg st = Z.of_nat (wsum f_live (fetchers st));
  i_c1_start : closer1 st = CNotStarted <-> mainpc st = MFetchLoop;
  i_c1_wait : closer1 st = CClose \/ closer1 st = CDone -> wsum f_live (fetchers st) = 0%nat;
  i_c1_closed : closed (fetchedData st) = true <-> closer1 st = CDone;
  i_fd_cap : cap (fetchedData st) = queueCapacity cfg;
  (* statistics *)
  i_fetched : totalFetched (stats st) = Z.of_nat (wsum f_ok (fetchers st));
  i_errors : errors (stats st) = Z.of_nat (wsum f_err (fetchers st));
  i_flow1 : (wsum f_ok (fetchers st)
             = wsum f_hold (fetchers st) + length (buf (fetchedData st))
               + wsum w_have (workers st) + Z.to_nat (totalProcessed (stats st)))%nat;
  i_processed : totalProcessed (stats st)
                = Z.of_nat (wsum w_send (workers st) + length (buf (processedData st))
                            + length (printed st));
  i_count : count st = Z.of_nat (length (printed st));
  (* stage 2 *)
  i_wlen : (length (workers st) <= numWorkers cfg)%nat;
  i_wnone : mainpc st = MFetchLoop -> workers st = [];
  i_wall : mainpc st <> MFetchLoop -> mainpc st <> MWorkerLoop ->
           length (workers st) = numWorkers cfg;
  i_wwg : processWg st = Z.of_nat (wsum w_live (workers st));
  i_c2_start : closer2 st = CNotStarted <-> mainpc st = MFetchLoop \/ mainpc st = MWorkerLoop;
  i_c2_wait : closer2 st = CClose \/ closer2 st = CDone -> wsum w_live (workers st) = 0%nat;
  i_c2_closed : closed (processedData st) = true <-> closer2 st = CDone;
  i_pd_cap : cap (processedData st) = queueCapacity cfg;
  i_wexit : (0 < wsum w_exited (workers st))%nat ->
            closed (fetchedData st) = true /\ buf (fetchedData st) = [];
  (* stage 3 *)
  i_out_start : output st = ONotStarted <->
                mainpc st = MFetchLoop \/ mainpc st = MWorkerLoop \/ mainpc st = MStartOutput;
  i_out_eos : output st = OSendDone \/ output st = ODone ->
              closed (processedData st) = true /\ buf (processedData st) = [];
  i_out_done : output st = ODone <-> mainpc st = MPrint \/ mainpc st = MReturned;
  i_print_none : printedStats st = None <-> mainpc st <> MReturned;
  i_print : (1 <= numWorkers cfg)%nat ->
            forall t, printedStats st = Some t -> t = snapshot (stats st);
  (* items *)
  i_items : all_sources cfg st ⊆+ sources cfg
}.

(** [len(sources)] is an [int]: the counters cannot wrap. *)
Definition int_fits (cfg : Config) : Prop :=
  Z.of_nat (length (sources cfg)) < 2 ^ 63.

(** ** Termination measure: the statements still to run *)

Definition fetch_weight (fc : fetch_call) : nat :=
  (match fc_inner fc with IStart => 2 | ISleeping _ => 1 | IFinished => 0 end
   + (if timerFired fc then 0 else 1)
   + match fc_pc fc with
     | FSelect => 2
     | FGotResponse _ | FGotError _ | FGotTimeout => 1
     | FReturned _ _ => 0
     end)%nat.

(** A closure's own statements and the later statements on its item: the
    worker's three and the output's one. *)
Definition fetcher_weight (f : fetcher) : nat :=
  (fetch_weight (f_call f)
   + match f_pc f with GInFetch => 7 | GSend _ => 6 | GExit => 1 | GDone => 0 end)%nat.

Definition worker_weight (w : worker) : nat :=
  match w_pc w with
  | WRecv => 2 | WHave _ => 5 | WSend _ => 4 | WExit => 1 | WDone => 0
  end.

Definition closer_weight (p : closer_pc) : nat :=
  match p with CNotStarted => 0 | CWait => 2 | CClose => 1 | CDone => 0 end.

Definition output_weight (p : output_pc) : nat :=
  match p with ONotStarted => 0 | ORecv => 2 | OSendDone => 1 | ODone => 0 end.

Definition main_weight (cfg : Config) (st : state) : nat :=
  match mainpc st with
  | MFetchLoop =>
      ((length (sources cfg) - length (fetchers st)) * 13 + 3
       + numWorkers cfg * 3 + 3 + 3 + 2)%nat
  | MWorkerLoop => ((numWorkers cfg - length (workers st)) * 3 + 3 + 3 + 2)%nat
  | MStartOutput => (3 + 2)%nat
  | MWaitDone => 2%nat
  | MPrint => 1%nat
  | MReturned => 0%nat
  end.

Definition measure (cfg : Config) (st : state) : nat :=
  (main_weight cfg st
   + wsum fetcher_weight (fetchers st)
   + 4 * length (buf (fetchedData st))
   + wsum worker_weight (workers st)
   + length (buf (processedData st))
   + closer_weight (closer1 st) + closer_weight (closer2 st)
   + output_weight (output st))%nat.

(** The first two stages are through: nothing is left to run or to
    deliver, both queues are closed. *)
Definition quiescent_stages (st : state) : Prop :=
  wsum f_live (fetchers st) = 0%nat /\ wsum w_live (workers st) = 0%nat /\
  buf (fetchedData st) = [] /\ buf (processedData st) = [] /\
  closer1 st = CDone /\ closer2 st = CDone.

(** ** Schedules

    Some complete runs, used to exercise the semantics. *)

(** A fetch that answers after [n] ms, before the deadline. *)
Definition fetch_in_time (i : nat) (n : Z) : list action :=
  [AFetch i (InnerRand n); AFetch i InnerSend; AFetch i SelectResponse;
   AFetch i FetchReturn; AFetcher i; AFetcher i; AFetcher i].

(** A fetch whose deadline fires first; the answer arrives afterwards. *)
Definition fetch_too_late (i : nat) (n : Z) : list action :=
  [AFetch i (InnerRand n); AFetch i TimerFire; AFetch i SelectTimeout;
   AFetch i FetchReturn; AFetcher i; AFetcher i; AFetch i InnerSend].

(** A worker takes a job, builds the result and sends it. *)
Definition work_one (w : nat) : list action := [AWorker w; AWorker w; AWorker w].

(** A worker sees the end of [jobs] and returns. *)
Definition work_end (w : nat) : list action := [AWorker w; AWorker w].

(** [demonstrateIntegrated] starts every goroutine of [cfg]. *)
Definition start_all (cfg : Config) : list action :=
  repeat AMain (length (sources cfg) + 1 + numWorkers cfg + 1 + 1).

(** The output stage prints [n] results, sees the end, and signals [done];
    then the statistics are printed. *)
Definition finish (n : nat) : list action :=
  repeat AOutput n ++ [AOutput; AOutput; AMain].

(** The demo, all five fetches in time. *)
Definition demo_schedule : list action :=
  start_all demo_config
  ++ fetch_in_time 0 120 ++ fetch_in_time 1 799 ++ fetch_in_time 2 0
  ++ fetch_in_time 3 45 ++ fetch_in_time 4 300
  ++ [ACloser1; ACloser1]
  ++ work_one 0 ++ work_one 1 ++ work_one 2 ++ work_one 1 ++ work_one 0
  ++ work_end 0 ++ work_end 1 ++ work_end 2
  ++ [ACloser2; ACloser2]
  ++ finish 5.

(** The demo, the third fetch missing its deadline. *)
Definition demo_schedule_timeout : list action :=
  start_all demo_config
  ++ fetch_in_time 0 120 ++ fetch_in_time 1 799 ++ fetch_too_late 2 700
  ++ fetch_in_time 3 45 ++ fetch_in_time 4 300
  ++ [ACloser1; ACloser1]
  ++ work_one 0 ++ work_one 1 ++ work_one 2 ++ work_one 1
  ++ work_end 0 ++ work_end 1 ++ work_end 2
  ++ [ACloser2; ACloser2]
  ++ finish 4.

(** The demo with an empty worker pool: the run of [demonstrateIntegrated]
    is over before any fetch has started. *)
Definition no_workers_config : Config :=
  MkConfig ["API-1"; "API-2"; "API-3"; "API-4"; "API-5"] 0 5.

Definition no_workers_schedule : list action :=
  start_all no_workers_config ++ [ACloser2; ACloser2] ++ finish 0.

(** The state a schedule leads to ([init] when it cannot be run). *)
Definition state_after (cfg : Config) (sched : list action) : state :=
  match run cfg sched (init cfg) with
  | Step st => st
  | _ => init cfg
  end.

(** The demo up to the point where the first worker holds its result and
    is about to send it. *)
Definition worker_sending_schedule : list action :=
  start_all demo_config ++ fetch_in_time 0 120 ++ [AWorker 0; AWorker 0].

Definition worker_sending : state := state_after demo_config worker_sending_schedule.

(** The same, the worker having just taken the job. *)
Definition worker_holding : state :=
  state_after demo_config (start_all demo_config ++ fetch_in_time 0 120 ++ [AWorker 0]).

(** What the orchestrator must not do: [processedData] closed while a
    worker still has a result to send.  (Not a state of the program.) *)
Definition closed_too_early : state :=
  set_closer2 worker_sending CDone
    (MkChan (buf (processedData worker_sending)) (cap (processedData worker_sending)) true).

(** The statement ended in a run-time panic. *)
Definition is_panic {S : Type} (o : outcome S) : bool :=
  match o with Crash _ => true | _ => false end.

(** One call whose answer comes after the deadline. *)
Definition late_fetch_schedule : list fetch_action :=
  [InnerRand 700; TimerFire; SelectTimeout; FetchReturn; InnerSend].

Definition fetch_after (sched : list fetch_action) (source : string) (stats0 : Stats)
  : fetch_call * Stats :=
  match fetch_run sched (fetch_init source) stats0 with
  | Step p => p
  | _ => (fetch_init source, stats0)
  end.

Definition late_fetch : fetch_call * Stats :=
  fetch_after late_fetch_schedule "API-3" (MkStats 0 0 0).

(** ** The mutex of [Stats], statement by statement

    Any number of goroutines call the four methods of one [Stats] value.
    Each method is [s.mu.Lock()], its body, and the deferred
    [s.mu.Unlock()]; the [++] of an increment is a read of the field and
    a write of the value read plus one; [Print] reads the three fields
    one after the other while it formats them. *)
Module StatsMutex.

Inductive counter : Type := Fetched | Processed | Errors.

Inductive method : Type := Increment (c : counter) | PrintStats.

Inductive call : Type :=
| IncLock (c : counter)            (* at s.mu.Lock() *)
| IncRead (c : counter)            (* holding the mutex, before the ++ *)
| IncWrite (c : counter) (v : Z)   (* the field read by the ++, before its write *)
| IncUnlock (c : counter)          (* at the deferred s.mu.Unlock() *)
| IncDone (c : counter)
| PrintLock
| PrintRead1                       (* holding the mutex, nothing read yet *)
| PrintRead2 (f : Z)               (* s.totalFetched read *)
| PrintRead3 (f p : Z)             (* s.totalProcessed read *)
| PrintUnlock (f p e : Z)          (* s.errors read, line printed *)
| PrintDone (f p e : Z).

Record state : Type := MkState {
  counters : Stats;
  mu : bool;                       (* the mutex is locked *)
  calls : list call
}.

Definition init (s : Stats) : state := MkState s false [].

Inductive action : Type :=
| Call (m : method)                (* a goroutine enters a method *)
| Run (t : nat).                   (* the t-th call runs its next statement *)

Definition enter (m : method) : call :=
  match m with
  | Increment c => IncLock c
  | PrintStats => PrintLock
  end.

(** The field a counter names, and the write to it. *)
Definition get (k : counter) (s : Stats) : Z :=
  match k with
  | Fetched => totalFetched s
  | Processed => totalProcessed s
  | Errors => errors s
  end.

Definition put (k : counter) (v : Z) (s : Stats) : Stats :=
  match k with
  | Fetched => MkStats v (totalProcessed s) (errors s)
  | Processed => MkStats (totalFetched s) v (errors s)
  | Errors => MkStats (totalFetched s) (totalProcessed s) v
  end.

(** The body of an increment run without interruption, as the pipeline
    semantics runs it. *)
Definition bump (c : counter) (s : Stats) : Stats :=
  match c with
  | Fetched => IncrementFetched s
  | Processed => IncrementProcessed s
  | Errors => IncrementErrors s
  end.

Definition lock (st : state) (t : nat) (next : call) : outcome state :=
  if mu st then Blocked
  else Step (MkState (counters st) true (<[t:=next]> (calls st))).

Definition unlock (st : state) (t : nat) (next : call) : outcome state :=
  if mu st then Step (MkState (counters st) false (<[t:=next]> (calls st)))
  else Crash "sync: unlock of unlocked mutex".

Definition goto (st : state) (t : nat) (next : call) : state :=
  MkState (counters st) (mu st) (<[t:=next]> (calls st)).

Definition exec (a : action) (st : state) : outcome state :=
  match a with
  | Call m => Step (MkState (counters st) (mu st) (calls st ++ [enter m]))
  | Run t =>
      match calls st !! t with
      | None => Blocked
      | Some (IncLock c) => lock st t (IncRead c)
      | Some (IncRead c) => Step (goto st t (IncWrite c (get c (counters st))))
      | Some (IncWrite c v) =>
          Step (MkState (put c (int_incr v) (counters st)) (mu st)
                        (<[t:=IncUnlock c]> (calls st)))
      | Some (IncUnlock c) => unlock st t (IncDone c)
      | Some (IncDone _) => Blocked
      | Some PrintLock => lock st t PrintRead1
      | Some PrintRead1 => Step (goto st t (PrintRead2 (totalFetched (counters st))))
      | Some (PrintRead2 f) =>
          Step (goto st t (PrintRead3 f (totalProcessed (counters st))))
      | Some (PrintRead3 f p) => Step (goto st t (PrintUnlock f p (errors (counters st))))
      | Some (PrintUnlock f p e) => unlock st t (PrintDone f p e)
      | Some (PrintDone _ _ _) => Blocked
      end
  end.

(** The action is the write of the [++] of an increment. *)
Definition is_increment (st : state) (a : action) : bool :=
  match a with
  | Call _ => false
  | Run t =>
      match calls st !! t with
      | Some (IncWrite _ _) => true
      | _ => false
      end
  end.

Fixpoint run (sched : list action) (st : state) : outcome state :=
  match sched with
  | [] => Step st
  | a :: rest =>
      match exec a st with
      | Step st' => run rest st'
      | Blocked => Blocked
      | Crash m => Crash m
      end
  end.

(** No action of the schedule, run from [st], is the [++] of an
    increment. *)
Fixpoint no_increment (sched : list action) (st : state) : bool :=
  match sched with
  | [] => true
  | a :: rest =>
      negb (is_increment st a)
      && match exec a st with
         | Step st' => no_increment rest st'
         | _ => true
         end
  end.

Inductive reachable (s : Stats) : state -> Prop :=
| reach_init : reachable s (init s)
| reach_step st a st' : reachable s st -> exec a st = Step st' -> reachable s st'.

(** The call is inside its critical section. *)
Definition holds (c : call) : nat :=
  match c with
  | IncRead _ | IncWrite _ _ | IncUnlock _ | PrintRead1 | PrintRead2 _
  | PrintRead3 _ _ | PrintUnlock _ _ _ => 1
  | _ => 0
  end.

(** What a [Print] in its critical section has read so far is what the
    counters hold. *)
Definition reads_current (s : Stats) (c : call) : Prop :=
  match c with
  | PrintRead2 f => f = totalFetched s
  | PrintRead3 f p => f = totalFetched s /\ p = totalProcessed s
  | PrintUnlock f p e => (f, p, e) = snapshot s
  | _ => True
  end.

Record inv (st : state) : Prop := MkInv {
  i_mutex : wsum holds (calls st) = if mu st then 1%nat else 0%nat;
  i_reads : Forall (reads_current (counters st)) (calls st)
}.

(** Two calls of [Print] around a blocked increment: the first [Print]
    runs up to its [Unlock]; then it returns, and a second [Print] runs
    up to its [Unlock] while the increment still waits for the mutex. *)
Definition first_print : list action :=
  [Call PrintStats; Call (Increment Errors); Run 0; Run 0; Run 0; Run 0].

Definition second_print : list action :=
  [Run 0; Call PrintStats; Run 2; Run 2; Run 2; Run 2].

Definition state_after (s : Stats) (sched : list action) : state :=
  match run sched (init s) with
  | Step st => st
  | _ => init s
  end.

(** What the [++] of an increment has read is what the field holds. *)
Definition loads_current (s : Stats) (c : call) : Prop :=
  match c with
  | IncWrite k v => v = get k s
  | _ => True
  end.

Definition counter_eqb (a b : counter) : bool :=
  match a, b with
  | Fetched, Fetched | Processed, Processed | Errors, Errors => true
  | _, _ => false
  end.

(** The call is an increment of [k] that has done its [++]. *)
Definition written (k : counter) (c : call) : nat :=
  match c with
  | IncUnlock c' | IncDone c' => if counter_eqb c' k then 1 else 0
  | _ => 0
  end.

(** The method has returned. *)
Definition finished (c : call) : bool :=
  match c with
  | IncDone _ | PrintDone _ _ _ => true
  | _ => false
  end.

(** The statements a call still has to run. *)
Definition call_weight (c : call) : nat :=
  match c with
  | IncLock _ => 4 | IncRead _ => 3 | IncWrite _ _ => 2 | IncUnlock _ => 1
  | IncDone _ => 0
  | PrintLock => 5 | PrintRead1 => 4 | PrintRead2 _ => 3 | PrintRead3 _ _ => 2
  | PrintUnlock _ _ _ => 1 | PrintDone _ _ _ => 0
  end.

(** What the mutex excludes: two increments inside the critical section
    at once, both having read the field.  (Not a state of the program.) *)
Definition both_inside : state :=
  MkState (MkStats 0 0 0) true [IncWrite Fetched 0; IncWrite Fetched 0].

(** Three increments and a [Print], interleaved. *)
Definition busy : list action :=
  [Call (Increment Fetched); Call (Increment Fetched); Call PrintStats;
   Call (Increment Errors); Run 1; Run 1; Run 1; Run 1;
   Run 2; Run 2; Run 2; Run 2; Run 2; Run 0; Run 0; Run 0].

End StatsMutex.

(** ** What the items carry, and where the dropped ones went *)

(** The source of a call that returned without a response: its item is
    dropped ([demonstrateIntegrated] prints the error and returns). *)
Definition f_dropped (f : fetcher) : list string :=
  match fc_pc (f_call f) with
  | FReturned None _ => [fc_source (f_call f)]
  | _ => []
  end.

(** Every source of the run: in flight, or dropped. *)
Definition accounted (cfg : Config) (st : state) : list string :=
  all_sources cfg st ++ flat_map f_dropped (fetchers st).

(** A response as the goroutine of [fetchWithTimeout] builds it. *)
Definition response_ok (r : APIResponse) : Prop :=
  Data r = "data-from-" +:+ Source r
  /\ exists n, 0 <= n < 800 /\ Time r = n * Millisecond.

(** A result as [processingWorker] builds it from such a response. *)
Definition result_ok (cfg : Config) (p : ProcessedData) : Prop :=
  1 <= ID p <= Z.of_nat (numWorkers cfg)
  /\ Original p = "data-from-" +:+ PSource p
  /\ Processed p = "PROCESSED[data-from-" +:+ PSource p +:+ "]".

Definition fetcher_items_ok (f : fetcher) : Prop :=
  Forall response_ok (buf (responseChan (f_call f)))
  /\ match fc_inner (f_call f) with
     | ISleeping fetchTime => exists n, 0 <= n < 800 /\ fetchTime = n * Millisecond
     | _ => True
     end
  /\ match fc_pc (f_call f) with
     | FGotResponse r | FReturned (Some r) _ => response_ok r
     | _ => True
     end
  /\ match f_pc f with
     | GSend r => response_ok r
     | _ => True
     end.

Definition worker_items_ok (cfg : Config) (w : worker) : Prop :=
  1 <= w_id w <= Z.of_nat (numWorkers cfg)
  /\ match w_pc w with
     | WHave job => response_ok job
     | WSend result => result_ok cfg result
     | _ => True
     end.

Record items_inv (cfg : Config) (st : state) : Prop := MkItemsInv {
  ii_fetchers : Forall fetcher_items_ok (fetchers st);
  ii_fetched : Forall response_ok (buf (fetchedData st));
  ii_workers : Forall (worker_items_ok cfg) (workers st);
  ii_wlen : (length (workers st) <= numWorkers cfg)%nat;
  ii_processed : Forall (result_ok cfg) (buf (processedData st));
  ii_printed : Forall (result_ok cfg) (printed st)
}.

(** ** [demonstrateMutex] and [counter]

    [*sharedCounter++] is a read and a write of the shared variable; the
    mutex is what keeps another goroutine from writing in between. *)
Module CounterDemo.

Inductive pc : Type :=
| KLoop (i : Z)                  (* the test i < iterations *)
| KLock (i : Z)                  (* mu.Lock() *)
| KLoad (i : Z)                  (* sharedCounter++: the read *)
| KStore (i : Z) (tmp : Z)       (* sharedCounter++: the write of tmp + 1 *)
| KRead (i : Z)                  (* current := *sharedCounter *)
| KUnlock (i : Z) (current : Z)  (* mu.Unlock() *)
| KPrint (i : Z) (current : Z)   (* if i%100 == 0 { Printf } *)
| KSleep (i : Z)                 (* time.Sleep; i++ *)
| KExit                          (* the deferred wg.Done() *)
| KDone.

Record goroutine : Type := MkGoroutine {
  g_name : string;
  g_pc : pc
}.

(** The literals of [demonstrateMutex]: the names, and 200 iterations. *)
Record Config : Type := MkConfig {
  names : list string;
  iterations : Z
}.

Definition demo_config : Config :=
  MkConfig ["Goroutine-A"; "Goroutine-B"; "Goroutine-C"] 200.

Inductive main_pc : Type := MLoop | MWait | MPrint | MReturned.

Record state : Type := MkState {
  mu : bool;
  sharedCounter : Z;
  wg : Z;
  goroutines : list goroutine;
  lines : list (string * Z);     (* the arguments of the Printf of [counter] *)
  mainpc : main_pc;
  final : option Z               (* the argument of the last Printf *)
}.

Definition init : state := MkState false 0 0 [] [] MLoop None.

Inductive action : Type := AMain | ARun (g : nat).

Definition goto (st : state) (g : nat) (name : string) (p : pc) : state :=
  MkState (mu st) (sharedCounter st) (wg st) (<[g:=MkGoroutine name p]> (goroutines st))
          (lines st) (mainpc st) (final st).

(** One statement of the g-th [counter]. *)
Definition counter_step (cfg : Config) (g : nat) (st : state) : outcome state :=
  match goroutines st !! g with
  | None => Blocked
  | Some gr =>
      match g_pc gr with
      | KLoop i =>
          if i <? iterations cfg then Step (goto st g (g_name gr) (KLock i))
          else Step (goto st g (g_name gr) KExit)
      | KLock i =>
          if mu st then Blocked
          else Step (MkState true (sharedCounter st) (wg st)
                             (<[g:=MkGoroutine (g_name gr) (KLoad i)]> (goroutines st))
                             (lines st) (mainpc st) (final st))
      | KLoad i => Step (goto st g (g_name gr) (KStore i (sharedCounter st)))
      | KStore i tmp =>
          Step (MkState (mu st) (int_incr tmp) (wg st)
                        (<[g:=MkGoroutine (g_name gr) (KRead i)]> (goroutines st))
                        (lines st) (mainpc st) (final st))
      | KRead i => Step (goto st g (g_name gr) (KUnlock i (sharedCounter st)))
      | KUnlock i current =>
          if mu st
          then Step (MkState false (sharedCounter st) (wg st)
                             (<[g:=MkGoroutine (g_name gr) (KPrint i current)]>
                                (goroutines st))
                             (lines st) (mainpc st) (final st))
          else Crash "sync: unlock of unlocked mutex"
      | KPrint i current =>
          Step (MkState (mu st) (sharedCounter st) (wg st)
                        (<[g:=MkGoroutine (g_name gr) (KSleep i)]> (goroutines st))
                        (if Z.rem i 100 =? 0 then lines st ++ [(g_name gr, current)]
                         else lines st)
                        (mainpc st) (final st))
      | KSleep i => Step (goto st g (g_name gr) (KLoop (int_incr i)))
      | KExit =>
          match wg_done (wg st) with
          | Step n =>
              Step (MkState (mu st) (sharedCounter st) n
                            (<[g:=MkGoroutine (g_name gr) KDone]> (goroutines st))
                            (lines st) (mainpc st) (final st))
          | Blocked => Blocked
          | Crash m => Crash m
          end
      | KDone => Blocked
      end
  end.

(** One statement of [demonstrateMutex]. *)
Definition demonstrateMutex_step (cfg : Config) (st : state) : outcome state :=
  match mainpc st with
  | MLoop =>
      match names cfg !! length (goroutines st) with
      | Some name =>
          match wg_add (wg st) 1 with
          | Step n =>
              Step (MkState (mu st) (sharedCounter st) n
                            (goroutines st ++ [MkGoroutine name (KLoop 0)])
                            (lines st) MLoop (final st))
          | Blocked => Blocked
          | Crash m => Crash m
          end
      | None =>
          Step (MkState (mu st) (sharedCounter st) (wg st) (goroutines st) (lines st)
                        MWait (final st))
      end
  | MWait =>
      match wg_wait (wg st) with
      | Step _ =>
          Step (MkState (mu st) (sharedCounter st) (wg st) (goroutines st) (lines st)
                        MPrint (final st))
      | Blocked => Blocked
      | Crash m => Crash m
      end
  | MPrint =>
      Step (MkState (mu st) (sharedCounter st) (wg st) (goroutines st) (lines st)
                    MReturned (Some (sharedCounter st)))
  | MReturned => Blocked
  end.

Definition exec (cfg : Config) (a : action) (st : state) : outcome state :=
  match a with
  | AMain => demonstrateMutex_step cfg st
  | ARun g => counter_step cfg g st
  end.

Fixpoint run (cfg : Config) (sched : list action) (st : state) : outcome state :=
  match sched with
  | [] => Step st
  | a :: rest =>
      match exec cfg a st with
      | Step st' => run cfg rest st'
      | Blocked => Blocked
      | Crash m => Crash m
      end
  end.

Inductive reachable (cfg : Config) : state -> Prop :=
| reach_init : reachable cfg init
| reach_step st a st' :
    reachable cfg st -> exec cfg a st = Step st' -> reachable cfg st'.

(** The increments a goroutine has completed. *)
Definition done_incr (cfg : Config) (gr : goroutine) : nat :=
  match g_pc gr with
  | KLoop i | KLock i | KLoad i | KStore i _ => Z.to_nat i
  | KRead i | KUnlock i _ | KPrint i _ | KSleep i => S (Z.to_nat i)
  | KExit | KDone => Z.to_nat (iterations cfg)
  end.

Definition holds (gr : goroutine) : nat :=
  match g_pc gr with
  | KLoad _ | KStore _ _ | KRead _ | KUnlock _ _ => 1
  | _ => 0
  end.

Definition live (gr : goroutine) : nat :=
  match g_pc gr with KDone => 0 | _ => 1 end.

(** The loop variable is in range. *)
Definition g_inv (cfg : Config) (gr : goroutine) : Prop :=
  match g_pc gr with
  | KLoop i => 0 <= i <= Z.max 0 (iterations cfg)
  | KLock i | KLoad i | KStore i _ | KRead i | KUnlock i _ | KPrint i _ | KSleep i =>
      0 <= i < iterations cfg
  | KExit | KDone => True
  end.

(** What a goroutine has read of the shared variable. *)
Definition g_mem (s : Z) (gr : goroutine) : Prop :=
  match g_pc gr with
  | KStore _ tmp => tmp = s
  | KUnlock _ current => current = s /\ 1 <= current
  | KPrint _ current => 1 <= current <= s
  | KRead _ => 1 <= s
  | _ => True
  end.

(** The iterations of all goroutines fit an [int]. *)
Definition fits (cfg : Config) : Prop :=
  iterations cfg < 2 ^ 63
  /\ Z.of_nat (length (names cfg)) * Z.max 0 (iterations cfg) < 2 ^ 63.

Record inv (cfg : Config) (st : state) : Prop := MkInv {
  i_range : Forall (g_inv cfg) (goroutines st);
  i_mutex : wsum holds (goroutines st) = if mu st then 1%nat else 0%nat;
  i_mem : Forall (g_mem (sharedCounter st)) (goroutines st);
  i_sum : sharedCounter st = Z.of_nat (wsum (done_incr cfg) (goroutines st));
  i_wg : wg st = Z.of_nat (wsum live (goroutines st));
  i_len : (length (goroutines st) <= length (names cfg))%nat;
  i_all : mainpc st <> MLoop -> length (goroutines st) = length (names cfg);
  i_waited : mainpc st = MPrint \/ mainpc st = MReturned ->
             wsum live (goroutines st) = 0%nat;
  i_final : forall v, final st = Some v -> v = sharedCounter st /\ mainpc st = MReturned;
  i_lines : Forall (fun l => 1 <= snd l <= sharedCounter st) (lines st)
}.

(** A complete run of a configuration: the goroutines take turns, one
    iteration each. *)
Definition one_iteration (g : nat) : list action := repeat (ARun g) 8.

Definition round (n : nat) : list action := flat_map one_iteration (seq 0 n).

Definition full_schedule (cfg : Config) : list action :=
  repeat AMain (length (names cfg) + 1)
  ++ mjoin (repeat (round (length (names cfg))) (Z.to_nat (iterations cfg)))
  ++ flat_map (fun g => [ARun g; ARun g]) (seq 0 (length (names cfg)))
  ++ [AMain; AMain].

Definition state_after (cfg : Config) (sched : list action) : state :=
  match run cfg sched init with
  | Step st => st
  | _ => init
  end.

End CounterDemo.

(** ** [demonstratePipeline], [pipelineStage1] and [pipelineStage2]

    The three channels are unbuffered: a send and the matching receive
    are one step of two goroutines, so a channel has no state but its
    closed flag. *)
Module PipelineDemo.

(** The goroutine [for i := 1; i <= 5; i++ { stage1Input <- i }]. *)
Inductive feeder_pc : Type := FNotStarted | FLoop (i : Z) | FDone.

(** [pipelineStage1]. *)
Inductive stage1_pc : Type :=
| S1NotStarted
| S1Recv                    (* for num := range input *)
| S1Send (result : Z)       (* result := num * num; output <- result *)
| S1Closing                 (* close(output) *)
| S1Done.

(** [pipelineStage2]. *)
Inductive stage2_pc : Type :=
| S2NotStarted
| S2Recv
| S2Send (result : string)  (* result := Sprintf("Result: %d", num); output <- result *)
| S2Closing
| S2Done.

Inductive main_pc : Type := MSpawn1 | MSpawn2 | MSpawn3 | MRecv | MDone.

Record state : Type := MkState {
  feeder : feeder_pc;
  stage1 : stage1_pc;
  stage2 : stage2_pc;
  mainpc : main_pc;
  closedIn : bool;           (* stage1Input *)
  closedMid : bool;          (* stage1Output *)
  closedOut : bool;          (* stage2Output *)
  printed : list string      (* the lines of fmt.Println(result) *)
}.

Definition init : state :=
  MkState FNotStarted S1NotStarted S2NotStarted MSpawn1 false false false [].

(** [num * num] on [int]. *)
Definition square (num : Z) : Z := int_wrap (num * num).

(** [fmt.Sprintf("Result: %d", num)]. *)
Definition format (num : Z) : string := "Result: " +:+ pretty num.

Inductive action : Type := AMain | AFeeder | AStage1 | AStage2.

(** [demonstratePipeline]: the three [go] statements, then the range over
    [stage2Output], whose values arrive in [stage2_step]. *)
Definition demonstratePipeline_step (st : state) : outcome state :=
  match mainpc st with
  | MSpawn1 =>
      Step (MkState (feeder st) S1Recv (stage2 st) MSpawn2 (closedIn st) (closedMid st)
                    (closedOut st) (printed st))
  | MSpawn2 =>
      Step (MkState (feeder st) (stage1 st) S2Recv MSpawn3 (closedIn st) (closedMid st)
                    (closedOut st) (printed st))
  | MSpawn3 =>
      Step (MkState (FLoop 1) (stage1 st) (stage2 st) MRecv (closedIn st) (closedMid st)
                    (closedOut st) (printed st))
  | MRecv =>
      if closedOut st
      then Step (MkState (feeder st) (stage1 st) (stage2 st) MDone (closedIn st)
                         (closedMid st) (closedOut st) (printed st))
      else Blocked
  | MDone => Blocked
  end.

(** The feeding goroutine; [n] is the bound of its loop (5). *)
Definition feeder_step (n : Z) (st : state) : outcome state :=
  match feeder st with
  | FLoop i =>
      if i <=? n
      then if closedIn st then Crash "send on closed channel"
           else match stage1 st with
                | S1Recv =>
                    Step (MkState (FLoop (int_incr i)) (S1Send (square i)) (stage2 st)
                                  (mainpc st) (closedIn st) (closedMid st) (closedOut st)
                                  (printed st))
                | _ => Blocked
                end
      else if closedIn st then Crash "close of closed channel"
           else Step (MkState FDone (stage1 st) (stage2 st) (mainpc st) true
                              (closedMid st) (closedOut st) (printed st))
  | _ => Blocked
  end.

Definition stage1_step (st : state) : outcome state :=
  match stage1 st with
  | S1Recv =>
      if closedIn st
      then Step (MkState (feeder st) S1Closing (stage2 st) (mainpc st) (closedIn st)
                         (closedMid st) (closedOut st) (printed st))
      else Blocked
  | S1Send result =>
      if closedMid st then Crash "send on closed channel"
      else match stage2 st with
           | S2Recv =>
               Step (MkState (feeder st) S1Recv (S2Send (format result)) (mainpc st)
                             (closedIn st) (closedMid st) (closedOut st) (printed st))
           | _ => Blocked
           end
  | S1Closing =>
      if closedMid st then Crash "close of closed channel"
      else Step (MkState (feeder st) S1Done (stage2 st) (mainpc st) (closedIn st) true
                         (closedOut st) (printed st))
  | _ => Blocked
  end.

Definition stage2_step (st : state) : outcome state :=
  match stage2 st with
  | S2Recv =>
      if closedMid st
      then Step (MkState (feeder st) (stage1 st) S2Closing (mainpc st) (closedIn st)
                         (closedMid st) (closedOut st) (printed st))
      else Blocked
  | S2Send result =>
      if closedOut st then Crash "send on closed channel"
      else match mainpc st with
           | MRecv =>
               Step (MkState (feeder st) (stage1 st) S2Recv (mainpc st) (closedIn st)
                             (closedMid st) (closedOut st) (printed st ++ [result]))
           | _ => Blocked
           end
  | S2Closing =>
      if closedOut st then Crash "close of closed channel"
      else Step (MkState (feeder st) (stage1 st) S2Done (mainpc st) (closedIn st)
                         (closedMid st) true (printed st))
  | _ => Blocked
  end.

Definition exec (n : Z) (a : action) (st : state) : outcome state :=
  match a with
  | AMain => demonstratePipeline_step st
  | AFeeder => feeder_step n st
  | AStage1 => stage1_step st
  | AStage2 => stage2_step st
  end.

Fixpoint run (n : Z) (sched : list action) (st : state) : outcome state :=
  match sched with
  | [] => Step st
  | a :: rest =>
      match exec n a st with
      | Step st' => run n rest st'
      | Blocked => Blocked
      | Crash m => Crash m
      end
  end.

Inductive reachable (n : Z) : state -> Prop :=
| reach_init : reachable n init
| reach_step st a st' : reachable n st -> exec n a st = Step st' -> reachable n st'.

(** The numbers the feeder has handed over. *)
Definition fed (n : Z) (st : state) : list Z :=
  match feeder st with
  | FNotStarted => []
  | FLoop i => seqZ 1 (i - 1)
  | FDone => seqZ 1 n
  end.

Definition held1 (st : state) : list Z :=
  match stage1 st with S1Send result => [result] | _ => [] end.

Definition held2 (st : state) : list string :=
  match stage2 st with S2Send result => [result] | _ => [] end.

Record inv (n : Z) (st : state) : Prop := MkInv {
  i_order : printed st ++ held2 st ++ (format <$> held1 st)
            = format <$> (square <$> fed n st);
  i_loop : forall i, feeder st = FLoop i -> 1 <= i <= Z.max 1 (n + 1);
  i_in : closedIn st = true <-> feeder st = FDone;
  i_mid : closedMid st = true <-> stage1 st = S1Done;
  i_out : closedOut st = true <-> stage2 st = S2Done;
  i_s1 : stage1 st = S1Closing \/ stage1 st = S1Done -> closedIn st = true;
  i_s2 : stage2 st = S2Closing \/ stage2 st = S2Done -> closedMid st = true;
  i_main : mainpc st = MDone -> closedOut st = true;
  i_start1 : stage1 st = S1NotStarted <-> mainpc st = MSpawn1;
  i_start2 : stage2 st = S2NotStarted <-> mainpc st = MSpawn1 \/ mainpc st = MSpawn2;
  i_start3 : feeder st = FNotStarted <->
             mainpc st = MSpawn1 \/ mainpc st = MSpawn2 \/ mainpc st = MSpawn3
}.

(** The statements still to run. *)
Definition measure (n : Z) (st : state) : nat :=
  (match mainpc st with
   | MSpawn1 => 3 + 2 + 2 + (3 * Z.to_nat n + 1) + 1
   | MSpawn2 => 2 + 2 + (3 * Z.to_nat n + 1) + 1
   | MSpawn3 => 1 + (3 * Z.to_nat n + 1) + 1
   | MRecv => 1
   | MDone => 0
   end
   + match feeder st with
     | FNotStarted | FDone => 0
     | FLoop i => 3 * Z.to_nat (n + 1 - i) + 1
     end
   + match stage1 st with
     | S1NotStarted | S1Done => 0
     | S1Recv => 2 | S1Send _ => 4 | S1Closing => 1
     end
   + match stage2 st with
     | S2NotStarted | S2Done => 0
     | S2Recv => 2 | S2Send _ => 3 | S2Closing => 1
     end)%nat.

(** A run in which every number goes through the whole pipeline before
    the next one is fed. *)
Definition one_number : list action := [AFeeder; AStage1; AStage2].

Definition full_schedule (n : Z) : list action :=
  [AMain; AMain; AMain]
  ++ mjoin (repeat one_number (Z.to_nat n))
  ++ [AFeeder; AStage1; AStage1; AStage2; AStage2; AMain].

Definition state_after (n : Z) (sched : list action) : state :=
  match run n sched init with
  | Step st => st
  | _ => init
  end.

End PipelineDemo.

(** ** [demonstrateAsyncFetching] and [demonstrateWorkerPool]: fan-in *)

(** Both demos run the same statements: a loop that does [wg.Add(1)] and
    starts one goroutine per item, a goroutine that waits for the group
    and closes the channel, and a [range] over the channel that prints.
    The goroutine ([fetchData], [Worker.Process]) sleeps for a random
    time, builds one string and sends it, with [wg.Done()] deferred. *)
Module AsyncFetching.

(** [fetchData] / [Worker.Process]; [d] is the number [rand.Intn] gave. *)
Inductive fetch_pc : Type :=
| GNotStarted
| GSleep                          (* time.Sleep(... rand.Intn(bound) ...) *)
| GSend (d : Z) (data : string)   (* data := fmt.Sprintf(...); dataChan <- data *)
| GExit (d : Z) (data : string)   (* the deferred wg.Done() *)
| GDone (d : Z) (data : string).

(** [go func() { wg.Wait(); close(dataChan) }()]. *)
Inductive closer_pc : Type := CNotStarted | CWait | CClose | CDone.

Inductive main_pc : Type :=
| MAdd (k : nat)     (* wg.Add(1) of iteration k, or the end of the loop *)
| MGo (k : nat)      (* go fetchData(source, &wg, dataChan) *)
| MRange             (* for data := range dataChan { fmt.Println(data) } *)
| MDone.

(** [messages]: for each iteration of the loop, the string its goroutine
    builds, given the random number; [bound]: the argument of
    [rand.Intn]; [capacity]: of the channel. *)
Record Config : Type := MkConfig {
  messages : list (Z -> string);
  bound : Z;
  capacity : nat
}.

(** [fmt.Sprintf("Data fetched from %s", source)]. *)
Definition fetchData_data (source : string) : string :=
  "Data fetched from " +:+ source.

Definition demo_sources : list string :=
  ["API-1"; "API-2"; "API-3"; "Database"; "Cache"].

(** [demonstrateAsyncFetching] for a list of sources:
    [dataChan := make(chan string, len(sources))], [rand.Intn(500)]. *)
Definition demonstrateAsyncFetching_config (sources : list string) : Config :=
  MkConfig ((fun source _ => fetchData_data source) <$> sources) 500 (length sources).

(** [%v] of a [time.Duration] of [ms] milliseconds, below one second. *)
Definition Duration_String (ms : Z) : string :=
  if ms =? 0 then "0s" else pretty ms +:+ "ms".

(** [fmt.Sprintf("Worker %d processed job %d in %v", w.id, job, processingTime)]. *)
Definition Process_result (id job processingTime : Z) : string :=
  "Worker " +:+ pretty id +:+ " processed job " +:+ pretty job +:+ " in "
  +:+ Duration_String processingTime.

(** [demonstrateWorkerPool]: jobs 1..15, [Worker{id: (i % numWorkers) + 1}]
    with [numWorkers := 5], [results := make(chan string, numJobs)],
    [rand.Intn(1000)]. *)
Definition demonstrateWorkerPool_config : Config :=
  MkConfig ((fun i => Process_result (i mod 5 + 1) i) <$> seqZ 1 15) 1000 15.

Record state : Type := MkState {
  fetches : list fetch_pc;
  wg : Z;
  closer : closer_pc;
  mainpc : main_pc;
  dataChan : chan string;
  printed : list string
}.

Definition init (cfg : Config) : state :=
  MkState (replicate (length (messages cfg)) GNotStarted) 0 CNotStarted (MAdd 0)
          (make_chan (capacity cfg)) [].

Definition set_fetch (k : nat) (g : fetch_pc) (st : state) : state :=
  MkState (<[k := g]> (fetches st)) (wg st) (closer st) (mainpc st) (dataChan st)
          (printed st).

Definition set_wg (n : Z) (st : state) : state :=
  MkState (fetches st) n (closer st) (mainpc st) (dataChan st) (printed st).

Definition set_closer (c : closer_pc) (st : state) : state :=
  MkState (fetches st) (wg st) c (mainpc st) (dataChan st) (printed st).

Definition set_main (m : main_pc) (st : state) : state :=
  MkState (fetches st) (wg st) (closer st) m (dataChan st) (printed st).

Definition set_chan (c : chan string) (st : state) : state :=
  MkState (fetches st) (wg st) (closer st) (mainpc st) c (printed st).

Definition print (line : string) (st : state) : state :=
  MkState (fetches st) (wg st) (closer st) (mainpc st) (dataChan st)
          (printed st ++ [line]).

Inductive action : Type :=
| AMain
| AFetch (k : nat) (d : Z)   (* goroutine k; [d]: what rand.Intn returns *)
| ACloser.

(** The statements of [demonstrateAsyncFetching] after the channel is made. *)
Definition demonstrateAsyncFetching_step (cfg : Config) (st : state) : outcome state :=
  match mainpc st with
  | MAdd k =>
      if (k <? length (messages cfg))%nat
      then match wg_add (wg st) 1 with
           | Step n => Step (set_main (MGo k) (set_wg n st))
           | Blocked => Blocked
           | Crash m => Crash m
           end
      else Step (set_main MRange (set_closer CWait st))
  | MGo k => Step (set_main (MAdd (S k)) (set_fetch k GSleep st))
  | MRange =>
      match chan_recv (dataChan st) with
      | RecvOk data c => Step (print data (set_chan c st))
      | RecvClosed => Step (set_main MDone st)
      | RecvBlocked => Blocked
      end
  | MDone => Blocked
  end.

(** [fetchData]; [rand.Intn(n)] panics for [n <= 0]. *)
Definition fetchData_step (cfg : Config) (k : nat) (d : Z) (st : state) : outcome state :=
  match fetches st !! k with
  | Some GSleep =>
      if bound cfg <=? 0 then Crash "invalid argument to Intn"
      else if (0 <=? d) && (d <? bound cfg)
           then match messages cfg !! k with
                | Some message => Step (set_fetch k (GSend d (message d)) st)
                | None => Blocked
                end
           else Blocked
  | Some (GSend d' data) =>
      match chan_send (dataChan st) data with
      | Step c => Step (set_fetch k (GExit d' data) (set_chan c st))
      | Blocked => Blocked
      | Crash m => Crash m
      end
  | Some (GExit d' data) =>
      match wg_done (wg st) with
      | Step n => Step (set_fetch k (GDone d' data) (set_wg n st))
      | Blocked => Blocked
      | Crash m => Crash m
      end
  | _ => Blocked
  end.

Definition closer_step (st : state) : outcome state :=
  match closer st with
  | CWait =>
      match wg_wait (wg st) with
      | Step _ => Step (set_closer CClose st)
      | Blocked => Blocked
      | Crash m => Crash m
      end
  | CClose =>
      match chan_close (dataChan st) with
      | Step c => Step (set_closer CDone (set_chan c st))
      | Blocked => Blocked
      | Crash m => Crash m
      end
  | _ => Blocked
  end.

Definition exec (cfg : Config) (a : action) (st : state) : outcome state :=
  match a with
  | AMain => demonstrateAsyncFetching_step cfg st
  | AFetch k d => fetchData_step cfg k d st
  | ACloser => closer_step st
  end.

Fixpoint run (cfg : Config) (sched : list action) (st : state) : outcome state :=
  match sched with
  | [] => Step st
  | a :: rest =>
      match exec cfg a st with
      | Step st' => run cfg rest st'
      | Blocked => Blocked
      | Crash m => Crash m
      end
  end.

Inductive reachable (cfg : Config) : state -> Prop :=
| reach_init : reachable cfg (init cfg)
| reach_step st a st' :
    reachable cfg st -> exec cfg a st = Step st' -> reachable cfg st'.

(** Goroutines that have not yet run their [wg.Done()]. *)
Definition live (g : fetch_pc) : nat :=
  match g with GSleep | GSend _ _ | GExit _ _ => 1 | _ => 0 end.

(** What a goroutine has put into the channel. *)
Definition sent (g : fetch_pc) : list string :=
  match g with GExit _ data | GDone _ data => [data] | _ => [] end.

Definition sending (g : fetch_pc) : nat :=
  match g with GSend _ _ => 1 | _ => 0 end.

(** The string goroutine [k] builds from the number [d]. *)
Definition built (cfg : Config) (k : nat) (d : Z) (data : string) : Prop :=
  exists message, messages cfg !! k = Some message /\ data = message d
                  /\ 0 <= d < bound cfg.

Definition drawn_ok (cfg : Config) (k : nat) (g : fetch_pc) : Prop :=
  match g with
  | GSend d data | GExit d data | GDone d data => built cfg k d data
  | _ => True
  end.

(** The number of goroutines the loop has started. *)
Definition spawned (cfg : Config) (st : state) : nat :=
  match mainpc st with
  | MAdd k | MGo k => k
  | _ => length (messages cfg)
  end.

(** The [wg.Add(1)] whose goroutine is not yet started. *)
Definition adding (st : state) : Z :=
  match mainpc st with MGo _ => 1 | _ => 0 end.

Definition in_loop (st : state) : bool :=
  match mainpc st with MAdd _ | MGo _ => true | _ => false end.

Record inv (cfg : Config) (st : state) : Prop := MkInv {
  i_len : length (fetches st) = length (messages cfg);
  i_spawn : forall j g, fetches st !! j = Some g ->
            (g = GNotStarted <-> (spawned cfg st <= j)%nat);
  i_go : forall k, mainpc st = MGo k -> (k < length (messages cfg))%nat;
  i_wg : wg st = Z.of_nat (wsum live (fetches st)) + adding st;
  i_start : closer st = CNotStarted <-> in_loop st = true;
  i_closed : closed (dataChan st) = true <-> closer st = CDone;
  i_close : closer st = CClose \/ closer st = CDone -> wsum live (fetches st) = 0%nat;
  i_cap : cap (dataChan st) = capacity cfg;
  i_data : printed st ++ buf (dataChan st) ≡ₚ flat_map sent (fetches st);
  i_drawn : forall k g, fetches st !! k = Some g -> drawn_ok cfg k g;
  i_done : mainpc st = MDone -> closed (dataChan st) = true /\ buf (dataChan st) = []
}.

(** The statements still to run. *)
Definition fetch_weight (g : fetch_pc) : nat :=
  match g with
  | GNotStarted => 4 | GSleep => 4 | GSend _ _ => 3 | GExit _ _ => 1 | GDone _ _ => 0
  end.

Definition measure (cfg : Config) (st : state) : nat :=
  (match mainpc st with
   | MAdd k => 2 * (length (messages cfg) - k) + 2
   | MGo k => 2 * (length (messages cfg) - k) + 1
   | MRange => 1
   | MDone => 0
   end
   + wsum fetch_weight (fetches st)
   + length (buf (dataChan st))
   + match closer st with CNotStarted | CWait => 2 | CClose => 1 | CDone => 0 end)%nat.

(** The numbers drawn and the strings of the goroutines, by iteration. *)
Definition drawn (g : fetch_pc) : Z :=
  match g with GSend d _ | GExit d _ | GDone d _ => d | _ => 0 end.

(** A run: every goroutine is started, then each one sleeps, sends and
    ends, then the channel is closed and drained. *)
Definition fetch_all (ds : list Z) : list action :=
  mjoin (imap (fun k d => [AFetch k d; AFetch k d; AFetch k d]) ds).

Definition full_schedule (ds : list Z) : list action :=
  mjoin (replicate (length ds) [AMain; AMain]) ++ [AMain]
  ++ fetch_all ds ++ [ACloser; ACloser]
  ++ replicate (length ds) AMain ++ [AMain].

Definition state_after (cfg : Config) (sched : list action) : state :=
  match run cfg sched (init cfg) with
  | Step st => st
  | _ => init cfg
  end.

(** All five goroutines started, the first one about to send. *)
Definition sending_schedule : list action :=
  mjoin (replicate 5 [AMain; AMain]) ++ [AMain; AFetch 0 7].

Definition worker_pool_draws : list Z :=
  [3; 1; 4; 0; 5; 9; 2; 6; 5; 3; 5; 8; 9; 7; 999].

End AsyncFetching.

(** ** [channelDirection], [sender] and [receiver] *)

(** An unbuffered channel [ch] from [sender] to [receiver], and an
    unbuffered channel [done] from [receiver] to the main goroutine.  A
    send and its receive are one step (the rendezvous), run by the
    sending side when the other side is at its receive. *)
Module ChannelDirection.

(** [sender]: [for i := 1; i <= 5; i++ { ch <- i; Printf("Sent: ..") }; close(ch)]. *)
Inductive sender_pc : Type :=
| SNotStarted
| SLoop (i : Z)     (* the test i <= n, then ch <- i, or close(ch) *)
| SPrint (i : Z)    (* fmt.Printf("Sent: %d\n", i); i++ *)
| SDone.

(** [receiver]: [for num := range ch { Printf("Received: ..") }; done <- true]. *)
Inductive receiver_pc : Type :=
| RNotStarted
| RRecv
| RPrint (num : Z)
| RSignal           (* done <- true *)
| RDone.

Inductive main_pc : Type := MSpawn1 | MSpawn2 | MWait | MPrint | MDone.

(** The lines of output. *)
Inductive line : Type :=
| Sent (i : Z)        (* "Sent: i" *)
| Received (num : Z)  (* "Received: num" *)
| Completed.          (* "Communication completed!" *)

Definition show (l : line) : string :=
  match l with
  | Sent i => "Sent: " +:+ pretty i
  | Received num => "Received: " +:+ pretty num
  | Completed => "Communication completed!"
  end.

Record state : Type := MkState {
  sender : sender_pc;
  receiver : receiver_pc;
  mainpc : main_pc;
  closedCh : bool;
  output : list line
}.

Definition init : state := MkState SNotStarted RNotStarted MSpawn1 false [].

Inductive action : Type := AMain | ASender | AReceiver.

(** [channelDirection]; its [<-done] is completed by [receiver_step]. *)
Definition channelDirection_step (st : state) : outcome state :=
  match mainpc st with
  | MSpawn1 => Step (MkState (SLoop 1) (receiver st) MSpawn2 (closedCh st) (output st))
  | MSpawn2 => Step (MkState (sender st) RRecv MWait (closedCh st) (output st))
  | MWait => Blocked
  | MPrint =>
      Step (MkState (sender st) (receiver st) MDone (closedCh st)
                    (output st ++ [Completed]))
  | MDone => Blocked
  end.

(** [sender]; [n] is the bound of its loop (5). *)
Definition sender_step (n : Z) (st : state) : outcome state :=
  match sender st with
  | SLoop i =>
      if i <=? n
      then if closedCh st then Crash "send on closed channel"
           else match receiver st with
                | RRecv =>
                    Step (MkState (SPrint i) (RPrint i) (mainpc st) (closedCh st)
                                  (output st))
                | _ => Blocked
                end
      else if closedCh st then Crash "close of closed channel"
           else Step (MkState SDone (receiver st) (mainpc st) true (output st))
  | SPrint i =>
      Step (MkState (SLoop (int_incr i)) (receiver st) (mainpc st) (closedCh st)
                    (output st ++ [Sent i]))
  | _ => Blocked
  end.

Definition receiver_step (st : state) : outcome state :=
  match receiver st with
  | RRecv =>
      if closedCh st
      then Step (MkState (sender st) RSignal (mainpc st) (closedCh st) (output st))
      else Blocked
  | RPrint num =>
      Step (MkState (sender st) RRecv (mainpc st) (closedCh st)
                    (output st ++ [Received num]))
  | RSignal =>
      match mainpc st with
      | MWait => Step (MkState (sender st) RDone MPrint (closedCh st) (output st))
      | _ => Blocked
      end
  | _ => Blocked
  end.

Definition exec (n : Z) (a : action) (st : state) : outcome state :=
  match a with
  | AMain => channelDirection_step st
  | ASender => sender_step n st
  | AReceiver => receiver_step st
  end.

Fixpoint run (n : Z) (sched : list action) (st : state) : outcome state :=
  match sched with
  | [] => Step st
  | a :: rest =>
      match exec n a st with
      | Step st' => run n rest st'
      | Blocked => Blocked
      | Crash m => Crash m
      end
  end.

Inductive reachable (n : Z) : state -> Prop :=
| reach_init : reachable n init
| reach_step st a st' : reachable n st -> exec n a st = Step st' -> reachable n st'.

(** The numbers of the "Sent" lines and of the "Received" lines, in the
    order of the output. *)
Definition sent_of (out : list line) : list Z :=
  omap (fun l => match l with Sent i => Some i | _ => None end) out.

Definition received_of (out : list line) : list Z :=
  omap (fun l => match l with Received num => Some num | _ => None end) out.

(** The number of values that have gone through [ch]. *)
Definition handed (n : Z) (st : state) : Z :=
  match sender st with
  | SNotStarted => 0
  | SLoop i => i - 1
  | SPrint i => i
  | SDone => Z.max 0 n
  end.

(** The lines printed so far by [sender] and by [receiver]. *)
Definition sent_count (n : Z) (st : state) : Z :=
  handed n st - match sender st with SPrint _ => 1 | _ => 0 end.

Definition received_count (n : Z) (st : state) : Z :=
  handed n st - match receiver st with RPrint _ => 1 | _ => 0 end.

Record inv (n : Z) (st : state) : Prop := MkInv {
  i_sent : sent_of (output st) = seqZ 1 (sent_count n st);
  i_received : received_of (output st) = seqZ 1 (received_count n st);
  i_length : length (output st)
             = (Z.to_nat (sent_count n st) + Z.to_nat (received_count n st)
                + match mainpc st with MDone => 1 | _ => 0 end)%nat;
  i_last : mainpc st = MDone -> last (output st) = Some Completed;
  i_loop : forall i, sender st = SLoop i -> 1 <= i <= Z.max 1 (n + 1);
  i_print : forall i, sender st = SPrint i -> 1 <= i <= n;
  i_num : forall num, receiver st = RPrint num -> num = handed n st /\ 1 <= num;
  i_closed : closedCh st = true <-> sender st = SDone;
  i_signal : receiver st = RSignal \/ receiver st = RDone -> closedCh st = true;
  i_main : mainpc st = MPrint \/ mainpc st = MDone <-> receiver st = RDone;
  i_start1 : sender st = SNotStarted <-> mainpc st = MSpawn1;
  i_start2 : receiver st = RNotStarted <-> mainpc st = MSpawn1 \/ mainpc st = MSpawn2
}.

(** The statements still to run. *)
Definition measure (n : Z) (st : state) : nat :=
  (match mainpc st with
   | MSpawn1 => 3 | MSpawn2 => 2 | MWait => 1 | MPrint => 1 | MDone => 0
   end
   + match sender st with
     | SNotStarted => 3 * Z.to_nat n + 1
     | SLoop i => 3 * Z.to_nat (n + 1 - i) + 1
     | SPrint i => 3 * Z.to_nat (n + 1 - i) - 1
     | SDone => 0
     end
   + match receiver st with
     | RNotStarted | RRecv => 2
     | RPrint _ => 3
     | RSignal => 1
     | RDone => 0
     end)%nat.

(** A run in which each value is sent, reported by the sender and then by
    the receiver; and one in which the receiver reports first. *)
Definition full_schedule (n : Z) : list action :=
  [AMain; AMain]
  ++ mjoin (replicate (Z.to_nat n) [ASender; ASender; AReceiver])
  ++ [ASender; AReceiver; AReceiver; AMain].

Definition receiver_first_schedule (n : Z) : list action :=
  [AMain; AMain]
  ++ mjoin (replicate (Z.to_nat n) [ASender; AReceiver; ASender])
  ++ [ASender; AReceiver; AReceiver; AMain].

Definition state_after (n : Z) (sched : list action) : state :=
  match run n sched init with
  | Step st => st
  | _ => init
  end.

End ChannelDirection.

(** ** [waitGroupExample] and [worker] *)

Module WaitGroupExample.

(** [worker]: [defer wg.Done()], then its three statements. *)
Inductive worker_pc : Type :=
| WStart     (* fmt.Printf("Worker %d starting\n", id) *)
| WSleep     (* time.Sleep(time.Duration(id*100) * time.Millisecond) *)
| WEnd       (* fmt.Printf("Worker %d done\n", id) *)
| WExit      (* the deferred wg.Done() *)
| WDone.

Record worker : Type := MkWorker { w_id : Z; w_pc : worker_pc }.

Inductive main_pc : Type :=
| MAdd (i : Z)   (* the test i <= n, then wg.Add(1) *)
| MGo (i : Z)    (* go worker(i, &wg); i++ *)
| MWaiting       (* fmt.Println("Waiting for all workers to complete...") *)
| MWait          (* wg.Wait() *)
| MCompleted     (* fmt.Println("All workers completed!") *)
| MDone.

(** The lines of output. *)
Inductive line : Type :=
| Starting (id : Z)      (* "Worker id starting" *)
| Finished (id : Z)      (* "Worker id done" *)
| Waiting                (* "Waiting for all workers to complete..." *)
| AllCompleted.          (* "All workers completed!" *)

Definition show (l : line) : string :=
  match l with
  | Starting id => "Worker " +:+ pretty id +:+ " starting"
  | Finished id => "Worker " +:+ pretty id +:+ " done"
  | Waiting => "Waiting for all workers to complete..."
  | AllCompleted => "All workers completed!"
  end.

Record state : Type := MkState {
  workers : list worker;   (* the goroutines started so far *)
  wg : Z;
  mainpc : main_pc;
  output : list line
}.

Definition init : state := MkState [] 0 (MAdd 1) [].

Inductive action : Type := AMain | AWorker (k : nat).

(** [waitGroupExample]; [n] is the bound of its loop (5). *)
Definition waitGroupExample_step (n : Z) (st : state) : outcome state :=
  match mainpc st with
  | MAdd i =>
      if i <=? n
      then match wg_add (wg st) 1 with
           | Step c => Step (MkState (workers st) c (MGo i) (output st))
           | Blocked => Blocked
           | Crash m => Crash m
           end
      else Step (MkState (workers st) (wg st) MWaiting (output st))
  | MGo i =>
      Step (MkState (workers st ++ [MkWorker i WStart]) (wg st) (MAdd (int_incr i))
                    (output st))
  | MWaiting => Step (MkState (workers st) (wg st) MWait (output st ++ [Waiting]))
  | MWait =>
      match wg_wait (wg st) with
      | Step _ => Step (MkState (workers st) (wg st) MCompleted (output st))
      | Blocked => Blocked
      | Crash m => Crash m
      end
  | MCompleted =>
      Step (MkState (workers st) (wg st) MDone (output st ++ [AllCompleted]))
  | MDone => Blocked
  end.

(** [worker], for the goroutine started as number [k]. *)
Definition worker_step (k : nat) (st : state) : outcome state :=
  match workers st !! k with
  | Some (MkWorker id WStart) =>
      Step (MkState (<[k := MkWorker id WSleep]> (workers st)) (wg st) (mainpc st)
                    (output st ++ [Starting id]))
  | Some (MkWorker id WSleep) =>
      Step (MkState (<[k := MkWorker id WEnd]> (workers st)) (wg st) (mainpc st)
                    (output st))
  | Some (MkWorker id WEnd) =>
      Step (MkState (<[k := MkWorker id WExit]> (workers st)) (wg st) (mainpc st)
                    (output st ++ [Finished id]))
  | Some (MkWorker id WExit) =>
      match wg_done (wg st) with
      | Step c =>
          Step (MkState (<[k := MkWorker id WDone]> (workers st)) c (mainpc st)
                        (output st))
      | Blocked => Blocked
      | Crash m => Crash m
      end
  | _ => Blocked
  end.

Definition exec (n : Z) (a : action) (st : state) : outcome state :=
  match a with
  | AMain => waitGroupExample_step n st
  | AWorker k => worker_step k st
  end.

Fixpoint run (n : Z) (sched : list action) (st : state) : outcome state :=
  match sched with
  | [] => Step st
  | a :: rest =>
      match exec n a st with
      | Step st' => run n rest st'
      | Blocked => Blocked
      | Crash m => Crash m
      end
  end.

Inductive reachable (n : Z) : state -> Prop :=
| reach_init : reachable n init
| reach_step st a st' : reachable n st -> exec n a st = Step st' -> reachable n st'.

(** The lines about worker [id], in the order of the output. *)
Definition about (id : Z) (l : line) : bool :=
  match l with
  | Starting i | Finished i => i =? id
  | _ => false
  end.

Definition lines_of (id : Z) (out : list line) : list line := List.filter (about id) out.

(** What a worker has printed. *)
Definition reported (w : worker) : list line :=
  match w_pc w with
  | WStart => []
  | WSleep | WEnd => [Starting (w_id w)]
  | WExit | WDone => [Starting (w_id w); Finished (w_id w)]
  end.

(** Workers that have not yet run their [wg.Done()]. *)
Definition live (w : worker) : nat :=
  match w_pc w with WDone => 0 | _ => 1 end.

Definition adding (st : state) : Z :=
  match mainpc st with MGo _ => 1 | _ => 0 end.

(** The lines of the main goroutine. *)
Definition main_lines (st : state) : nat :=
  match mainpc st with
  | MAdd _ | MGo _ | MWaiting => 0
  | MWait | MCompleted => 1
  | MDone => 2
  end.

Record inv (n : Z) (st : state) : Prop := MkInv {
  i_ids : forall k w, workers st !! k = Some w -> w_id w = Z.of_nat k + 1;
  i_add : forall i, mainpc st = MAdd i ->
          i = Z.of_nat (length (workers st)) + 1 /\ i <= Z.max 1 (n + 1);
  i_go : forall i, mainpc st = MGo i ->
         i = Z.of_nat (length (workers st)) + 1 /\ i <= n;
  i_all : (forall i, mainpc st <> MAdd i) -> (forall i, mainpc st <> MGo i) ->
          Z.of_nat (length (workers st)) = Z.max 0 n;
  i_wg : wg st = Z.of_nat (wsum live (workers st)) + adding st;
  i_wait : mainpc st = MCompleted \/ mainpc st = MDone ->
           wsum live (workers st) = 0%nat;
  i_lines : forall k w, workers st !! k = Some w ->
            lines_of (w_id w) (output st) = reported w;
  i_none : forall id, Z.of_nat (length (workers st)) < id \/ id < 1 ->
           lines_of id (output st) = [];
  i_length : length (output st)
             = (wsum (fun w => length (reported w)) (workers st) + main_lines st)%nat;
  i_last : mainpc st = MDone -> last (output st) = Some AllCompleted
}.

(** The statements still to run. *)
Definition worker_weight (w : worker) : nat :=
  match w_pc w with
  | WStart => 4 | WSleep => 3 | WEnd => 2 | WExit => 1 | WDone => 0
  end.

Definition measure (n : Z) (st : state) : nat :=
  (match mainpc st with
   | MAdd i => 6 * Z.to_nat (n + 1 - i) + 4
   | MGo i => 6 * Z.to_nat (n + 1 - i) + 3
   | MWaiting => 3
   | MWait => 2
   | MCompleted => 1
   | MDone => 0
   end
   + wsum worker_weight (workers st))%nat.

(** A run in which all workers are started, then run one after the other
    from the last to the first. *)
Definition full_schedule (n : nat) : list action :=
  mjoin (replicate n [AMain; AMain]) ++ [AMain; AMain]
  ++ mjoin ((fun k => replicate 4 (AWorker k)) <$> rev (seq 0 n))
  ++ [AMain; AMain].

Definition state_after (n : Z) (sched : list action) : state :=
  match run n sched init with
  | Step st => st
  | _ => init
  end.

End WaitGroupExample.

(** ** [selectExample] and [demonstrateSelect] *)

(** Two goroutines that sleep and then send one message each on their
    own unbuffered channel, and a loop whose [select] receives from
    either channel or takes the timeout.  No assumption is made on the
    speed of the goroutines or of the clock: a sleeping goroutine can wake
    up at any moment, and the timer of [time.After] can have fired
    whenever the [select] runs. *)
Module SelectDemo.

Inductive sender_pc : Type :=
| GNotStarted
| GSleep      (* time.Sleep(...) *)
| GSend       (* ch <- "Message ..." *)
| GDone.

Inductive main_pc : Type :=
| MSpawn1
| MSpawn2
| MSelect (i : Z)    (* the test i < rounds, then the select *)
| MDone.

(** The lines of output; both receive cases print "Received: <msg>". *)
Inductive line : Type :=
| Received1 (msg1 : string)
| Received2 (msg2 : string)
| Timeout.

Definition show (l : line) : string :=
  match l with
  | Received1 msg | Received2 msg => "Received: " +:+ msg
  | Timeout => "Timeout!"
  end.

Record Config : Type := MkConfig {
  message1 : string;
  message2 : string;
  rounds : Z            (* the bound of the loop, 2 *)
}.

Definition selectExample_config : Config :=
  MkConfig "Message from channel 1" "Message from channel 2" 2.

Definition demonstrateSelect_config : Config :=
  MkConfig "Message from Channel 1" "Message from Channel 2" 2.

Record state : Type := MkState {
  sender1 : sender_pc;
  sender2 : sender_pc;
  mainpc : main_pc;
  output : list line
}.

Definition init : state := MkState GNotStarted GNotStarted MSpawn1 [].

Inductive action : Type :=
| AMain       (* a [go] statement, or the end of the loop *)
| ASender1    (* the first goroutine wakes up *)
| ASender2
| ACase1      (* case msg1 := <-ch1, with the send of the first goroutine *)
| ACase2
| ATimeout.   (* case <-time.After(...) *)

Definition selectExample_step (cfg : Config) (st : state) : outcome state :=
  match mainpc st with
  | MSpawn1 => Step (MkState GSleep (sender2 st) MSpawn2 (output st))
  | MSpawn2 => Step (MkState (sender1 st) GSleep (MSelect 0) (output st))
  | MSelect i =>
      if i <? rounds cfg then Blocked
      else Step (MkState (sender1 st) (sender2 st) MDone (output st))
  | MDone => Blocked
  end.

(** One case of the [select] of iteration [i]. *)
Definition select_case (cfg : Config) (a : action) (st : state) : outcome state :=
  match mainpc st with
  | MSelect i =>
      if i <? rounds cfg
      then match a, sender1 st, sender2 st with
           | ACase1, GSend, _ =>
               Step (MkState GDone (sender2 st) (MSelect (int_incr i))
                             (output st ++ [Received1 (message1 cfg)]))
           | ACase2, _, GSend =>
               Step (MkState (sender1 st) GDone (MSelect (int_incr i))
                             (output st ++ [Received2 (message2 cfg)]))
           | ATimeout, _, _ =>
               Step (MkState (sender1 st) (sender2 st) (MSelect (int_incr i))
                             (output st ++ [Timeout]))
           | _, _, _ => Blocked
           end
      else Blocked
  | _ => Blocked
  end.

(** The end of a goroutine's sleep; its send is completed by the
    receiving [select]. *)
Definition wake (g : sender_pc) : option sender_pc :=
  match g with GSleep => Some GSend | _ => None end.

Definition exec (cfg : Config) (a : action) (st : state) : outcome state :=
  match a with
  | AMain => selectExample_step cfg st
  | ASender1 =>
      match wake (sender1 st) with
      | Some g => Step (MkState g (sender2 st) (mainpc st) (output st))
      | None => Blocked
      end
  | ASender2 =>
      match wake (sender2 st) with
      | Some g => Step (MkState (sender1 st) g (mainpc st) (output st))
      | None => Blocked
      end
  | ACase1 | ACase2 | ATimeout => select_case cfg a st
  end.

Fixpoint run (cfg : Config) (sched : list action) (st : state) : outcome state :=
  match sched with
  | [] => Step st
  | a :: rest =>
      match exec cfg a st with
      | Step st' => run cfg rest st'
      | Blocked => Blocked
      | Crash m => Crash m
      end
  end.

Inductive reachable (cfg : Config) : state -> Prop :=
| reach_init : reachable cfg init
| reach_step st a st' :
    reachable cfg st -> exec cfg a st = Step st' -> reachable cfg st'.

(** How often each case of the [select] has printed. *)
Definition count1 (out : list line) : nat :=
  wsum (fun l => match l with Received1 _ => 1 | _ => 0 end)%nat out.

Definition count2 (out : list line) : nat :=
  wsum (fun l => match l with Received2 _ => 1 | _ => 0 end)%nat out.

Definition timeouts (out : list line) : nat :=
  wsum (fun l => match l with Timeout => 1 | _ => 0 end)%nat out.

Definition delivered (g : sender_pc) : nat :=
  match g with GDone => 1 | _ => 0 end.

Definition line_ok (cfg : Config) (l : line) : Prop :=
  match l with
  | Received1 msg => msg = message1 cfg
  | Received2 msg => msg = message2 cfg
  | Timeout => True
  end.

(** The iterations of the loop that are over. *)
Definition iterations (cfg : Config) (st : state) : Z :=
  match mainpc st with
  | MSpawn1 | MSpawn2 => 0
  | MSelect i => i
  | MDone => Z.max 0 (rounds cfg)
  end.

Record inv (cfg : Config) (st : state) : Prop := MkInv {
  i_count1 : count1 (output st) = delivered (sender1 st);
  i_count2 : count2 (output st) = delivered (sender2 st);
  i_lines : Forall (line_ok cfg) (output st);
  i_length : Z.of_nat (length (output st)) = iterations cfg st;
  i_total : (length (output st)
             = count1 (output st) + count2 (output st) + timeouts (output st))%nat;
  i_loop : forall i, mainpc st = MSelect i -> 0 <= i <= Z.max 0 (rounds cfg);
  i_start1 : sender1 st = GNotStarted <-> mainpc st = MSpawn1;
  i_start2 : sender2 st = GNotStarted <-> mainpc st = MSpawn1 \/ mainpc st = MSpawn2
}.

(** The statements still to run. *)
Definition sender_weight (g : sender_pc) : nat :=
  match g with GNotStarted | GSleep => 1 | _ => 0 end.

Definition measure (cfg : Config) (st : state) : nat :=
  (match mainpc st with
   | MSpawn1 => Z.to_nat (rounds cfg) + 3
   | MSpawn2 => Z.to_nat (rounds cfg) + 2
   | MSelect i => Z.to_nat (rounds cfg - i) + 1
   | MDone => 0
   end
   + sender_weight (sender1 st) + sender_weight (sender2 st))%nat.

(** Both messages arrive, the second goroutine first; and a run in which
    the timer fires both times before any goroutine has woken up. *)
Definition both_schedule : list action :=
  [AMain; AMain; ASender2; ACase2; ASender1; ACase1; AMain].

Definition timeout_schedule : list action :=
  [AMain; AMain; ATimeout; ATimeout; AMain; ASender1; ASender2].

Definition state_after (cfg : Config) (sched : list action) : state :=
  match run cfg sched init with
  | Step st => st
  | _ => init
  end.

End SelectDemo.

(** ** [bufferedChannel] *)

(** One goroutine sends its values into a buffered channel and then
    receives as many; the source does so for the values 1, 2, 3 and a
    capacity of 3.  A send that finds the buffer full blocks, and as no
    other goroutine exists it blocks for good. *)
Module BufferedChannel.

(** [ch <- v] for each value in turn. *)
Fixpoint send_all (ch : chan Z) (values : list Z) : outcome (chan Z) :=
  match values with
  | [] => Step ch
  | v :: rest =>
      match chan_send ch v with
      | Step ch' => send_all ch' rest
      | Blocked => Blocked
      | Crash m => Crash m
      end
  end.

(** [fmt.Println("Received:", <-ch)], [k] times; the result is the list
    of the values printed.  A receive from a closed and empty channel
    gives the zero value. *)
Fixpoint receive (ch : chan Z) (k : nat) : outcome (list Z) :=
  match k with
  | O => Step []
  | S k' =>
      match chan_recv ch with
      | RecvOk x ch' =>
          match receive ch' k' with
          | Step l => Step (x :: l)
          | Blocked => Blocked
          | Crash m => Crash m
          end
      | RecvClosed =>
          match receive ch k' with
          | Step l => Step (0 :: l)
          | Blocked => Blocked
          | Crash m => Crash m
          end
      | RecvBlocked => Blocked
      end
  end.

Definition bufferedChannel (capacity : nat) (values : list Z) : outcome (list Z) :=
  match send_all (make_chan capacity) values with
  | Step ch => receive ch (length values)
  | Blocked => Blocked
  | Crash m => Crash m
  end.

End BufferedChannel.

(** ** [pipelineExample] and [processor] *)

Module PipelineExample.

(** [processor]: [defer wg.Done()], then the [range] over [jobs]. *)
Inductive processor_pc : Type :=
| PRecv                (* for job := range jobs *)
| PPrint (job : Z)     (* fmt.Printf("Worker %d processing job %d\n", id, job); time.Sleep(...) *)
| PSend (job : Z)      (* results <- job * 2 *)
| PExit                (* the deferred wg.Done() *)
| PDone.

Record processor_state : Type := MkProcessor { p_id : Z; p_pc : processor_pc }.

Inductive closer_pc : Type := CNotStarted | CWait | CClose | CDone.

Inductive main_pc : Type :=
| MAdd (w : Z)      (* the test w <= workers, then wg.Add(1) *)
| MGo (w : Z)       (* go processor(w, jobs, results, &wg); w++ *)
| MSend (j : Z)     (* the test j <= numJobs, then jobs <- j, or close(jobs) *)
| MSpawnCloser      (* go func() { wg.Wait(); close(results) }() *)
| MHeader           (* fmt.Println("\nResults:") *)
| MRange            (* for result := range results { fmt.Printf(...) } *)
| MDone.

(** The lines of output. *)
Inductive line : Type :=
| Processing (id job : Z)   (* "Worker id processing job job" *)
| Header                    (* fmt.Println("\nResults:") *)
| Result (result : Z).      (* "Result: result" *)

Definition show (l : line) : string :=
  match l with
  | Processing id job => "Worker " +:+ pretty id +:+ " processing job " +:+ pretty job
  | Header => String (Ascii.ascii_of_nat 10) "Results:"   (* with the line feed *)
  | Result result => "Result: " +:+ pretty result
  end.

(** [workers] is the bound of the first loop (3), [numJobs] that of the
    second (10); both channels are made with [capacity] = [numJobs]. *)
Record Config : Type := MkConfig {
  workers : Z;
  numJobs : Z;
  capacity : nat
}.

Definition demo_config : Config := MkConfig 3 10 10.

Record state : Type := MkState {
  processors : list processor_state;   (* the goroutines started so far *)
  wg : Z;
  jobs : chan Z;
  results : chan Z;
  closer : closer_pc;
  mainpc : main_pc;
  output : list line
}.

Definition init (cfg : Config) : state :=
  MkState [] 0 (make_chan (capacity cfg)) (make_chan (capacity cfg)) CNotStarted
          (MAdd 1) [].

(** [job * 2] on [int]. *)
Definition double (job : Z) : Z := int_wrap (job * 2).

Definition set_main (m : main_pc) (st : state) : state :=
  MkState (processors st) (wg st) (jobs st) (results st) (closer st) m (output st).

Definition set_wg (n : Z) (st : state) : state :=
  MkState (processors st) n (jobs st) (results st) (closer st) (mainpc st) (output st).

Definition set_jobs (c : chan Z) (st : state) : state :=
  MkState (processors st) (wg st) c (results st) (closer st) (mainpc st) (output st).

Definition set_results (c : chan Z) (st : state) : state :=
  MkState (processors st) (wg st) (jobs st) c (closer st) (mainpc st) (output st).

Definition set_closer (c : closer_pc) (st : state) : state :=
  MkState (processors st) (wg st) (jobs st) (results st) c (mainpc st) (output st).

Definition set_processors (ps : list processor_state) (st : state) : state :=
  MkState ps (wg st) (jobs st) (results st) (closer st) (mainpc st) (output st).

Definition print (l : line) (st : state) : state :=
  MkState (processors st) (wg st) (jobs st) (results st) (closer st) (mainpc st)
          (output st ++ [l]).

Inductive action : Type := AMain | AProcessor (k : nat) | ACloser.

Definition pipelineExample_step (cfg : Config) (st : state) : outcome state :=
  match mainpc st with
  | MAdd w =>
      if w <=? workers cfg
      then match wg_add (wg st) 1 with
           | Step n => Step (set_main (MGo w) (set_wg n st))
           | Blocked => Blocked
           | Crash m => Crash m
           end
      else Step (set_main (MSend 1) st)
  | MGo w =>
      Step (set_main (MAdd (int_incr w))
              (set_processors (processors st ++ [MkProcessor w PRecv]) st))
  | MSend j =>
      if j <=? numJobs cfg
      then match chan_send (jobs st) j with
           | Step c => Step (set_main (MSend (int_incr j)) (set_jobs c st))
           | Blocked => Blocked
           | Crash m => Crash m
           end
      else match chan_close (jobs st) with
           | Step c => Step (set_main MSpawnCloser (set_jobs c st))
           | Blocked => Blocked
           | Crash m => Crash m
           end
  | MSpawnCloser => Step (set_main MHeader (set_closer CWait st))
  | MHeader => Step (set_main MRange (print Header st))
  | MRange =>
      match chan_recv (results st) with
      | RecvOk result c => Step (print (Result result) (set_results c st))
      | RecvClosed => Step (set_main MDone st)
      | RecvBlocked => Blocked
      end
  | MDone => Blocked
  end.

Definition set_processor (k : nat) (p : processor_state) (st : state) : state :=
  set_processors (<[k := p]> (processors st)) st.

Definition processor_step (k : nat) (st : state) : outcome state :=
  match processors st !! k with
  | Some (MkProcessor id PRecv) =>
      match chan_recv (jobs st) with
      | RecvOk job c =>
          Step (set_processor k (MkProcessor id (PPrint job)) (set_jobs c st))
      | RecvClosed => Step (set_processor k (MkProcessor id PExit) st)
      | RecvBlocked => Blocked
      end
  | Some (MkProcessor id (PPrint job)) =>
      Step (set_processor k (MkProcessor id (PSend job)) (print (Processing id job) st))
  | Some (MkProcessor id (PSend job)) =>
      match chan_send (results st) (double job) with
      | Step c => Step (set_processor k (MkProcessor id PRecv) (set_results c st))
      | Blocked => Blocked
      | Crash m => Crash m
      end
  | Some (MkProcessor id PExit) =>
      match wg_done (wg st) with
      | Step n => Step (set_processor k (MkProcessor id PDone) (set_wg n st))
      | Blocked => Blocked
      | Crash m => Crash m
      end
  | _ => Blocked
  end.

Definition closer_step (st : state) : outcome state :=
  match closer st with
  | CWait =>
      match wg_wait (wg st) with
      | Step _ => Step (set_closer CClose st)
      | Blocked => Blocked
      | Crash m => Crash m
      end
  | CClose =>
      match chan_close (results st) with
      | Step c => Step (set_closer CDone (set_results c st))
      | Blocked => Blocked
      | Crash m => Crash m
      end
  | _ => Blocked
  end.

Definition exec (cfg : Config) (a : action) (st : state) : outcome state :=
  match a with
  | AMain => pipelineExample_step cfg st
  | AProcessor k => processor_step k st
  | ACloser => closer_step st
  end.

Fixpoint run (cfg : Config) (sched : list action) (st : state) : outcome state :=
  match sched with
  | [] => Step st
  | a :: rest =>
      match exec cfg a st with
      | Step st' => run cfg rest st'
      | Blocked => Blocked
      | Crash m => Crash m
      end
  end.

Inductive reachable (cfg : Config) : state -> Prop :=
| reach_init : reachable cfg (init cfg)
| reach_step st a st' :
    reachable cfg st -> exec cfg a st = Step st' -> reachable cfg st'.

(** The results and the jobs of the lines of the output, in its order. *)
Definition results_of (out : list line) : list Z :=
  omap (fun l => match l with Result result => Some result | _ => None end) out.

Definition processed_of (out : list line) : list Z :=
  omap (fun l => match l with Processing _ job => Some job | _ => None end) out.

(** The result of the job a processor holds, and of the job it has
    reported and not yet sent. *)
Definition held (p : processor_state) : list Z :=
  match p_pc p with PPrint job | PSend job => [double job] | _ => [] end.

Definition reported (p : processor_state) : list Z :=
  match p_pc p with PSend job => [double job] | _ => [] end.

Definition live (p : processor_state) : nat :=
  match p_pc p with PDone => 0 | _ => 1 end.

Definition leaving (p : processor_state) : nat :=
  match p_pc p with PExit | PDone => 1 | _ => 0 end.

Definition adding (st : state) : Z :=
  match mainpc st with MGo _ => 1 | _ => 0 end.

(** The number of jobs the main goroutine has sent. *)
Definition sent_jobs (cfg : Config) (st : state) : Z :=
  match mainpc st with
  | MAdd _ | MGo _ => 0
  | MSend j => j - 1
  | _ => Z.max 0 (numJobs cfg)
  end.

Definition spawning (st : state) : bool :=
  match mainpc st with MAdd _ | MGo _ => true | _ => false end.

(** The main goroutine is past [close(jobs)]. *)
Definition jobs_closed (st : state) : bool :=
  match mainpc st with MAdd _ | MGo _ | MSend _ => false | _ => true end.

(** The closing goroutine has been started. *)
Definition closer_started (st : state) : bool :=
  match mainpc st with MHeader | MRange | MDone => true | _ => false end.

(** The job a processor has received and not yet reported. *)
Definition received (p : processor_state) : list Z :=
  match p_pc p with PPrint job => [job] | _ => [] end.

Definition line_ok (cfg : Config) (l : line) : Prop :=
  match l with
  | Processing id _ => 1 <= id <= workers cfg
  | _ => True
  end.

Record inv (cfg : Config) (st : state) : Prop := MkInv {
  i_ids : Forall (fun p => 1 <= p_id p <= workers cfg) (processors st);
  i_add : forall w, mainpc st = MAdd w ->
          w = Z.of_nat (length (processors st)) + 1 /\ w <= Z.max 1 (workers cfg + 1);
  i_go : forall w, mainpc st = MGo w ->
         w = Z.of_nat (length (processors st)) + 1 /\ w <= workers cfg;
  i_all : spawning st = false ->
          Z.of_nat (length (processors st)) = Z.max 0 (workers cfg);
  i_send : forall j, mainpc st = MSend j -> 1 <= j <= Z.max 1 (numJobs cfg + 1);
  i_wg : wg st = Z.of_nat (wsum live (processors st)) + adding st;
  i_jobs_closed : closed (jobs st) = jobs_closed st;
  i_jobs_cap : cap (jobs st) = capacity cfg;
  i_results_cap : cap (results st) = capacity cfg;
  i_start : closer st = CNotStarted <-> closer_started st = false;
  i_closed : closed (results st) = true <-> closer st = CDone;
  i_close : closer st = CClose \/ closer st = CDone ->
            wsum live (processors st) = 0%nat;
  i_leaving : (0 < wsum leaving (processors st))%nat ->
              closed (jobs st) = true /\ buf (jobs st) = [];
  i_jobs : double <$> seqZ 1 (sent_jobs cfg st)
           ≡ₚ (double <$> buf (jobs st)) ++ flat_map held (processors st)
              ++ buf (results st) ++ results_of (output st);
  i_received : seqZ 1 (sent_jobs cfg st)
               ≡ₚ buf (jobs st) ++ flat_map received (processors st)
                  ++ processed_of (output st);
  i_processed : double <$> processed_of (output st)
                ≡ₚ flat_map reported (processors st)
                   ++ buf (results st) ++ results_of (output st);
  i_lines : Forall (line_ok cfg) (output st);
  i_done : mainpc st = MDone ->
           closed (results st) = true /\ buf (results st) = []
}.

(** [numJobs] and [workers] are not at the end of [int], and the channels
    have room for all jobs. *)
Definition fits (cfg : Config) : Prop :=
  numJobs cfg < 2 ^ 63 - 1 /\ workers cfg < 2 ^ 63 - 1
  /\ (Z.to_nat (numJobs cfg) <= capacity cfg)%nat.

(** The statements still to run. *)
Definition processor_weight (p : processor_state) : nat :=
  match p_pc p with
  | PRecv => 2 | PPrint _ => 5 | PSend _ => 4 | PExit => 1 | PDone => 0
  end.

Definition measure (cfg : Config) (st : state) : nat :=
  (match mainpc st with
   | MAdd w => 4 * Z.to_nat (workers cfg + 1 - w) + 5 * Z.to_nat (numJobs cfg) + 6
   | MGo w => 4 * Z.to_nat (workers cfg + 1 - w) + 5 * Z.to_nat (numJobs cfg) + 5
   | MSend j => 5 * Z.to_nat (numJobs cfg + 1 - j) + 5
   | MSpawnCloser => 3
   | MHeader => 2
   | MRange => 1
   | MDone => 0
   end
   + wsum processor_weight (processors st)
   + 4 * length (buf (jobs st))
   + length (buf (results st))
   + match closer st with CNotStarted | CWait => 2 | CClose => 1 | CDone => 0 end)%nat.

(** A run in which the first processor does all the jobs. *)
Definition full_schedule (cfg : Config) : list action :=
  mjoin (replicate (Z.to_nat (workers cfg)) [AMain; AMain]) ++ [AMain]
  ++ replicate (Z.to_nat (numJobs cfg)) AMain ++ [AMain; AMain; AMain]
  ++ mjoin (replicate (Z.to_nat (numJobs cfg))
              [AProcessor 0; AProcessor 0; AProcessor 0; AMain])
  ++ mjoin ((fun k => [AProcessor k; AProcessor k]) <$> seq 0 (Z.to_nat (workers cfg)))
  ++ [ACloser; ACloser; AMain].

(** The processors started and one job sent; the first processor has
    received and reported it and is about to send its result. *)
Definition sending_schedule : list action :=
  [AMain; AMain; AMain; AMain; AMain; AMain; AMain; AMain; AProcessor 0; AProcessor 0].

Definition state_after (cfg : Config) (sched : list action) : state :=
  match run cfg sched (init cfg) with
  | Step st => st
  | _ => init cfg
  end.

End PipelineExample.

(** ** [processingWorker] as a function of its arguments

    In [demonstrateIntegrated] the queue of the workers only holds the
    responses that stage 1 got from [fetchWithTimeout], which are not nil,
    and the pipeline semantics above carries the records themselves.  The
    parameter [jobs] of [processingWorker] is a channel of pointers,
    though.  Here the function is taken by itself, with the types of its
    parameters: an item of the queue is a pointer, [None] for nil. *)
Module ProcessingWorker.

Inductive worker_pc : Type :=
| WRecv                               (* for job := range jobs *)
| WHave (job : option APIResponse)    (* sleeping, building the result *)
| WSend (result : ProcessedData)      (* at results <- result *)
| WExit                               (* the range ended: the deferred wg.Done() *)
| WDone.

Record state : Type := MkState {
  pc : worker_pc;
  jobs : chan (option APIResponse);
  results : chan ProcessedData;
  stats : Stats;
  wg : Z
}.

(** [job.Data] and [job.Source] dereference the pointer: on nil the run
    time panics, which ends the program (nothing recovers). *)
Definition processingWorker_step (id : Z) (st : state) : outcome state :=
  match pc st with
  | WRecv =>
      match chan_recv (jobs st) with
      | RecvOk job c => Step (MkState (WHave job) c (results st) (stats st) (wg st))
      | RecvClosed => Step (MkState WExit (jobs st) (results st) (stats st) (wg st))
      | RecvBlocked => Blocked
      end
  | WHave None => Crash "invalid memory address or nil pointer dereference"
  | WHave (Some job) =>
      Step (MkState (WSend (transform id job)) (jobs st) (results st)
                    (IncrementProcessed (stats st)) (wg st))
  | WSend result =>
      match chan_send (results st) result with
      | Step c => Step (MkState WRecv (jobs st) c (stats st) (wg st))
      | Blocked => Blocked
      | Crash m => Crash m
      end
  | WExit =>
      match wg_done (wg st) with
      | Step n => Step (MkState WDone (jobs st) (results st) (stats st) n)
      | Blocked => Blocked
      | Crash m => Crash m
      end
  | WDone => Blocked
  end.

(** The next [n] statements of the worker. *)
Fixpoint run (id : Z) (n : nat) (st : state) : outcome state :=
  match n with
  | O => Step st
  | S n' =>
      match processingWorker_step id st with
      | Step st' => run id n' st'
      | Blocked => Blocked
      | Crash m => Crash m
      end
  end.




End ProcessingWorker.

(** A worker of the pipeline semantics, seen as a call of the function:
    the items of its queue are pointers that are not nil. *)
Definition worker_pc_view (p : worker_pc) : ProcessingWorker.worker_pc :=
  match p with
  | WRecv => ProcessingWorker.WRecv
  | WHave job => ProcessingWorker.WHave (Some job)
  | WSend result => ProcessingWorker.WSend result
  | WExit => ProcessingWorker.WExit
  | WDone => ProcessingWorker.WDone
  end.

Definition worker_view (wk : worker) (st : state) : ProcessingWorker.state :=
  ProcessingWorker.MkState
    (worker_pc_view (w_pc wk))
    (MkChan (Some <$> buf (fetchedData st)) (cap (fetchedData st))
            (closed (fetchedData st)))
    (processedData st) (stats st) (processWg st).

(** * Proofs *)

(** ** Arithmetic and counting lemmas *)

Lemma int_incr_small (x : Z) : 0 <= x < 2 ^ 63 - 1 -> int_incr x = x + 1.
Proof.
  intros H. unfold int_incr, int_wrap.
  rewrite Z.mod_small; lia.
Qed.

Section Wsum.
Context {A : Type} (g : A -> nat).

Lemma wsum_app (l1 l2 : list A) : wsum g (l1 ++ l2) = (wsum g l1 + wsum g l2)%nat.
Proof. induction l1 as [|x l1 IH]; simpl; [done | rewrite IH; lia]. Qed.

Lemma wsum_snoc (l : list A) (x : A) : wsum g (l ++ [x]) = (wsum g l + g x)%nat.
Proof. rewrite wsum_app. simpl. lia. Qed.

Lemma wsum_insert (l : list A) (i : nat) (x y : A) :
  l !! i = Some x -> (wsum g (<[i:=y]> l) + g x = wsum g l + g y)%nat.
Proof.
  revert i. induction l as [|z l IH]; intros [|i] H; simpl in *; try done.
  - injection H as ->. lia.
  - specialize (IH i H). lia.
Qed.

Lemma wsum_lookup_le (l : list A) (i : nat) (x : A) :
  l !! i = Some x -> (g x <= wsum g l)%nat.
Proof.
  revert i. induction l as [|z l IH]; intros [|i] H; simpl in *; try done.
  - injection H as ->. lia.
  - specialize (IH i H). lia.
Qed.

Lemma wsum_lookup_le2 (l : list A) (i j : nat) (x y : A) :
  i <> j -> l !! i = Some x -> l !! j = Some y -> (g x + g y <= wsum g l)%nat.
Proof.
  revert i j. induction l as [|z l IH]; intros [|i] [|j] Hne Hi Hj; simpl in *; try done.
  - injection Hi as ->. pose proof (wsum_lookup_le l j y Hj). lia.
  - injection Hj as ->. pose proof (wsum_lookup_le l i x Hi). lia.
  - assert (i <> j) as Hne' by congruence.
    specialize (IH i j Hne' Hi Hj). lia.
Qed.

Lemma wsum_pos_lookup (l : list A) :
  (0 < wsum g l)%nat -> exists i x, l !! i = Some x /\ (0 < g x)%nat.
Proof.
  induction l as [|z l IH]; simpl; [lia |].
  intros H. destruct (Nat.eq_dec (g z) 0%nat) as [Hz | Hz].
  - destruct IH as (i & x & Hi & Hx); [lia |]. by exists (S i), x.
  - exists 0%nat, z. split; [done | lia].
Qed.

Lemma wsum_le_length (l : list A) :
  (forall x, (g x <= 1)%nat) -> (wsum g l <= length l)%nat.
Proof.
  intros Hg. induction l as [|z l IH]; simpl; [lia |]. specialize (Hg z). lia.
Qed.
End Wsum.

Lemma flat_map_snoc {A B : Type} (g : A -> list B) (l : list A) (x : A) :
  flat_map g (l ++ [x]) = flat_map g l ++ g x.
Proof. rewrite flat_map_app. simpl. by rewrite app_nil_r. Qed.

Lemma flat_map_insert_perm {A B : Type} (g : A -> list B) (l : list A) (i : nat) (x y : A) :
  l !! i = Some x -> g x ++ flat_map g (<[i:=y]> l) ≡ₚ g y ++ flat_map g l.
Proof.
  revert i. induction l as [|z l IH]; intros [|i] H; simpl in *; try done.
  - injection H as ->. solve_Permutation.
  - specialize (IH i H).
    rewrite (Permutation_app_swap_app (g x) (g z)), IH. solve_Permutation.
Qed.

(** An update that leaves the held sources alone. *)
Lemma flat_map_insert_same {A B : Type} (g : A -> list B) (l : list A) (i : nat) (x y : A) :
  l !! i = Some x -> g y = g x -> flat_map g (<[i:=y]> l) = flat_map g l.
Proof.
  revert i. induction l as [|z l IH]; intros [|i] H E; simpl in *; try done.
  - injection H as ->. by rewrite E.
  - by rewrite (IH i H E).
Qed.

(** ** [fetchWithTimeout]: the invariant of one call *)

Lemma fetch_init_inv (source : string) : fetch_inv (fetch_init source).
Proof.
  split; simpl; try done.
  intros r Hr. by apply elem_of_nil in Hr.
Qed.

Ltac fetch_cases H :=
  unfold fetchWithTimeout_step, chan_send, chan_recv, set_pc, set_timer, set_response,
    set_inner in H;
  simpl in H;
  repeat (case_match; simplify_eq; try done).

Ltac destruct_fetch fc :=
  destruct fc as [? [? ? ?] [? ? ?] [? ? ?] ? ? ?]; simpl in *.

Lemma fetch_step_source a fc s fc' s' :
  fetchWithTimeout_step a fc s = Step (fc', s') -> fc_source fc' = fc_source fc.
Proof. intros H. destruct_fetch fc. destruct a; fetch_cases H. Qed.

Lemma fetch_step_inv a fc s fc' s' :
  fetch_inv fc -> fetchWithTimeout_step a fc s = Step (fc', s') -> fetch_inv fc'.
Proof.
  intros [] H. destruct_fetch fc.
  destruct a; fetch_cases H; split; simpl in *; try done; try congruence; eauto.
  all: try (intros r' [Hr | ->%list_elem_of_singleton]%elem_of_app; by eauto).
  all: try (intros Hne; by specialize (fi_resp_empty0 Hne)).
  all: try (intros Hf; by specialize (fi_timer_empty0 Hf)).
  - intros _ _. by rewrite fi_timer_empty0.
  - intros r' Hr. apply fi_resp_src0. by right.
  - apply fi_resp_src0. by left.
Qed.

Lemma fetch_step_no_crash a fc s m :
  fetch_inv fc -> fetchWithTimeout_step a fc s <> Crash m.
Proof.
  intros [] H. destruct_fetch fc. destruct a; fetch_cases H.
Qed.

(** A statement of a call either leaves the statistics alone, or it is the
    return of a response and increments [totalFetched], or it is the return
    of an error and increments [errors]. *)
Lemma fetch_step_stats a fc s fc' s' p :
  fetchWithTimeout_step a fc s = Step (fc', s') ->
  (s' = s /\ fc_pc fc' = fc_pc fc)
  \/ (s' = s /\ returned fc = false /\ returned fc' = false)
  \/ (s' = IncrementFetched s
      /\ f_ok (MkFetcher fc p) = 0%nat /\ f_err (MkFetcher fc p) = 0%nat
      /\ f_ok (MkFetcher fc' p) = 1%nat /\ f_err (MkFetcher fc' p) = 0%nat)
  \/ (s' = IncrementErrors s
      /\ f_ok (MkFetcher fc p) = 0%nat /\ f_err (MkFetcher fc p) = 0%nat
      /\ f_ok (MkFetcher fc' p) = 0%nat /\ f_err (MkFetcher fc' p) = 1%nat).
Proof.
  intros H. destruct_fetch fc. unfold f_ok, f_err, returned.
  destruct a; fetch_cases H; simpl; auto 10.
Qed.

(** Once the call has returned, the goroutine and the timer it leaves
    behind change neither what was returned nor the statistics. *)
Lemma fetch_returned_stable a fc s fc' s' :
  returned fc = true -> fetchWithTimeout_step a fc s = Step (fc', s') ->
  fc_pc fc' = fc_pc fc /\ s' = s.
Proof.
  intros Hr H. destruct_fetch fc. unfold returned in Hr. simpl in Hr.
  destruct a; fetch_cases H.
Qed.

Lemma fetch_reachable_inv source stats0 fc stats :
  fetch_reachable source stats0 fc stats -> fetch_inv fc /\ fc_source fc = source.
Proof.
  induction 1 as [|fc s a fc' s' _ [IH1 IH2] Hstep].
  - split; [apply fetch_init_inv | done].
  - split; [by eapply fetch_step_inv |].
    by rewrite (fetch_step_source _ _ _ _ _ Hstep).
Qed.

Lemma fetch_run_reachable source stats0 sched fc stats fc' stats' :
  fetch_reachable source stats0 fc stats ->
  fetch_run sched fc stats = Step (fc', stats') ->
  fetch_reachable source stats0 fc' stats'.
Proof.
  revert fc stats. induction sched as [|a sched IH]; simpl; intros fc stats Hr H.
  - by simplify_eq.
  - destruct (fetchWithTimeout_step a fc stats) as [|[fc1 s1]|] eqn:E; try done.
    eapply IH; [|done]. by eapply fetch_reach_step.
Qed.

(** The deadline makes every call return: at most three statements away. *)
Lemma fetch_can_return fc s :
  fetch_inv fc -> returned fc = false ->
  exists sched fc' s',
    (length sched <= 3)%nat /\ fetch_run sched fc s = Step (fc', s') /\ returned fc' = true.
Proof.
  intros [] Hr. destruct_fetch fc. unfold returned in Hr. simpl in Hr.
  destruct fc_pc0 as [|r|e| |]; try done.
  - destruct timerFired0.
    + exists [SelectTimeout; FetchReturn]. rewrite fi_timer_full0 by done.
      simpl. do 2 eexists. split; [simpl; lia | done].
    + exists [TimerFire; SelectTimeout; FetchReturn]. rewrite fi_timer_empty0 by done.
      simplify_eq. simpl. do 2 eexists. split; [simpl; lia | done].
  - exists [FetchReturn]. simpl. do 2 eexists. split; [simpl; lia | done].
  - exists [FetchReturn]. simpl. do 2 eexists. split; [simpl; lia | done].
Qed.

Lemma flat_map_insert_gain {A B : Type} (g : A -> list B) (l : list A) (i : nat) (x y : A) :
  l !! i = Some x -> g x = [] -> flat_map g (<[i:=y]> l) ≡ₚ g y ++ flat_map g l.
Proof.
  intros H E. pose proof (flat_map_insert_perm g l i x y H) as P.
  by rewrite E in P.
Qed.

Lemma flat_map_insert_lose {A B : Type} (g : A -> list B) (l : list A) (i : nat) (x y : A) :
  l !! i = Some x -> g y = [] -> flat_map g l ≡ₚ g x ++ flat_map g (<[i:=y]> l).
Proof.
  intros H E. pose proof (flat_map_insert_perm g l i x y H) as P.
  by rewrite E in P.
Qed.

(** ** The pipeline: items are moved or dropped, never copied *)

Ltac destruct_state st :=
  destruct st as [[? ? ?] [? ? ?] [? ? ?] ? ? ? ? ? ? ? ? ? ? ?]; simpl in *.

Lemma fetcher_step_items cfg i st st' :
  Forall fetcher_inv (fetchers st) ->
  fetcher_step i st = Step st' -> all_sources cfg st' ⊆+ all_sources cfg st.
Proof.
  intros Hf H. unfold fetcher_step in H.
  destruct (fetchers st !! i) as [f|] eqn:Hi; [|done].
  pose proof (Forall_lookup_1 _ _ _ _ Hf Hi) as [Hfi Hpc].
  destruct f as [fc pc]. unfold all_sources.
  destruct pc; simpl in *.
  - destruct (fc_pc fc) as [| | | |response err] eqn:Hfc; try done.
    destruct err as [e|]; [|destruct response as [r|]]; simplify_eq; simpl.
    + rewrite length_insert.
      destruct Hfi. rewrite Hfc in fi_pc0.
      destruct fi_pc0 as [(r & -> & ? & _) | [-> _]]; [done |].
      rewrite (flat_map_insert_same f_src _ i _ _ Hi); [done |].
      unfold f_src. simpl. by rewrite Hfc.
    + rewrite length_insert.
      destruct Hfi. rewrite Hfc in fi_pc0.
      destruct fi_pc0 as [(r' & ? & _ & Hs) | [? _]]; [|done]. simplify_eq.
      rewrite (flat_map_insert_same f_src _ i _ _ Hi); [done |].
      unfold f_src. simpl. by rewrite Hfc, Hs.
  - unfold chan_send in H. repeat case_match; simplify_eq. simpl.
    rewrite length_insert, fmap_app. simpl.
    rewrite (flat_map_insert_lose f_src _ i _ (MkFetcher fc GExit) Hi) by done.
    simpl. apply Permutation_submseteq. solve_Permutation.
  - unfold wg_done, wg_add in H. repeat case_match; simplify_eq. simpl.
    rewrite length_insert.
    by rewrite (flat_map_insert_same f_src _ i _ _ Hi).
  - done.
Qed.

Lemma fetch_step_src a fc s fc' s' pc :
  fetchWithTimeout_step a fc s = Step (fc', s') ->
  f_src (MkFetcher fc' pc) = f_src (MkFetcher fc pc) \/ f_src (MkFetcher fc' pc) = [].
Proof.
  intros H. destruct_fetch fc. unfold f_src.
  destruct pc; simpl; auto.
  destruct a; fetch_cases H; simpl; auto.
Qed.

Lemma fetch_step_items cfg i a st st' :
  fetch_step i a st = Step st' -> all_sources cfg st' ⊆+ all_sources cfg st.
Proof.
  intros H. unfold fetch_step in H.
  destruct (fetchers st !! i) as [[fc pc]|] eqn:Hi; [|done]. simpl in H.
  destruct (fetchWithTimeout_step a fc (stats st)) as [|[fc' s']|] eqn:E; try done.
  simplify_eq. unfold all_sources. simpl. rewrite length_insert.
  destruct (fetch_step_src _ _ _ _ _ pc E) as [Hs | Hs].
  - by rewrite (flat_map_insert_same f_src _ i _ _ Hi).
  - rewrite (flat_map_insert_lose f_src _ i _ (MkFetcher fc' pc) Hi) by done.
    apply submseteq_app; [done |].
    rewrite <- !app_assoc. apply submseteq_inserts_l. done.
Qed.

Lemma worker_step_items cfg w st st' :
  processingWorker_step w st = Step st' -> all_sources cfg st' ⊆+ all_sources cfg st.
Proof.
  intros H. unfold processingWorker_step in H.
  destruct (workers st !! w) as [[id pc]|] eqn:Hw; [|done]. simpl in H.
  apply Permutation_submseteq. unfold all_sources.
  destruct pc; simpl in *.
  - unfold chan_recv in H. destruct (buf (fetchedData st)) as [|job rest] eqn:Hb.
    + destruct (closed (fetchedData st)); simplify_eq. simpl. rewrite ?Hb. simpl.
      by rewrite (flat_map_insert_same w_src _ w _ _ Hw).
    + simplify_eq. simpl.
      rewrite (flat_map_insert_gain w_src _ w _ (MkWorker id (WHave job)) Hw) by done.
      simpl. solve_Permutation.
  - simplify_eq. simpl.
    by rewrite (flat_map_insert_same w_src _ w _ _ Hw).
  - unfold chan_send in H. repeat case_match; simplify_eq. simpl.
    rewrite fmap_app. simpl.
    rewrite (flat_map_insert_lose w_src _ w _ (MkWorker id WRecv) Hw) by done.
    simpl. solve_Permutation.
  - unfold wg_done, wg_add in H. repeat case_match; simplify_eq. simpl.
    by rewrite (flat_map_insert_same w_src _ w _ _ Hw).
  - done.
Qed.

Lemma output_step_items cfg st st' :
  outputPipeline_step st = Step st' -> all_sources cfg st' ≡ₚ all_sources cfg st.
Proof.
  intros H. unfold outputPipeline_step, chan_recv in H. unfold all_sources.
  repeat case_match; simplify_eq; simpl; try done; rewrite ?fmap_app; simpl;
    repeat match goal with E : buf _ = _ |- _ => rewrite ?E; clear E end;
    simpl; try done; solve_Permutation.
Qed.

Lemma closer_step_items cfg st st' :
  closer1_step st = Step st' \/ closer2_step st = Step st' ->
  all_sources cfg st' = all_sources cfg st.
Proof.
  unfold closer1_step, closer2_step, wg_wait, chan_close, all_sources.
  intros [H | H]; repeat case_match; simplify_eq; done.
Qed.

Lemma main_step_items cfg st st' :
  demonstrateIntegrated_step cfg st = Step st' -> all_sources cfg st' ≡ₚ all_sources cfg st.
Proof.
  intros H. unfold demonstrateIntegrated_step, wg_add in H. unfold all_sources.
  repeat case_match; simplify_eq; simpl; try done.
  - rewrite length_app, flat_map_snoc. simpl.
    match goal with E : sources _ !! _ = Some _ |- _ => rewrite (drop_S _ _ _ E) end.
    replace (length (fetchers st) + 1)%nat with (S (length (fetchers st))) by lia.
    unfold f_src at 2. simpl. solve_Permutation.
  - by rewrite flat_map_snoc, app_nil_r.
Qed.

Lemma exec_items cfg a st st' :
  Forall fetcher_inv (fetchers st) ->
  exec cfg a st = Step st' -> all_sources cfg st' ⊆+ all_sources cfg st.
Proof.
  intros Hf H. destruct a; simpl in H.
  - apply Permutation_submseteq. by apply main_step_items.
  - by eapply fetch_step_items.
  - by eapply fetcher_step_items.
  - by rewrite (closer_step_items cfg st st') by auto.
  - by eapply worker_step_items.
  - by rewrite (closer_step_items cfg st st') by auto.
  - apply Permutation_submseteq. by apply output_step_items.
Qed.

(** ** The pipeline invariant *)

Lemma init_inv cfg : inv cfg (init cfg).
Proof.
  split; simpl; try done; try (intuition congruence); try lia.
  - unfold all_sources. simpl. by rewrite app_nil_r.
Qed.

Ltac wsum_facts :=
  repeat match goal with
  | H : ?l !! ?i = Some ?x |- context [wsum ?g (<[?i:=?y]> ?l)] =>
      lazymatch goal with
      | _ : (wsum g (<[i:=y]> l) + _ = _)%nat |- _ => fail
      | _ => pose proof (wsum_insert g l i x y H)
      end
  | H : ?l !! ?i = Some ?x, H' : context [wsum ?g (<[?i:=?y]> ?l)] |- _ =>
      lazymatch goal with
      | _ : (wsum g (<[i:=y]> l) + _ = _)%nat |- _ => fail
      | _ => pose proof (wsum_insert g l i x y H)
      end
  end.

Ltac lookup_insert_cases i j Hi Hj :=
  destruct (decide (i = j)) as [<- | ?];
  [ rewrite list_lookup_insert_eq in Hj by (eapply lookup_lt_Some; exact Hi);
    simplify_eq
  | rewrite list_lookup_insert_ne in Hj by done ].

Lemma wsum_f_ok_le l : (wsum f_ok l <= length l)%nat.
Proof. apply wsum_le_length. intros [fc pc]. unfold f_ok. repeat case_match; lia. Qed.

Ltac weights :=
  unfold f_live, f_ok, f_err, f_hold, w_live, w_have, w_send, w_exited in *; simpl in *.

Ltac use_hyps :=
  repeat match goal with
  | H : ?P -> _, H' : ?P |- _ => specialize (H H')
  | H : ?P \/ ?Q -> _, H' : ?P |- _ => specialize (H (or_introl H'))
  | H : ?P \/ ?Q -> _, H' : ?Q |- _ => specialize (H (or_intror H'))
  end.

Ltac arith :=
  intros; use_hyps; rewrite ?length_app in *; wsum_facts; weights; lia.

Ltac inv_fields Hupd Hitems :=
  split; simpl; rewrite ?length_insert; try done; try (by apply Hupd);
  try (etransitivity; [exact Hitems | assumption]);
  try (apply Forall_insert; [assumption | split; simpl; by eauto]);
  try (arith; fail).

Lemma fetcher_step_inv cfg i st st' :
  inv cfg st -> fetcher_step i st = Step st' -> inv cfg st'.
Proof.
  intros Hinv H.
  pose proof (fetcher_step_items cfg i st st' (i_fetchers _ _ Hinv) H) as Hitems.
  destruct Hinv. unfold fetcher_step in H.
  destruct (fetchers st !! i) as [[fc pc]|] eqn:Hi; [|done].
  pose proof (Forall_lookup_1 _ _ _ _ i_fetchers0 Hi) as [Hfi Hpc].
  pose proof (i_fsrc0 _ _ Hi) as Hsrc.
  simpl in *.
  assert (forall f', fc_source (f_call f') = fc_source fc ->
            forall j f0, <[i:=f']> (fetchers st) !! j = Some f0 ->
                         sources cfg !! j = Some (fc_source (f_call f0))) as Hupd.
  { intros f' Hf' j f0 Hj. lookup_insert_cases i j Hi Hj; [by rewrite Hf' | eauto]. }
  pose proof (fi_pc _ Hfi) as Hret.
  destruct_fetch fc.
  destruct pc; simpl in *.
  - destruct fc_pc0 as [| | | |response err] eqn:Hfc; try done.
    destruct Hret as [(r & -> & -> & Hs) | [-> ->]]; simplify_eq; simpl;
      inv_fields Hupd Hitems.
  - unfold chan_send in H.
    destruct (closed (fetchedData st)) eqn:Hcl; [done |].
    destruct (length (buf (fetchedData st)) <? cap (fetchedData st))%nat eqn:Hcap;
      simplify_eq.
    inv_fields Hupd Hitems.
  - unfold wg_done, wg_add in H.
    destruct (fetchWg st + -1 <? 0) eqn:Hwg; simplify_eq.
    destruct Hpc as (response & err & ?); simplify_eq.
    inv_fields Hupd Hitems.
  - done.
Qed.

Lemma wsum_live_exited (l : list worker) :
  (length l <= wsum w_live l + wsum w_exited l)%nat.
Proof.
  induction l as [|[id pc] l IH]; simpl; [lia |].
  unfold w_live at 1, w_exited at 1. destruct pc; simpl; lia.
Qed.

(** With a worker in the pool, the output stage sees the end of its queue
    only when every goroutine of the first two stages is through. *)
Lemma inv_all_done cfg st :
  inv cfg st -> (1 <= numWorkers cfg)%nat ->
  output st = OSendDone \/ output st = ODone ->
  length (fetchers st) = length (sources cfg) /\
  length (workers st) = numWorkers cfg /\ quiescent_stages st.
Proof.
  intros [] Hw Hout. unfold quiescent_stages.
  destruct (i_out_eos0 Hout) as [Hpd Hbpd].
  pose proof (proj1 i_c2_closed0 Hpd) as Hc2.
  assert (wsum w_live (workers st) = 0%nat) as Hwl by auto.
  assert (mainpc st <> MFetchLoop /\ mainpc st <> MWorkerLoop) as [Hm1 Hm2].
  { split; intros Hm; (assert (closer2 st = CNotStarted) as E by (apply i_c2_start0; auto));
      congruence. }
  pose proof (i_wall0 Hm1 Hm2) as Hlen.
  pose proof (wsum_live_exited (workers st)) as Hle.
  destruct i_wexit0 as [Hfd Hbfd]; [lia |].
  pose proof (proj1 i_c1_closed0 Hfd) as Hc1.
  repeat split; auto.
Qed.

(** What a statement of [fetchWithTimeout] does to the closure it runs in
    and to the counters. *)
Lemma fetch_step_weights a fc s fc' s' pc :
  fetcher_inv (MkFetcher fc pc) ->
  fetchWithTimeout_step a fc s = Step (fc', s') ->
  fetcher_inv (MkFetcher fc' pc) /\
  ((s' = s
    /\ f_ok (MkFetcher fc' pc) = f_ok (MkFetcher fc pc)
    /\ f_err (MkFetcher fc' pc) = f_err (MkFetcher fc pc)
    /\ f_hold (MkFetcher fc' pc) = f_hold (MkFetcher fc pc))
   \/ (s' = IncrementFetched s /\ pc = GInFetch
       /\ f_ok (MkFetcher fc pc) = 0%nat /\ f_ok (MkFetcher fc' pc) = 1%nat
       /\ f_err (MkFetcher fc' pc) = f_err (MkFetcher fc pc)
       /\ f_hold (MkFetcher fc pc) = 0%nat /\ f_hold (MkFetcher fc' pc) = 1%nat)
   \/ (s' = IncrementErrors s /\ pc = GInFetch
       /\ f_err (MkFetcher fc pc) = 0%nat /\ f_err (MkFetcher fc' pc) = 1%nat
       /\ f_ok (MkFetcher fc' pc) = f_ok (MkFetcher fc pc)
       /\ f_hold (MkFetcher fc' pc) = f_hold (MkFetcher fc pc))).
Proof.
  intros [Hfi Hpc] H. simpl in *.
  pose proof (fetch_step_inv _ _ _ _ _ Hfi H) as Hfi'.
  assert (pc <> GInFetch -> fc_pc fc' = fc_pc fc /\ s' = s) as Hstable.
  { intros Hne. apply (fetch_returned_stable a fc s); [|done].
    unfold returned. destruct pc; try done.
    - by rewrite Hpc.
    - by destruct Hpc as (? & ? & ->).
    - by destruct Hpc as (? & ? & ->). }
  split.
  - split; [done |]. simpl. destruct pc; try done.
    + destruct Hstable as [-> _]; done.
    + destruct Hstable as [-> _]; done.
    + destruct Hstable as [-> _]; done.
  - assert (pc = GInFetch \/ pc <> GInFetch) as [-> | Hne]
      by (destruct pc; auto; by right).
    + clear Hstable Hpc Hfi Hfi'. destruct_fetch fc.
      destruct a; fetch_cases H; unfold f_ok, f_err, f_hold; simpl; auto 10.
    + destruct (Hstable Hne) as [E ->]. left. unfold f_ok, f_err, f_hold. simpl.
      by rewrite E.
Qed.

Lemma wsum_f_err_le l : (wsum f_err l <= length l)%nat.
Proof. apply wsum_le_length. intros [fc pc]. unfold f_err. repeat case_match; lia. Qed.

Lemma fetch_step_pipeline_inv cfg i a st st' :
  int_fits cfg -> inv cfg st -> fetch_step i a st = Step st' -> inv cfg st'.
Proof.
  intros Hfit Hinv H.
  pose proof (fetch_step_items cfg i a st st' H) as Hitems.
  assert ((1 <= numWorkers cfg)%nat -> mainpc st = MReturned ->
          wsum f_live (fetchers st) = 0%nat) as Hquiet.
  { intros Hw Hm. apply (inv_all_done cfg st Hinv Hw). right.
    apply (i_out_done _ _ Hinv). by right. }
  destruct Hinv. unfold fetch_step in H.
  destruct (fetchers st !! i) as [[fc pc]|] eqn:Hi; [|done]. simpl in H.
  destruct (fetchWithTimeout_step a fc (stats st)) as [|[fc' s']|] eqn:E; try done.
  pose proof (Forall_lookup_1 _ _ _ _ i_fetchers0 Hi) as Hfi.
  pose proof (i_fsrc0 _ _ Hi) as Hsrc.
  pose proof (fetch_step_source _ _ _ _ _ E) as Hsame.
  destruct (fetch_step_weights _ _ _ _ _ pc Hfi E) as [Hfi' Hw].
  simpl in *. simplify_eq.
  assert (forall j f0, <[i:=MkFetcher fc' pc]> (fetchers st) !! j = Some f0 ->
                       sources cfg !! j = Some (fc_source (f_call f0))) as Hupd.
  { intros j f0 Hj. lookup_insert_cases i j Hi Hj; [simpl in *; by rewrite Hsame | eauto]. }
  pose proof (wsum_f_ok_le (<[i:=MkFetcher fc' pc]> (fetchers st))) as Hok.
  pose proof (wsum_f_err_le (<[i:=MkFetcher fc' pc]> (fetchers st))) as Herr.
  rewrite length_insert in Hok, Herr.
  pose proof (wsum_insert f_ok _ i _ (MkFetcher fc' pc) Hi) as Wok.
  pose proof (wsum_insert f_err _ i _ (MkFetcher fc' pc) Hi) as Werr.
  pose proof (wsum_insert f_hold _ i _ (MkFetcher fc' pc) Hi) as Whold.
  pose proof (wsum_insert f_live _ i _ (MkFetcher fc' pc) Hi) as Wlive.
  pose proof (wsum_lookup_le f_live _ _ _ Hi) as Wl.
  unfold int_fits in Hfit.
  assert (f_live (MkFetcher fc' pc) = f_live (MkFetcher fc pc)) as Elive by done.
  destruct Hw as [(-> & E1 & E2 & E3) | [(-> & -> & E1 & E2 & E3 & E4 & E5)
                                        | (-> & -> & E1 & E2 & E3 & E4)]].
  - split; simpl; rewrite ?length_insert; try done;
      try (etransitivity; [exact Hitems | assumption]);
      try (apply Forall_insert; [assumption | done]);
      try (intros; use_hyps; lia).
  - assert (int_incr (totalFetched (stats st)) = totalFetched (stats st) + 1) as Ei.
    { apply int_incr_small. lia. }
    split; simpl; rewrite ?length_insert, ?Ei; try done;
      try (etransitivity; [exact Hitems | assumption]);
      try (apply Forall_insert; [assumption | done]);
      try (intros; use_hyps; lia).
    intros Hnw t Ht. exfalso.
    assert (mainpc st = MReturned) as Hm.
    { destruct (mainpc st) eqn:Hmp; try done;
        (assert (printedStats st = None) as Hnone by (by apply i_print_none0));
        congruence. }
    specialize (Hquiet Hnw Hm).
    assert (f_live (MkFetcher fc GInFetch) = 1%nat) as Hone by done. lia.
  - assert (int_incr (errors (stats st)) = errors (stats st) + 1) as Ei.
    { apply int_incr_small. lia. }
    split; simpl; rewrite ?length_insert, ?Ei; try done;
      try (etransitivity; [exact Hitems | assumption]);
      try (apply Forall_insert; [assumption | done]);
      try (intros; use_hyps; lia).
    intros Hnw t Ht. exfalso.
    assert (mainpc st = MReturned) as Hm.
    { destruct (mainpc st) eqn:Hmp; try done;
        (assert (printedStats st = None) as Hnone by (by apply i_print_none0));
        congruence. }
    specialize (Hquiet Hnw Hm).
    assert (f_live (MkFetcher fc GInFetch) = 1%nat) as Hone by done. lia.
Qed.

Ltac rewrite_chan :=
  repeat match goal with
  | E : closed ?c = _ |- context [closed ?c] => rewrite E
  | E : buf ?c = _ |- context [buf ?c] => rewrite E
  end.

Ltac inv_fields_w Hitems :=
  split; simpl; rewrite ?length_insert; rewrite_chan; try done;
  try (etransitivity; [exact Hitems | assumption]);
  try (arith; fail).

Lemma worker_step_inv cfg w st st' :
  int_fits cfg -> inv cfg st -> processingWorker_step w st = Step st' -> inv cfg st'.
Proof.
  intros Hfit Hinv H.
  pose proof (worker_step_items cfg w st st' H) as Hitems.
  assert ((1 <= numWorkers cfg)%nat -> mainpc st = MReturned ->
          wsum w_live (workers st) = 0%nat) as Hquiet.
  { intros Hw Hm. apply (inv_all_done cfg st Hinv Hw). right.
    apply (i_out_done _ _ Hinv). by right. }
  pose proof (wsum_f_ok_le (fetchers st)) as Hok.
  destruct Hinv. unfold processingWorker_step in H. unfold int_fits in Hfit.
  destruct (workers st !! w) as [[id pc]|] eqn:Hw; [|done]. simpl in H.
  assert (forall wk, mainpc st = MFetchLoop -> <[w:=wk]> (workers st) = []) as Hnone.
  { intros wk Hm. rewrite (i_wnone0 Hm) in Hw. done. }
  pose proof (wsum_lookup_le w_live _ _ _ Hw) as Wlive.
  destruct pc; simpl in *.
  - unfold chan_recv in H. destruct (buf (fetchedData st)) as [|job rest] eqn:Hb.
    + destruct (closed (fetchedData st)) eqn:Hcl; simplify_eq.
      inv_fields_w Hitems; try (by apply Hnone).
    + simplify_eq. inv_fields_w Hitems; try (by apply Hnone).
      intros Hpos. destruct i_wexit0 as [? ?]; [arith | done].
  - simplify_eq.
    assert (int_incr (totalProcessed (stats st)) = totalProcessed (stats st) + 1) as Ei.
    { apply int_incr_small.
      pose proof (wsum_lookup_le w_have _ _ _ Hw) as Wl.
      assert (w_have (MkWorker id (WHave job)) = 1%nat) as Hone by done. lia. }
    inv_fields_w Hitems; try (by apply Hnone).
    + intros Hpos. destruct i_wexit0 as [? ?]; [arith | done].
    + intros Hnw t Ht. exfalso.
      assert (mainpc st = MReturned) as Hm.
      { destruct (mainpc st) eqn:Hmp; try done;
          (assert (printedStats st = None) as Hnone' by (by apply i_print_none0));
          congruence. }
      specialize (Hquiet Hnw Hm).
      assert (w_live (MkWorker id (WHave job)) = 1%nat) as Hone by done. lia.
  - unfold chan_send in H.
    destruct (closed (processedData st)) eqn:Hcl; [done |].
    destruct (length (buf (processedData st)) <? cap (processedData st))%nat eqn:Hcap;
      simplify_eq.
    inv_fields_w Hitems; try (by apply Hnone).
    intros Hpos. destruct i_wexit0 as [? ?]; [arith | done].
  - unfold wg_done, wg_add in H.
    destruct (processWg st + -1 <? 0) eqn:Hwg; simplify_eq.
    inv_fields_w Hitems; try (by apply Hnone).
    intros Hpos. destruct i_wexit0 as [? ?]; [arith | done].
  - done.
Qed.

Ltac clear_heavy :=
  repeat match goal with
  | H : Forall _ _ |- _ => clear H
  | H : _ ⊆+ _ |- _ => clear H
  | H : context [wsum _ _] |- _ => clear H
  | H : context [Z.of_nat _] |- _ => clear H
  | H : context [length _] |- _ => clear H
  | H : context [_ !! _] |- _ => clear H
  | H : context [snapshot _] |- _ => clear H
  end.

Ltac refl_hyps :=
  repeat match goal with
  | H : ?a = ?a -> _ |- _ => specialize (H eq_refl)
  | H : ?a = ?a \/ _ -> _ |- _ => specialize (H (or_introl eq_refl))
  | H : _ \/ ?a = ?a -> _ |- _ => specialize (H (or_intror eq_refl))
  | H : ?a <> ?b -> _ |- _ =>
      let N := fresh in assert (a <> b) as N by discriminate; specialize (H N); clear N
  end.

Ltac pc_logic :=
  try (intros; use_hyps; refl_hyps; lia);
  try (intros; use_hyps; refl_hyps; clear_heavy; intuition congruence; fail).

Lemma closer1_step_inv cfg st st' :
  inv cfg st -> closer1_step st = Step st' -> inv cfg st'.
Proof.
  intros Hinv H.
  pose proof (closer_step_items cfg st st' (or_introl H)) as Hitems.
  destruct Hinv. unfold closer1_step, wg_wait, chan_close in H.
  destruct (closer1 st) eqn:Hc; try done.
  - destruct (fetchWg st =? 0) eqn:Hwg; simplify_eq.
    split; simpl; try done; try (by rewrite Hitems); pc_logic.
  - destruct (closed (fetchedData st)) eqn:Hcl; simplify_eq.
    split; simpl; try done; try (by rewrite Hitems); pc_logic.
Qed.

Lemma closer2_step_inv cfg st st' :
  inv cfg st -> closer2_step st = Step st' -> inv cfg st'.
Proof.
  intros Hinv H.
  pose proof (closer_step_items cfg st st' (or_intror H)) as Hitems.
  destruct Hinv. unfold closer2_step, wg_wait, chan_close in H.
  destruct (closer2 st) eqn:Hc; try done.
  - destruct (processWg st =? 0) eqn:Hwg; simplify_eq.
    split; simpl; try done; try (by rewrite Hitems); pc_logic.
  - destruct (closed (processedData st)) eqn:Hcl; simplify_eq.
    split; simpl; try done; try (by rewrite Hitems); pc_logic.
Qed.

Lemma output_step_inv cfg st st' :
  int_fits cfg -> inv cfg st -> outputPipeline_step st = Step st' -> inv cfg st'.
Proof.
  intros Hfit Hinv H.
  pose proof (output_step_items cfg st st' H) as Hitems.
  pose proof (wsum_f_ok_le (fetchers st)) as Hok.
  destruct Hinv. unfold outputPipeline_step, chan_recv in H. unfold int_fits in Hfit.
  destruct (output st) eqn:Ho; try done.
  - destruct (buf (processedData st)) as [|result rest] eqn:Hb.
    + destruct (closed (processedData st)) eqn:Hcl; simplify_eq.
      split; simpl; rewrite_chan; try done; try (by rewrite Hitems); pc_logic.
    + simplify_eq.
      assert (int_incr (count st) = count st + 1) as Ei.
      { apply int_incr_small. simpl in *. lia. }
      split; simpl; rewrite ?Ei, ?length_app; rewrite_chan; try done;
        try (by rewrite Hitems); pc_logic.
      all: simpl in *; lia.
  - destruct (mainpc st) eqn:Hm; simplify_eq.
    split; simpl; rewrite_chan; try done; try (by rewrite Hitems); pc_logic.
Qed.

Lemma main_step_inv cfg st st' :
  inv cfg st -> demonstrateIntegrated_step cfg st = Step st' -> inv cfg st'.
Proof.
  intros Hinv H.
  pose proof (main_step_items cfg st st' H) as Hitems.
  destruct Hinv. unfold demonstrateIntegrated_step, wg_add in H.
  destruct (mainpc st) eqn:Hm; try done.
  - destruct (sources cfg !! length (fetchers st)) as [src|] eqn:Hs.
    + destruct (fetchWg st + 1 <? 0) eqn:Hwg; simplify_eq.
      pose proof (lookup_lt_Some _ _ _ Hs) as Hlt.
      split; simpl; rewrite ?length_app, ?wsum_snoc; simpl; try done;
        try (by rewrite Hitems); pc_logic.
      all: try (weights; lia).
      * apply Forall_app. split; [done |].
        apply Forall_singleton. split; [apply fetch_init_inv | done].
      * intros j f Hj. apply lookup_app_Some in Hj as [Hj | [Hge Hj]]; [eauto |].
        apply list_lookup_singleton_Some in Hj as [Hz <-]. simpl.
        replace j with (length (fetchers st)) by lia. done.
    + simplify_eq. pose proof (lookup_ge_None_1 _ _ Hs) as Hge.
      split; simpl; try done; try (by rewrite Hitems); pc_logic.
  - destruct (length (workers st) <? numWorkers cfg)%nat eqn:Hlt.
    + destruct (processWg st + 1 <? 0) eqn:Hwg; simplify_eq.
      apply Nat.ltb_lt in Hlt.
      split; simpl; rewrite ?length_app, ?wsum_snoc; simpl; try done;
        try (by rewrite Hitems); pc_logic.
      all: try (weights; lia).
      intros Hpos. apply i_wexit0. weights. lia.
    + simplify_eq. apply Nat.ltb_ge in Hlt.
      split; simpl; try done; try (by rewrite Hitems); pc_logic.
  - simplify_eq.
    split; simpl; try done; try (by rewrite Hitems); pc_logic.
  - simplify_eq.
    split; simpl; try done; try (by rewrite Hitems); pc_logic.
    by intros _ t [= <-].
Qed.

Lemma exec_inv cfg a st st' :
  int_fits cfg -> inv cfg st -> exec cfg a st = Step st' -> inv cfg st'.
Proof.
  intros Hfit Hinv H. destruct a; simpl in H.
  - by eapply main_step_inv.
  - by eapply fetch_step_pipeline_inv.
  - by eapply fetcher_step_inv.
  - by eapply closer1_step_inv.
  - by eapply worker_step_inv.
  - by eapply closer2_step_inv.
  - by eapply output_step_inv.
Qed.

Lemma reachable_inv cfg st : int_fits cfg -> reachable cfg st -> inv cfg st.
Proof.
  intros Hfit. induction 1 as [|st a st' _ IH Hstep].
  - apply init_inv.
  - by eapply exec_inv.
Qed.

Lemma run_reachable cfg sched st st' :
  reachable cfg st -> run cfg sched st = Step st' -> reachable cfg st'.
Proof.
  revert st. induction sched as [|a sched IH]; simpl; intros st Hr H.
  - by simplify_eq.
  - destruct (exec cfg a st) as [|st1|] eqn:E; try done.
    eapply IH; [|done]. by eapply reach_step.
Qed.

(** ** Every statement uses up the measure *)

Lemma fetch_step_weight a fc s fc' s' :
  fetchWithTimeout_step a fc s = Step (fc', s') ->
  (fetch_weight fc' < fetch_weight fc)%nat.
Proof.
  intros H. destruct_fetch fc.
  destruct a; fetch_cases H; unfold fetch_weight; simpl; lia.
Qed.

Ltac measure_facts :=
  repeat match goal with
  | H : ?l !! ?i = Some ?x |- context [wsum ?g (<[?i:=?y]> ?l)] =>
      lazymatch goal with
      | _ : (wsum g (<[i:=y]> l) + _ = _)%nat |- _ => fail
      | _ => pose proof (wsum_insert g l i x y H); pose proof (wsum_lookup_le g l i x H)
      end
  end.

Ltac measure_goal :=
  unfold measure, main_weight; simpl;
  rewrite ?length_app, ?length_insert, ?wsum_snoc; simpl;
  repeat match goal with E : buf _ = _ |- _ => rewrite ?E; clear E end;
  repeat match goal with E : mainpc _ = _ |- _ => rewrite ?E; clear E end;
  repeat match goal with E : output _ = _ |- _ => rewrite ?E; clear E end;
  repeat match goal with E : closer1 _ = _ |- _ => rewrite ?E; clear E end;
  repeat match goal with E : closer2 _ = _ |- _ => rewrite ?E; clear E end;
  simpl; measure_facts;
  unfold fetcher_weight, worker_weight, fetch_weight in *; simpl in *;
  try lia.

Lemma exec_measure cfg a st st' :
  exec cfg a st = Step st' -> (measure cfg st' < measure cfg st)%nat.
Proof.
  intros H. destruct a; simpl in H.
  - unfold demonstrateIntegrated_step, wg_add in H.
    destruct (mainpc st) eqn:Hm; try done.
    + destruct (sources cfg !! length (fetchers st)) as [src|] eqn:Hs.
      * destruct (fetchWg st + 1 <? 0); simplify_eq.
        pose proof (lookup_lt_Some _ _ _ Hs) as Hlt. measure_goal.
      * simplify_eq. destruct (closer1 st) eqn:Hc; measure_goal.
    + destruct (length (workers st) <? numWorkers cfg)%nat eqn:Hlt.
      * destruct (processWg st + 1 <? 0); simplify_eq.
        apply Nat.ltb_lt in Hlt. measure_goal.
      * simplify_eq. destruct (closer2 st) eqn:Hc; measure_goal.
    + simplify_eq. destruct (output st) eqn:Ho; measure_goal.
    + simplify_eq. measure_goal.
  - unfold fetch_step in H.
    destruct (fetchers st !! i) as [[fc pc]|] eqn:Hi; [|done]. simpl in H.
    destruct (fetchWithTimeout_step a fc (stats st)) as [|[fc' s']|] eqn:E; try done.
    simplify_eq. pose proof (fetch_step_weight _ _ _ _ _ E).
    unfold measure, main_weight. simpl. rewrite length_insert.
    measure_facts. unfold fetcher_weight in *. simpl in *. lia.
  - unfold fetcher_step, chan_send, wg_done, wg_add in H.
    destruct (fetchers st !! i) as [[fc pc]|] eqn:Hi; [|done]. simpl in H.
    destruct pc; repeat case_match; simplify_eq; measure_goal.
  - unfold closer1_step, wg_wait, chan_close in H.
    repeat case_match; simplify_eq; measure_goal.
  - unfold processingWorker_step, chan_recv, chan_send, wg_done, wg_add in H.
    destruct (workers st !! w) as [[id pc]|] eqn:Hw; [|done]. simpl in H.
    destruct pc; repeat case_match; simplify_eq; measure_goal.
  - unfold closer2_step, wg_wait, chan_close in H.
    repeat case_match; simplify_eq; measure_goal.
  - unfold outputPipeline_step, chan_recv in H.
    repeat case_match; simplify_eq; measure_goal.
Qed.

(** ** No statement panics *)

Lemma inv_no_crash cfg a st m : inv cfg st -> exec cfg a st <> Crash m.
Proof.
  intros Hinv H. destruct Hinv. destruct a; simpl in H.
  - unfold demonstrateIntegrated_step, wg_add in H.
    repeat case_match; simplify_eq; lia.
  - unfold fetch_step in H.
    destruct (fetchers st !! i) as [[fc pc]|] eqn:Hi; [|done]. simpl in H.
    pose proof (Forall_lookup_1 _ _ _ _ i_fetchers0 Hi) as [Hfi _].
    destruct (fetchWithTimeout_step a fc (stats st)) as [|[fc' s']|] eqn:E; try done.
    simplify_eq. by eapply fetch_step_no_crash.
  - unfold fetcher_step in H.
    destruct (fetchers st !! i) as [[fc pc]|] eqn:Hi; [|done]. simpl in H.
    pose proof (Forall_lookup_1 _ _ _ _ i_fetchers0 Hi) as [Hfi _].
    pose proof (fi_pc _ Hfi) as Hret.
    pose proof (wsum_lookup_le f_live _ _ _ Hi) as Hlive.
    simpl in Hret, Hfi.
    destruct pc.
    + simpl in H. destruct (fc_pc fc) as [| | | |[r|] [e|]] eqn:Hfc; try done.
      by destruct Hret as [(? & ? & ? & ?) | [? ?]].
    + unfold chan_send in H.
      destruct (closed (fetchedData st)) eqn:Hcl; [|by repeat case_match].
      assert (wsum f_live (fetchers st) = 0%nat) as Hz by intuition.
      unfold f_live in Hlive at 1. simpl in Hlive. lia.
    + unfold wg_done, wg_add in H.
      destruct (fetchWg st + -1 <? 0) eqn:Hwg; [|done].
      unfold f_live in Hlive at 1. simpl in Hlive. lia.
    + done.
  - unfold closer1_step, wg_wait, chan_close in H.
    destruct (closer1 st) eqn:Hc; try done.
    + by destruct (fetchWg st =? 0).
    + destruct (closed (fetchedData st)) eqn:Hcl; [|done].
      assert (CClose = CDone) by intuition. done.
  - unfold processingWorker_step in H.
    destruct (workers st !! w) as [[id pc]|] eqn:Hw; [|done]. simpl in H.
    pose proof (wsum_lookup_le w_live _ _ _ Hw) as Hlive.
    destruct pc; try done.
    + unfold chan_recv in H. by repeat case_match.
    + unfold chan_send in H.
      destruct (closed (processedData st)) eqn:Hcl; [|by repeat case_match].
      assert (wsum w_live (workers st) = 0%nat) as Hz by intuition.
      unfold w_live in Hlive at 1. simpl in Hlive. lia.
    + unfold wg_done, wg_add in H.
      destruct (processWg st + -1 <? 0) eqn:Hwg; [|done].
      unfold w_live in Hlive at 1. simpl in Hlive. lia.
  - unfold closer2_step, wg_wait, chan_close in H.
    destruct (closer2 st) eqn:Hc; try done.
    + by destruct (processWg st =? 0).
    + destruct (closed (processedData st)) eqn:Hcl; [|done].
      assert (CClose = CDone) by intuition. done.
  - unfold outputPipeline_step, chan_recv in H. by repeat case_match.
Qed.

(** ** Some goroutine can always run *)

Lemma fetch_enabled fc s :
  fetch_inv fc -> returned fc = false ->
  exists a fc' s', fetchWithTimeout_step a fc s = Step (fc', s').
Proof.
  intros Hfi Hr.
  destruct (fetch_can_return fc s Hfi Hr) as (sched & fc' & s' & _ & Hrun & Hret).
  destruct sched as [|a rest]; simpl in Hrun.
  - simplify_eq. congruence.
  - destruct (fetchWithTimeout_step a fc s) as [|[fc1 s1]|] eqn:E; try done. eauto.
Qed.

(** A stage-1 closure that has not run its [fetchWg.Done()] can run when
    the queue in front of it has room. *)
Lemma fetcher_enabled cfg st i f :
  inv cfg st -> fetchers st !! i = Some f -> f_live f = 1%nat ->
  closed (fetchedData st) = false ->
  (length (buf (fetchedData st)) < cap (fetchedData st))%nat ->
  exists a st', exec cfg a st = Step st'.
Proof.
  intros Hinv Hi Hlive Hcl Hroom. destruct f as [fc pc].
  pose proof (Forall_lookup_1 _ _ _ _ (i_fetchers _ _ Hinv) Hi) as [Hfi Hpc].
  pose proof (wsum_lookup_le f_live _ _ _ Hi) as Hle.
  pose proof (i_fwg _ _ Hinv) as Hwg.
  simpl in *. destruct pc; simpl in *.
  - destruct (returned fc) eqn:Hr.
    + exists (AFetcher i). simpl. unfold fetcher_step. rewrite Hi. simpl.
      unfold returned in Hr. pose proof (fi_pc _ Hfi) as Hret.
      destruct (fc_pc fc) as [| | | |response err]; try done.
      destruct Hret as [(r & -> & -> & _) | [-> ->]]; eauto.
    + destruct (fetch_enabled fc (stats st) Hfi Hr) as (a & fc' & s' & E).
      exists (AFetch i a). simpl. unfold fetch_step. rewrite Hi. simpl.
      rewrite E. eauto.
  - exists (AFetcher i). simpl. unfold fetcher_step, chan_send. rewrite Hi. simpl.
    rewrite Hcl. apply Nat.ltb_lt in Hroom. rewrite Hroom. eauto.
  - exists (AFetcher i). simpl. unfold fetcher_step, wg_done, wg_add. rewrite Hi. simpl.
    unfold f_live in Hle at 1. simpl in Hle.
    destruct (fetchWg st + -1 <? 0) eqn:E; [lia | eauto].
  - done.
Qed.

(** While the first queue is open and empty, stage 1 can run. *)
Lemma stage1_progress cfg st :
  inv cfg st -> (1 <= queueCapacity cfg)%nat ->
  mainpc st <> MFetchLoop -> closed (fetchedData st) = false ->
  buf (fetchedData st) = [] ->
  exists a st', exec cfg a st = Step st'.
Proof.
  intros Hinv Hcap Hm Hcl Hb.
  pose proof (i_c1_start _ _ Hinv) as Hs. pose proof (i_c1_closed _ _ Hinv) as Hc.
  pose proof (i_fwg _ _ Hinv) as Hwg.
  destruct (closer1 st) eqn:Hc1.
  - exfalso. intuition.
  - destruct (fetchWg st =? 0) eqn:Hz.
    + exists ACloser1. simpl. unfold closer1_step, wg_wait. rewrite Hc1, Hz. eauto.
    + assert (0 < wsum f_live (fetchers st))%nat as Hpos by lia.
      destruct (wsum_pos_lookup f_live _ Hpos) as (i & f & Hi & Hf).
      apply (fetcher_enabled cfg st i f Hinv Hi); [|done|].
      * unfold f_live in *. destruct (f_pc f); lia.
      * rewrite Hb, (i_fd_cap _ _ Hinv). simpl. lia.
  - exists ACloser1. simpl. unfold closer1_step, chan_close. rewrite Hc1, Hcl. eauto.
  - exfalso. intuition congruence.
Qed.

Lemma worker_enabled cfg st w wk :
  inv cfg st -> (1 <= queueCapacity cfg)%nat ->
  workers st !! w = Some wk -> w_live wk = 1%nat ->
  closed (processedData st) = false -> buf (processedData st) = [] ->
  exists a st', exec cfg a st = Step st'.
Proof.
  intros Hinv Hcap Hw Hlive Hcl Hb. destruct wk as [id pc].
  pose proof (wsum_lookup_le w_live _ _ _ Hw) as Hle.
  pose proof (i_wwg _ _ Hinv) as Hwg.
  destruct pc; simpl in *.
  - destruct (chan_recv (fetchedData st)) as [|job c|] eqn:E.
    + unfold chan_recv in E.
      destruct (buf (fetchedData st)) eqn:Hbf; [|done].
      destruct (closed (fetchedData st)) eqn:Hclf; [done |].
      apply (stage1_progress cfg st Hinv Hcap); try done.
      intros Hm. rewrite (i_wnone _ _ Hinv Hm) in Hw. done.
    + exists (AWorker w). simpl. unfold processingWorker_step. rewrite Hw. simpl.
      rewrite E. eauto.
    + exists (AWorker w). simpl. unfold processingWorker_step. rewrite Hw. simpl.
      rewrite E. eauto.
  - exists (AWorker w). simpl. unfold processingWorker_step. rewrite Hw. simpl. eauto.
  - exists (AWorker w). simpl. unfold processingWorker_step, chan_send. rewrite Hw. simpl.
    rewrite Hcl, Hb, (i_pd_cap _ _ Hinv). simpl.
    destruct (0 <? queueCapacity cfg)%nat eqn:E; [eauto |].
    apply Nat.ltb_ge in E. lia.
  - exists (AWorker w). simpl. unfold processingWorker_step, wg_done, wg_add.
    rewrite Hw. simpl. unfold w_live in Hle at 1. simpl in Hle.
    destruct (processWg st + -1 <? 0) eqn:E; [lia | eauto].
  - done.
Qed.

(** While the second queue is open and empty, stage 2 or stage 1 can run. *)
Lemma stage2_progress cfg st :
  inv cfg st -> (numWorkers cfg = 0 \/ 1 <= queueCapacity cfg)%nat ->
  mainpc st <> MFetchLoop -> mainpc st <> MWorkerLoop ->
  closed (processedData st) = false -> buf (processedData st) = [] ->
  exists a st', exec cfg a st = Step st'.
Proof.
  intros Hinv Hcap Hm1 Hm2 Hcl Hb.
  pose proof (i_c2_start _ _ Hinv) as Hs. pose proof (i_c2_closed _ _ Hinv) as Hc.
  pose proof (i_wwg _ _ Hinv) as Hwg. pose proof (i_wall _ _ Hinv Hm1 Hm2) as Hall.
  destruct (closer2 st) eqn:Hc2.
  - exfalso. intuition.
  - destruct (processWg st =? 0) eqn:Hz.
    + exists ACloser2. simpl. unfold closer2_step, wg_wait. rewrite Hc2, Hz. eauto.
    + assert (0 < wsum w_live (workers st))%nat as Hpos by lia.
      destruct (wsum_pos_lookup w_live _ Hpos) as (w & wk & Hw & Hwk).
      pose proof (lookup_lt_Some _ _ _ Hw) as Hlt.
      apply (worker_enabled cfg st w wk Hinv); try done; [lia |].
      unfold w_live in *. destruct (w_pc wk); lia.
  - exists ACloser2. simpl. unfold closer2_step, chan_close. rewrite Hc2, Hcl. eauto.
  - exfalso. intuition congruence.
Qed.

Lemma inv_progress cfg st :
  inv cfg st -> (numWorkers cfg = 0 \/ 1 <= queueCapacity cfg)%nat ->
  mainpc st <> MReturned -> exists a st', exec cfg a st = Step st'.
Proof.
  intros Hinv Hcap Hm.
  pose proof (i_fwg _ _ Hinv) as Hfwg. pose proof (i_wwg _ _ Hinv) as Hwwg.
  destruct (mainpc st) eqn:Hmp; try done.
  - exists AMain. simpl. unfold demonstrateIntegrated_step, wg_add. rewrite Hmp.
    destruct (sources cfg !! length (fetchers st)); [|eauto].
    destruct (fetchWg st + 1 <? 0) eqn:E; [lia | eauto].
  - exists AMain. simpl. unfold demonstrateIntegrated_step, wg_add. rewrite Hmp.
    destruct (length (workers st) <? numWorkers cfg)%nat; [|eauto].
    destruct (processWg st + 1 <? 0) eqn:E; [lia | eauto].
  - exists AMain. simpl. unfold demonstrateIntegrated_step. rewrite Hmp. eauto.
  - pose proof (i_out_start _ _ Hinv) as Hos. pose proof (i_out_done _ _ Hinv) as Hod.
    destruct (output st) eqn:Ho.
    + exfalso. rewrite Hmp in Hos. intuition congruence.
    + destruct (chan_recv (processedData st)) as [|r c|] eqn:E.
      * unfold chan_recv in E.
        destruct (buf (processedData st)) eqn:Hb; [|done].
        destruct (closed (processedData st)) eqn:Hcl; [done |].
        apply (stage2_progress cfg st Hinv Hcap); congruence.
      * exists AOutput. simpl. unfold outputPipeline_step. rewrite Ho, E. eauto.
      * exists AOutput. simpl. unfold outputPipeline_step. rewrite Ho, E. eauto.
    + exists AOutput. simpl. unfold outputPipeline_step. rewrite Ho, Hmp. eauto.
    + exfalso. rewrite Hmp in Hod. intuition congruence.
  - exists AMain. simpl. unfold demonstrateIntegrated_step. rewrite Hmp. eauto.
Qed.

(** From a state of the invariant, [demonstrateIntegrated] can be run to
    its end, in no more statements than the measure. *)
Lemma inv_can_finish cfg :
  int_fits cfg -> (numWorkers cfg = 0 \/ 1 <= queueCapacity cfg)%nat ->
  forall n st, inv cfg st -> (measure cfg st <= n)%nat ->
  exists sched st',
    (length sched <= n)%nat /\ run cfg sched st = Step st' /\ mainpc st' = MReturned.
Proof.
  intros Hfit Hcap n. induction n as [|n IH]; intros st Hinv Hn.
  - assert (mainpc st = MReturned \/ mainpc st <> MReturned) as [Hm | Hm]
      by (destruct (mainpc st); auto; by right).
    + exists [], st. simpl. auto.
    + destruct (inv_progress cfg st Hinv Hcap Hm) as (a & st' & E).
      pose proof (exec_measure _ _ _ _ E). lia.
  - assert (mainpc st = MReturned \/ mainpc st <> MReturned) as [Hm | Hm]
      by (destruct (mainpc st); auto; by right).
    + exists [], st. simpl. split; [lia | auto].
    + destruct (inv_progress cfg st Hinv Hcap Hm) as (a & st1 & E).
      pose proof (exec_measure _ _ _ _ E) as Hlt.
      destruct (IH st1) as (sched & st' & Hlen & Hrun & Hend).
      * by eapply exec_inv.
      * lia.
      * exists (a :: sched), st'. simpl. rewrite E. split; [lia | auto].
Qed.

(** * The claims *)

(** ** [fetchWithTimeout] *)


Lemma late_fetch_reachable :
  fetch_reachable "API-3" (MkStats 0 0 0) (fst late_fetch) (snd late_fetch).
Proof.
  eapply fetch_run_reachable with (sched := late_fetch_schedule);
    [apply fetch_reach_init | vm_compute; reflexivity].
Qed.


(** The late answer of [late_fetch] is in the buffer, the caller got the
    timeout, and [errors] was incremented once. *)
Example late_fetch_discarded :
  fc_pc (fst late_fetch) = FReturned None (Some "timeout fetching from API-3")
  /\ buf (responseChan (fst late_fetch)) = [fetched_response "API-3" 700000000]
  /\ snd late_fetch = MkStats 0 0 1.
Proof. vm_compute. done. Qed.

(** C10.  The underlying-error outcome of [fetchWithTimeout] cannot
    happen: nothing is ever sent on [errorChan], so the select never takes
    that case, the only error a call returns is the timeout error, and a
    call that returns without it returns a response. *)
Theorem fetchWithTimeout_error_is_timeout
    (source : string) (stats0 : Stats) (fc : fetch_call) (stats : Stats) :
  fetch_reachable source stats0 fc stats ->
  errorChan fc = make_chan 1
  /\ (forall s, fetchWithTimeout_step SelectError fc s = Blocked)
  /\ (forall e, fc_pc fc <> FGotError e)
  /\ (forall response err, fc_pc fc = FReturned response err ->
        (response = None /\ err = Some (timeout_error source))
        \/ (err = None /\ exists r, response = Some r /\ Source r = source)).
Proof.
  intros Hr. destruct (fetch_reachable_inv _ _ _ _ Hr) as [Hfi Hsrc].
  pose proof (fi_pc _ Hfi) as Hret. pose proof (fi_error _ Hfi) as Herr.
  repeat split.
  - done.
  - intros s. unfold fetchWithTimeout_step, chan_recv. rewrite Herr. simpl.
    by destruct (fc_pc fc).
  - intros e He. by rewrite He in Hret.
  - intros response err Hpc. rewrite Hpc, Hsrc in Hret.
    destruct Hret as [(r & -> & -> & Hs) | [-> ->]]; [right | left]; eauto.
Qed.

Lemma fetchWithTimeout_error_is_timeout_witness :
  errorChan (fst late_fetch) = make_chan 1
  /\ (forall s, fetchWithTimeout_step SelectError (fst late_fetch) s = Blocked)
  /\ (forall e, fc_pc (fst late_fetch) <> FGotError e)
  /\ (forall response err, fc_pc (fst late_fetch) = FReturned response err ->
        (response = None /\ err = Some (timeout_error "API-3"))
        \/ (err = None /\ exists r, response = Some r /\ Source r = "API-3")).
Proof.
  apply (fetchWithTimeout_error_is_timeout "API-3" (MkStats 0 0 0) _ (snd late_fetch)).
  apply late_fetch_reachable.
Defined.

(** ** The pipeline *)

Lemma fetcher_ok_or_err f :
  fetcher_inv f ->
  (f_ok f + f_err f)%nat = if returned (f_call f) then 1%nat else 0%nat.
Proof.
  intros [Hfi _]. pose proof (fi_pc _ Hfi) as Hret.
  unfold f_ok, f_err, returned.
  destruct (fc_pc (f_call f)) as [| | | |response err]; try done.
  by destruct Hret as [(r & -> & -> & _) | [-> ->]].
Qed.

Lemma fetchers_all_returned (l : list fetcher) :
  Forall fetcher_inv l -> wsum f_live l = 0%nat ->
  Forall (fun f => returned (f_call f) = true) l
  /\ (wsum f_ok l + wsum f_err l = length l)%nat.
Proof.
  induction 1 as [|f l Hf Hl IH]; simpl; intros Hz; [done |].
  destruct IH as [IH1 IH2]; [lia |].
  assert (returned (f_call f) = true) as Hret.
  { destruct Hf as [_ Hpc]. unfold f_live, returned in *.
    destruct (f_pc f); try lia. by destruct Hpc as (? & ? & ->). }
  pose proof (fetcher_ok_or_err f Hf) as Hone. rewrite Hret in Hone.
  split; [by constructor | lia].
Qed.

Lemma demo_fits : int_fits demo_config.
Proof. unfold int_fits. vm_compute. done. Qed.

Lemma demo_final_reachable :
  reachable demo_config (state_after demo_config demo_schedule).
Proof.
  eapply run_reachable with (sched := demo_schedule);
    [apply reach_init | vm_compute; reflexivity].
Qed.

Lemma demo_timeout_reachable :
  reachable demo_config (state_after demo_config demo_schedule_timeout).
Proof.
  eapply run_reachable with (sched := demo_schedule_timeout);
    [apply reach_init | vm_compute; reflexivity].
Qed.

(** C1.  In every state of a run the two counters count the calls of
    [fetchWithTimeout] that have returned: [totalFetched] those that
    returned a response, [errors] those that returned an error, and each
    call is in exactly one of the two once it has returned; there is one
    call per source, in order.  When the run completes (the main goroutine
    has received [done]), every source has had its call, every call has
    returned, and [totalFetched + errors] is the number of sources, in the
    counters and in the line [Print] prints. *)
Theorem pipeline_fetched_plus_errors (cfg : Config) (st : state) :
  int_fits cfg -> (1 <= numWorkers cfg)%nat -> reachable cfg st ->
  totalFetched (stats st) = Z.of_nat (wsum f_ok (fetchers st))
  /\ errors (stats st) = Z.of_nat (wsum f_err (fetchers st))
  /\ (forall i f, fetchers st !! i = Some f ->
        sources cfg !! i = Some (fc_source (f_call f))
        /\ (f_ok f + f_err f)%nat = if returned (f_call f) then 1%nat else 0%nat)
  /\ (mainpc st = MPrint \/ mainpc st = MReturned ->
      length (fetchers st) = length (sources cfg)
      /\ Forall (fun f => returned (f_call f) = true) (fetchers st)
      /\ totalFetched (stats st) + errors (stats st) = Z.of_nat (length (sources cfg))
      /\ forall f p e, printedStats st = Some (f, p, e) ->
                       f + e = Z.of_nat (length (sources cfg))).
Proof.
  intros Hfit Hw Hr. pose proof (reachable_inv cfg st Hfit Hr) as Hinv.
  split; [apply (i_fetched _ _ Hinv) |].
  split; [apply (i_errors _ _ Hinv) |].
  split.
  - intros i f Hi. split; [by apply (i_fsrc _ _ Hinv) |].
    apply fetcher_ok_or_err. exact (Forall_lookup_1 _ _ _ _ (i_fetchers _ _ Hinv) Hi).
  - intros Hm.
    destruct (inv_all_done cfg st Hinv Hw) as (Hlen & _ & Hq & _).
    { right. by apply (i_out_done _ _ Hinv). }
    destruct (fetchers_all_returned _ (i_fetchers _ _ Hinv) Hq) as [Hall Hsum].
    assert (totalFetched (stats st) + errors (stats st)
            = Z.of_nat (length (sources cfg))) as Htot.
    { rewrite (i_fetched _ _ Hinv), (i_errors _ _ Hinv). lia. }
    repeat split; try done.
    intros f p e Hp. pose proof (i_print _ _ Hinv Hw _ Hp) as Ht.
    unfold snapshot in Ht. simplify_eq. done.
Qed.

Lemma pipeline_fetched_plus_errors_witness :
  let st := state_after demo_config demo_schedule_timeout in
  totalFetched (stats st) = 4 /\ errors (stats st) = 1
  /\ length (fetchers st) = length (sources demo_config)
  /\ Forall (fun f => returned (f_call f) = true) (fetchers st)
  /\ totalFetched (stats st) + errors (stats st) = Z.of_nat (length (sources demo_config))
  /\ forall f p e, printedStats st = Some (f, p, e) ->
                   f + e = Z.of_nat (length (sources demo_config)).
Proof.
  intros st.
  destruct (pipeline_fetched_plus_errors demo_config st) as (Hf & He & _ & Hdone).
  - apply demo_fits.
  - simpl. lia.
  - apply demo_timeout_reachable.
  - split; [exact Hf |]. split; [exact He |]. apply Hdone. right. reflexivity.
Defined.

(** The two scenarios of the demo: five fetches in time, and one of the
    five too late. *)
Example demo_all_in_time :
  let st := state_after demo_config demo_schedule in
  mainpc st = MReturned /\ printedStats st = Some (5, 5, 0)
  /\ (PSource <$> printed st) = ["API-1"; "API-2"; "API-3"; "API-4"; "API-5"].
Proof. vm_compute. done. Qed.

Example demo_one_timeout :
  let st := state_after demo_config demo_schedule_timeout in
  mainpc st = MReturned /\ printedStats st = Some (4, 4, 1)
  /\ (PSource <$> printed st) = ["API-1"; "API-2"; "API-4"; "API-5"].
Proof. vm_compute. done. Qed.

(** C3.  In every state of a run [totalProcessed <= totalFetched] (and
    neither is negative); no transform of a worker can fail, and when the
    run completes the two are equal, in the counters and in the printed
    line. *)
Theorem pipeline_processed_le_fetched (cfg : Config) (st : state) :
  int_fits cfg -> reachable cfg st ->
  0 <= totalProcessed (stats st) <= totalFetched (stats st)
  /\ ((1 <= numWorkers cfg)%nat -> mainpc st = MPrint \/ mainpc st = MReturned ->
      totalProcessed (stats st) = totalFetched (stats st)
      /\ forall f p e, printedStats st = Some (f, p, e) -> p = f).
Proof.
  intros Hfit Hr. pose proof (reachable_inv cfg st Hfit Hr) as Hinv.
  pose proof (i_fetched _ _ Hinv) as Hf. pose proof (i_processed _ _ Hinv) as Hp.
  pose proof (i_flow1 _ _ Hinv) as Hflow.
  split; [lia |].
  intros Hw Hm.
  destruct (inv_all_done cfg st Hinv Hw) as (Hlen & _ & Hq & Hwl & Hb1 & Hb2 & _).
  { right. by apply (i_out_done _ _ Hinv). }
  assert (wsum f_hold (fetchers st) = 0%nat) as Hh.
  { pose proof (i_fetchers _ _ Hinv) as Hall. clear -Hq Hall.
    induction Hall as [|f l Hfi _ IH]; simpl in *; [done |].
    rewrite IH by lia. unfold f_live, f_hold in *.
    destruct (f_pc f), (fc_pc (f_call f)) as [| | | |[?|] ?]; simpl in *; lia. }
  assert (wsum w_have (workers st) = 0%nat) as Hv.
  { clear -Hwl. induction (workers st) as [|w l IH]; simpl in *; [done |].
    rewrite IH by lia. unfold w_live, w_have in *. destruct (w_pc w); lia. }
  rewrite Hb1, Hh, Hv in Hflow. simpl in Hflow.
  assert (totalProcessed (stats st) = totalFetched (stats st)) as Heq by lia.
  split; [done |].
  intros f p e Hpr. pose proof (i_print _ _ Hinv Hw _ Hpr) as Ht.
  unfold snapshot in Ht. simplify_eq. done.
Qed.

Lemma pipeline_processed_le_fetched_witness :
  let st := state_after demo_config demo_schedule_timeout in
  0 <= totalProcessed (stats st) <= totalFetched (stats st)
  /\ totalProcessed (stats st) = totalFetched (stats st)
  /\ forall f p e, printedStats st = Some (f, p, e) -> p = f.
Proof.
  intros st.
  destruct (pipeline_processed_le_fetched demo_config st) as [Hle Hdone].
  - apply demo_fits.
  - apply demo_timeout_reachable.
  - split; [exact Hle |]. apply Hdone; [simpl; lia | right; reflexivity].
Defined.

(** C4.  With at least one worker and stage queues of capacity at least
    one: a stage queue is closed, and so its end is seen by a consumer,
    only when every producer of that queue has been started and has
    finished; no statement panics; in every state before the end of
    [demonstrateIntegrated] some goroutine can run; every statement uses up
    the measure, so no run goes on for ever; from every state the end is at
    most [measure] statements away; and at the end both stages are through
    and the output stage has signalled [done]. *)
Theorem pipeline_reaches_done (cfg : Config) (st : state) :
  int_fits cfg -> (1 <= numWorkers cfg)%nat -> (1 <= queueCapacity cfg)%nat ->
  reachable cfg st ->
  (closed (fetchedData st) = true ->
     length (fetchers st) = length (sources cfg) /\ wsum f_live (fetchers st) = 0%nat)
  /\ (closed (processedData st) = true ->
        length (workers st) = numWorkers cfg /\ wsum w_live (workers st) = 0%nat)
  /\ (chan_recv (fetchedData st) = RecvClosed -> closed (fetchedData st) = true)
  /\ (chan_recv (processedData st) = RecvClosed -> closed (processedData st) = true)
  /\ (forall a m, exec cfg a st <> Crash m)
  /\ (mainpc st <> MReturned -> exists a st', exec cfg a st = Step st')
  /\ (forall a st', exec cfg a st = Step st' -> (measure cfg st' < measure cfg st)%nat)
  /\ (exists sched st',
        (length sched <= measure cfg st)%nat
        /\ run cfg sched st = Step st' /\ mainpc st' = MReturned)
  /\ (mainpc st = MReturned -> quiescent_stages st /\ output st = ODone).
Proof.
  intros Hfit Hw Hcap Hr. pose proof (reachable_inv cfg st Hfit Hr) as Hinv.
  split; [|split; [|split; [|split; [|split; [|split; [|split; [|split]]]]]]].
  - intros Hcl. apply (i_c1_closed _ _ Hinv) in Hcl.
    split; [|apply (i_c1_wait _ _ Hinv); auto].
    apply (i_fall _ _ Hinv). intros Hm. apply (i_c1_start _ _ Hinv) in Hm. congruence.
  - intros Hcl. apply (i_c2_closed _ _ Hinv) in Hcl.
    split; [|apply (i_c2_wait _ _ Hinv); auto].
    pose proof (i_c2_start _ _ Hinv) as Hs.
    apply (i_wall _ _ Hinv); intros Hm; assert (closer2 st = CNotStarted) by tauto;
      congruence.
  - unfold chan_recv. by repeat case_match.
  - unfold chan_recv. by repeat case_match.
  - intros a m. by apply inv_no_crash.
  - intros Hm. apply inv_progress; auto.
  - intros a st' Hstep. by eapply exec_measure.
  - apply inv_can_finish; auto.
  - intros Hm. pose proof (proj2 (i_out_done _ _ Hinv) (or_intror Hm)) as Ho.
    split; [|done]. apply (inv_all_done cfg st Hinv Hw). auto.
Qed.

Lemma worker_sending_reachable : reachable demo_config worker_sending.
Proof.
  eapply run_reachable with (sched := worker_sending_schedule);
    [apply reach_init | vm_compute; reflexivity].
Qed.

Lemma pipeline_reaches_done_witness :
  (closed (fetchedData worker_sending) = true ->
     length (fetchers worker_sending) = length (sources demo_config)
     /\ wsum f_live (fetchers worker_sending) = 0%nat)
  /\ (closed (processedData worker_sending) = true ->
        length (workers worker_sending) = numWorkers demo_config
        /\ wsum w_live (workers worker_sending) = 0%nat)
  /\ (chan_recv (fetchedData worker_sending) = RecvClosed ->
      closed (fetchedData worker_sending) = true)
  /\ (chan_recv (processedData worker_sending) = RecvClosed ->
      closed (processedData worker_sending) = true)
  /\ (forall a m, exec demo_config a worker_sending <> Crash m)
  /\ (exists a st', exec demo_config a worker_sending = Step st')
  /\ (forall a st', exec demo_config a worker_sending = Step st' ->
        (measure demo_config st' < measure demo_config worker_sending)%nat)
  /\ (exists sched st',
        (length sched <= measure demo_config worker_sending)%nat
        /\ run demo_config sched worker_sending = Step st' /\ mainpc st' = MReturned).
Proof.
  destruct (pipeline_reaches_done demo_config worker_sending)
    as (H1 & H2 & H3 & H4 & H5 & H6 & H7 & H8 & _).
  - apply demo_fits.
  - simpl. lia.
  - simpl. lia.
  - apply worker_sending_reachable.
  - split; [exact H1 |]. split; [exact H2 |]. split; [exact H3 |]. split; [exact H4 |].
    split; [exact H5 |]. split; [|split; [exact H7 | exact H8]].
    apply H6. vm_compute. discriminate.
Defined.

Lemma NoDup_sub_multiset {A : Type} (l k : list A) : NoDup k -> l ⊆+ k -> NoDup l.
Proof.
  intros Hk Hsub. apply submseteq_Permutation in Hsub as [k' Hp].
  rewrite Hp in Hk. by apply NoDup_app in Hk as [? _].
Qed.

(** C6.  The results that exist in a state of a run (held by a worker,
    queued for output, or printed) come from different input items: their
    sources, counted with multiplicity, are among the sources of the run,
    so with pairwise different sources no two results have the same one.
    The same holds of everything in flight; and receiving from the queue
    takes the item out of it, so that no other worker can receive it. *)
Theorem pipeline_one_result_per_item (cfg : Config) (st : state) :
  int_fits cfg -> reachable cfg st ->
  (PSource <$> results_of st) ⊆+ sources cfg
  /\ (NoDup (sources cfg) -> NoDup (PSource <$> results_of st))
  /\ all_sources cfg st ⊆+ sources cfg
  /\ (forall job c, chan_recv (fetchedData st) = RecvOk job c ->
        buf (fetchedData st) = job :: buf c).
Proof.
  intros Hfit Hr. pose proof (reachable_inv cfg st Hfit Hr) as Hinv.
  assert ((PSource <$> results_of st) ⊆+ sources cfg) as Hsub.
  { etransitivity; [|apply (i_items _ _ Hinv)].
    unfold results_of, all_sources. rewrite !fmap_app.
    do 3 apply submseteq_inserts_l.
    apply submseteq_app; [|done].
    clear. induction (workers st) as [|w l IH]; simpl; [done |].
    rewrite fmap_app. apply submseteq_app; [|done].
    unfold w_result, w_src.
    destruct (w_pc w); simpl; first [done | apply submseteq_nil_l]. }
  split; [done |]. split; [|split].
  - intros Hnd. by eapply NoDup_sub_multiset.
  - apply (i_items _ _ Hinv).
  - intros job c Hrecv. unfold chan_recv in Hrecv.
    destruct (buf (fetchedData st)); [by destruct (closed (fetchedData st)) |].
    by simplify_eq.
Qed.

Lemma pipeline_one_result_per_item_witness :
  let st := state_after demo_config demo_schedule in
  (PSource <$> results_of st) ⊆+ sources demo_config
  /\ NoDup (PSource <$> results_of st)
  /\ all_sources demo_config st ⊆+ sources demo_config.
Proof.
  intros st.
  destruct (pipeline_one_result_per_item demo_config st) as (H1 & H2 & H3 & _).
  - apply demo_fits.
  - apply demo_final_reachable.
  - split; [exact H1 |]. split; [|exact H3].
    apply H2. apply (bool_decide_unpack _). vm_compute. exact I.
Defined.

(** C7, as the spec states it, fails: a send on a closed stage queue does
    not hand an error value to the sender, it is a run-time panic.  Here
    the worker of [closed_too_early] sends its result on the closed
    [processedData]. *)
Lemma send_after_close_is_not_an_error_value :
  closed (processedData closed_too_early) = true
  /\ is_panic (exec demo_config (AWorker 0) closed_too_early) = true
  /\ is_panic (chan_send (processedData closed_too_early)
                         (transform 1 (fetched_response "API-1" 120000000))) = true.
Proof. vm_compute. done. Qed.

(** C7, amended.  A send on a stage queue that has been closed is the
    run-time panic "send on closed channel" of the sending goroutine, for
    every queue and every item: of the channel operation itself, of a
    stage-1 closure sending on [fetchedData], and of a worker sending on
    [processedData]. *)
Theorem send_after_close_panics (cfg : Config) (st : state) :
  (forall (A : Type) (c : chan A) (x : A),
     closed c = true -> chan_send c x = Crash "send on closed channel")
  /\ (forall i f r,
        fetchers st !! i = Some f -> f_pc f = GSend r ->
        closed (fetchedData st) = true ->
        exec cfg (AFetcher i) st = Crash "send on closed channel")
  /\ (forall w wk r,
        workers st !! w = Some wk -> w_pc wk = WSend r ->
        closed (processedData st) = true ->
        exec cfg (AWorker w) st = Crash "send on closed channel").
Proof.
  assert (forall (A : Type) (c : chan A) (x : A),
            closed c = true -> chan_send c x = Crash "send on closed channel") as Hsend.
  { intros A c x Hcl. unfold chan_send. by rewrite Hcl. }
  split; [done |]. split.
  - intros i f r Hi Hpc Hcl. simpl. unfold fetcher_step. rewrite Hi, Hpc.
    by rewrite Hsend.
  - intros w wk r Hw Hpc Hcl. simpl. unfold processingWorker_step. rewrite Hw, Hpc.
    by rewrite Hsend.
Qed.

Lemma send_after_close_panics_witness :
  chan_send (processedData closed_too_early)
            (transform 1 (fetched_response "API-1" 120000000))
  = Crash "send on closed channel"
  /\ exec demo_config (AWorker 0) closed_too_early = Crash "send on closed channel".
Proof.
  destruct (send_after_close_panics demo_config closed_too_early) as (H1 & _ & H3).
  split.
  - apply H1. vm_compute. reflexivity.
  - apply (H3 0%nat (MkWorker 1 (WSend (transform 1 (fetched_response "API-1" 120000000))))
              (transform 1 (fetched_response "API-1" 120000000)));
      vm_compute; reflexivity.
Defined.

(** ** A pool without workers

    [numWorkers] is the literal 3 of [demonstrateIntegrated].  In the
    semantics it is a field of the configuration, and the properties of
    the completed run above assume [1 <= numWorkers]: with no worker the
    run still returns, and prints the statistics 0, 0, 0 before any fetch
    has been counted. *)
Example completion_needs_a_worker :
  numWorkers no_workers_config = 0%nat
  /\ is_panic (exec no_workers_config AMain (init no_workers_config)) = false
  /\ run no_workers_config no_workers_schedule (init no_workers_config)
     = Step (state_after no_workers_config no_workers_schedule)
  /\ mainpc (state_after no_workers_config no_workers_schedule) = MReturned
  /\ printedStats (state_after no_workers_config no_workers_schedule) = Some (0, 0, 0).
Proof. vm_compute. done. Qed.

(** ** [processingWorker]: a failing transform *)

(** The pipeline semantics runs the function: a statement of a worker of
    the pipeline is the statement of [processingWorker] on its view. *)
Lemma worker_view_step (w : nat) (wk : worker) (st st' : state) :
  workers st !! w = Some wk -> processingWorker_step w st = Step st' ->
  exists wk',
    workers st' !! w = Some wk' /\ w_id wk' = w_id wk
    /\ ProcessingWorker.processingWorker_step (w_id wk) (worker_view wk st)
       = Step (worker_view wk' st').
Proof.
  intros Hw H. unfold processingWorker_step in H. rewrite Hw in H.
  pose proof (lookup_lt_Some _ _ _ Hw) as Hlt.
  assert (forall wk', <[w:=wk']> (workers st) !! w = Some wk') as Hnew.
  { intros wk'. by apply list_lookup_insert_eq. }
  destruct wk as [id p]. unfold worker_view, ProcessingWorker.processingWorker_step.
  destruct p as [|job|result| |]; simpl in *.
  - unfold chan_recv in *. simpl.
    destruct (buf (fetchedData st)) as [|job rest] eqn:Hb; simpl.
    + destruct (closed (fetchedData st)) eqn:Hcl; simplify_eq.
      eexists. split; [apply Hnew |]. split; [done |]. simpl. by rewrite Hb, Hcl.
    + simplify_eq. eexists. split; [apply Hnew |]. by split.
  - simplify_eq. eexists. split; [apply Hnew |]. by split.
  - destruct (chan_send (processedData st) result) as [|c|] eqn:E; simplify_eq.
    eexists. split; [apply Hnew |]. by split.
  - destruct (wg_done (processWg st)) as [|n|] eqn:E; simplify_eq.
    eexists. split; [apply Hnew |]. by split.
  - done.
Qed.

Section ProcessingWorkerProofs.
Import ProcessingWorker.


Lemma iter_processed_errors (n : nat) (s : Stats) :
  errors (Nat.iter n IncrementProcessed s) = errors s
  /\ totalFetched (Nat.iter n IncrementProcessed s) = totalFetched s.
Proof. induction n as [|n IH]; simpl; [done | apply IH]. Qed.









End ProcessingWorkerProofs.

(** ** The mutex of [Stats] *)

Lemma mutex_init_inv (s : Stats) : StatsMutex.inv (StatsMutex.init s).
Proof. split; simpl; [done | constructor]. Qed.

(** A call outside its critical section has read nothing it could hold
    stale. *)
Lemma mutex_reads_outside (s s' : Stats) (c : StatsMutex.call) :
  StatsMutex.holds c = 0%nat -> StatsMutex.reads_current s' c.
Proof. by destruct c. Qed.

(** When the call [t] holds the mutex, no other call does. *)
Lemma mutex_others_outside (l : list StatsMutex.call) (t : nat) (c : StatsMutex.call) :
  wsum StatsMutex.holds l = 1%nat -> l !! t = Some c -> StatsMutex.holds c = 1%nat ->
  forall j c', j <> t -> l !! j = Some c' -> StatsMutex.holds c' = 0%nat.
Proof.
  intros Hsum Ht Hc j c' Hne Hj.
  pose proof (wsum_lookup_le2 StatsMutex.holds l j t c' c Hne Hj Ht). lia.
Qed.

Lemma mutex_reads_insert (s : Stats) (l : list StatsMutex.call) (t : nat)
    (c : StatsMutex.call) :
  Forall (StatsMutex.reads_current s) l -> StatsMutex.reads_current s c ->
  Forall (StatsMutex.reads_current s) (<[t:=c]> l).
Proof. intros Hl Hc. by apply Forall_insert. Qed.

Ltac mutex_sum Ht :=
  match goal with
  | |- context [wsum ?g (<[?t:=?y]> ?l)] =>
      let Hw := fresh in pose proof (wsum_insert g l t _ y Ht) as Hw; simpl in Hw; lia
  end.

Lemma mutex_exec_inv (a : StatsMutex.action) (st st' : StatsMutex.state) :
  StatsMutex.inv st -> StatsMutex.exec a st = Step st' -> StatsMutex.inv st'.
Proof.
  intros [Hmu Hreads] H. destruct st as [s m l]. simpl in *.
  destruct a as [meth | t]; simpl in H.
  - simplify_eq. split; simpl.
    + rewrite wsum_snoc. destruct meth; simpl; lia.
    + apply Forall_app. split; [done |]. apply Forall_singleton. by destruct meth.
  - destruct (l !! t) as [c|] eqn:Ht; [|done].
    pose proof (Forall_lookup_1 _ _ _ _ Hreads Ht) as Hc.
    pose proof (wsum_lookup_le StatsMutex.holds _ _ _ Ht) as Hle.
    destruct c; simpl in *;
      unfold StatsMutex.lock, StatsMutex.unlock, StatsMutex.goto in H; simpl in H;
      try (destruct m; simplify_eq); simplify_eq;
      try (split; simpl;
           [ mutex_sum Ht | apply mutex_reads_insert; [done | by simpl; try tauto] ]; fail).
    + split; simpl; [mutex_sum Ht |].
      apply Forall_forall. intros c' Hin.
      apply list_elem_of_lookup in Hin as [j Hj].
      destruct (decide (j = t)) as [-> | Hne].
      * rewrite list_lookup_insert_eq in Hj by (by eapply lookup_lt_Some).
        by simplify_eq.
      * rewrite list_lookup_insert_ne in Hj by done.
        apply (mutex_reads_outside s).
        by apply (mutex_others_outside l t (StatsMutex.IncWrite c v) Hmu Ht eq_refl j).
    + lia.
    + destruct Hc as [-> ->].
      split; simpl; [mutex_sum Ht | by apply mutex_reads_insert].
    + lia.
Qed.

Lemma mutex_reachable_inv (s : Stats) (st : StatsMutex.state) :
  StatsMutex.reachable s st -> StatsMutex.inv st.
Proof.
  induction 1 as [|st a st' _ IH Hstep]; [apply mutex_init_inv | by eapply mutex_exec_inv].
Qed.

Lemma mutex_run_reachable (s : Stats) (sched : list StatsMutex.action)
    (st st' : StatsMutex.state) :
  StatsMutex.reachable s st -> StatsMutex.run sched st = Step st' ->
  StatsMutex.reachable s st'.
Proof.
  revert st. induction sched as [|a sched IH]; simpl; intros st Hr H.
  - by simplify_eq.
  - destruct (StatsMutex.exec a st) as [|st1|] eqn:E; try done.
    eapply IH; [|done]. by eapply StatsMutex.reach_step.
Qed.

(** Only the [++] of an increment changes the counters. *)
Lemma mutex_exec_counters (a : StatsMutex.action) (st st' : StatsMutex.state) :
  StatsMutex.is_increment st a = false -> StatsMutex.exec a st = Step st' ->
  StatsMutex.counters st' = StatsMutex.counters st.
Proof.
  intros Hni H. destruct a as [meth | t]; simpl in *; [by simplify_eq |].
  destruct (StatsMutex.calls st !! t) as [c|]; [|done].
  destruct c; try done;
    unfold StatsMutex.lock, StatsMutex.unlock, StatsMutex.goto in H;
    repeat case_match; by simplify_eq.
Qed.

Lemma mutex_run_counters (sched : list StatsMutex.action) (st st' : StatsMutex.state) :
  StatsMutex.no_increment sched st = true -> StatsMutex.run sched st = Step st' ->
  StatsMutex.counters st' = StatsMutex.counters st.
Proof.
  revert st. induction sched as [|a sched IH]; simpl; intros st Hni H.
  - by simplify_eq.
  - apply andb_true_iff in Hni as [Ha Hrest]. apply negb_true_iff in Ha.
    destruct (StatsMutex.exec a st) as [|st1|] eqn:E; try done.
    rewrite (IH st1 Hrest H). by eapply mutex_exec_counters.
Qed.

(** C5.  What [Print] prints is a coherent triple: all that a [Print] in
    its critical section has read is what the counters hold at that
    moment, so the line it has formatted when it reaches its [Unlock] is
    the snapshot of one state; the mutex is then really held (the [Unlock]
    does not fail).  Taking the snapshot does not change the counters, and
    neither does any statement but the [++] of an increment; so two
    snapshots with no such statement between them are the same triple. *)
Theorem stats_snapshot_coherent (s0 : Stats) (st : StatsMutex.state) :
  StatsMutex.reachable s0 st ->
  (forall t f p e,
     StatsMutex.calls st !! t = Some (StatsMutex.PrintUnlock f p e) ->
     (f, p, e) = snapshot (StatsMutex.counters st) /\ StatsMutex.mu st = true)
  /\ (forall t c, StatsMutex.calls st !! t = Some c ->
        StatsMutex.reads_current (StatsMutex.counters st) c)
  /\ (forall a st',
        StatsMutex.is_increment st a = false -> StatsMutex.exec a st = Step st' ->
        StatsMutex.counters st' = StatsMutex.counters st)
  /\ (forall sched st' t1 t2 f1 p1 e1 f2 p2 e2,
        StatsMutex.no_increment sched st = true ->
        StatsMutex.run sched st = Step st' ->
        StatsMutex.calls st !! t1 = Some (StatsMutex.PrintUnlock f1 p1 e1) ->
        StatsMutex.calls st' !! t2 = Some (StatsMutex.PrintUnlock f2 p2 e2) ->
        (f1, p1, e1) = (f2, p2, e2))
  /\ (forall s, fst (Print s) = snapshot s /\ snd (Print s) = s
                /\ Print (snd (Print s)) = Print s).
Proof.
  intros Hr. pose proof (mutex_reachable_inv s0 st Hr) as [Hmu Hreads].
  assert (forall t f p e,
            StatsMutex.calls st !! t = Some (StatsMutex.PrintUnlock f p e) ->
            (f, p, e) = snapshot (StatsMutex.counters st) /\ StatsMutex.mu st = true)
    as Hsnap.
  { intros t f p e Ht. split.
    - exact (Forall_lookup_1 _ _ _ _ Hreads Ht).
    - pose proof (wsum_lookup_le StatsMutex.holds _ _ _ Ht) as Hle. simpl in Hle.
      destruct (StatsMutex.mu st); [done | lia]. }
  split; [done |]. split; [|split; [|split]].
  - intros t c Ht. exact (Forall_lookup_1 _ _ _ _ Hreads Ht).
  - intros a st'. apply mutex_exec_counters.
  - intros sched st' t1 t2 f1 p1 e1 f2 p2 e2 Hni Hrun H1 H2.
    destruct (Hsnap _ _ _ _ H1) as [E1 _].
    pose proof (mutex_run_reachable s0 sched st st' Hr Hrun) as Hr'.
    pose proof (mutex_reachable_inv s0 st' Hr') as [_ Hreads'].
    pose proof (Forall_lookup_1 _ _ _ _ Hreads' H2) as E2. simpl in E2.
    rewrite E1, E2. by rewrite (mutex_run_counters sched st st' Hni Hrun).
  - intros s. by destruct s.
Qed.

Lemma first_print_reachable :
  StatsMutex.reachable (MkStats 4 4 1)
    (StatsMutex.state_after (MkStats 4 4 1) StatsMutex.first_print).
Proof.
  eapply mutex_run_reachable with (sched := StatsMutex.first_print);
    [apply StatsMutex.reach_init | vm_compute; reflexivity].
Qed.

Lemma stats_snapshot_coherent_witness :
  let st := StatsMutex.state_after (MkStats 4 4 1) StatsMutex.first_print in
  let st' := StatsMutex.state_after (MkStats 4 4 1)
               (StatsMutex.first_print ++ StatsMutex.second_print) in
  StatsMutex.calls st !! 0%nat = Some (StatsMutex.PrintUnlock 4 4 1)
  /\ StatsMutex.calls st' !! 2%nat = Some (StatsMutex.PrintUnlock 4 4 1)
  /\ ((4, 4, 1) = snapshot (StatsMutex.counters st) /\ StatsMutex.mu st = true)
  /\ (4, 4, 1) = (4, 4, 1).
Proof.
  intros st st'.
  destruct (stats_snapshot_coherent (MkStats 4 4 1) st first_print_reachable)
    as (H1 & _ & _ & H4 & _).
  split; [vm_compute; reflexivity |]. split; [vm_compute; reflexivity |].
  split.
  - apply (H1 0%nat). vm_compute. reflexivity.
  - apply (H4 StatsMutex.second_print st' 0%nat 2%nat); vm_compute; reflexivity.
Defined.

(** * Further properties of the integrated demo *)

(** ** The stage queues are large enough *)

(** With queues of capacity [len(sources)], as [demonstrateIntegrated]
    makes them, no send on a stage queue ever blocks (or panics): a
    stage-1 closure that holds a response and a worker that holds a result
    can always send it. *)
Theorem stage_sends_never_block (cfg : Config) (st : state) :
  int_fits cfg -> (length (sources cfg) <= queueCapacity cfg)%nat -> reachable cfg st ->
  (forall i f r, fetchers st !! i = Some f -> f_pc f = GSend r ->
     exists c, chan_send (fetchedData st) r = Step c
               /\ exec cfg (AFetcher i) st
                  = Step (set_fetcher st i (MkFetcher (f_call f) GExit) (stats st) c
                                      (fetchWg st)))
  /\ (forall w wk result, workers st !! w = Some wk -> w_pc wk = WSend result ->
        exists c, chan_send (processedData st) result = Step c
                  /\ exec cfg (AWorker w) st
                     = Step (set_worker st w (MkWorker (w_id wk) WRecv) (stats st)
                                        (fetchedData st) c (processWg st))).
Proof.
  intros Hfit Hcap Hr. pose proof (reachable_inv cfg st Hfit Hr) as Hinv.
  pose proof (wsum_f_ok_le (fetchers st)) as Hok.
  pose proof (i_flen _ _ Hinv) as Hlen. pose proof (i_flow1 _ _ Hinv) as Hflow.
  pose proof (i_processed _ _ Hinv) as Hproc.
  split.
  - intros i [fc pc] r Hi Hpc. simpl in Hpc. subst pc.
    pose proof (Forall_lookup_1 _ _ _ _ (i_fetchers _ _ Hinv) Hi) as [_ Hret].
    simpl in Hret.
    pose proof (wsum_lookup_le f_hold _ _ _ Hi) as Hh.
    pose proof (wsum_lookup_le f_live _ _ _ Hi) as Hl.
    unfold f_hold in Hh at 1. unfold f_live in Hl at 1. simpl in Hh, Hl.
    rewrite Hret in Hh.
    assert (closed (fetchedData st) = false) as Hcl.
    { destruct (closed (fetchedData st)) eqn:E; [|done].
      apply (i_c1_closed _ _ Hinv) in E.
      pose proof (i_c1_wait _ _ Hinv (or_intror E)). lia. }
    assert ((length (buf (fetchedData st)) <? cap (fetchedData st))%nat = true) as Hroom.
    { apply Nat.ltb_lt. rewrite (i_fd_cap _ _ Hinv). lia. }
    unfold chan_send. rewrite Hcl, Hroom. eexists. split; [done |].
    simpl. unfold fetcher_step, chan_send. rewrite Hi. simpl. by rewrite Hcl, Hroom.
  - intros w [id pc] result Hw Hpc. simpl in Hpc. subst pc.
    pose proof (wsum_lookup_le w_send _ _ _ Hw) as Hs.
    pose proof (wsum_lookup_le w_live _ _ _ Hw) as Hl.
    unfold w_send in Hs at 1. unfold w_live in Hl at 1. simpl in Hs, Hl.
    assert (closed (processedData st) = false) as Hcl.
    { destruct (closed (processedData st)) eqn:E; [|done].
      apply (i_c2_closed _ _ Hinv) in E.
      pose proof (i_c2_wait _ _ Hinv (or_intror E)). lia. }
    assert ((length (buf (processedData st)) <? cap (processedData st))%nat = true)
      as Hroom.
    { apply Nat.ltb_lt. rewrite (i_pd_cap _ _ Hinv). lia. }
    unfold chan_send. rewrite Hcl, Hroom. eexists. split; [done |].
    simpl. unfold processingWorker_step, chan_send. rewrite Hw. simpl.
    by rewrite Hcl, Hroom.
Qed.

Lemma stage_sends_never_block_witness :
  exists c,
    chan_send (processedData worker_sending)
              (transform 1 (fetched_response "API-1" 120000000)) = Step c
    /\ exec demo_config (AWorker 0) worker_sending
       = Step (set_worker worker_sending 0 (MkWorker 1 WRecv) (stats worker_sending)
                          (fetchedData worker_sending) c (processWg worker_sending)).
Proof.
  destruct (stage_sends_never_block demo_config worker_sending) as [_ H].
  - apply demo_fits.
  - simpl. lia.
  - apply worker_sending_reachable.
  - apply (H 0%nat (MkWorker 1 (WSend (transform 1 (fetched_response "API-1" 120000000)))));
      vm_compute; reflexivity.
Defined.

(** ** Every source is accounted for *)

Lemma fetch_step_accounted a fc s fc' s' pc :
  fetcher_inv (MkFetcher fc pc) ->
  fetchWithTimeout_step a fc s = Step (fc', s') ->
  f_src (MkFetcher fc' pc) ++ f_dropped (MkFetcher fc' pc)
  = f_src (MkFetcher fc pc) ++ f_dropped (MkFetcher fc pc).
Proof.
  intros [Hfi Hpc] H. simpl in *.
  pose proof (fetch_step_source _ _ _ _ _ H) as Hsrc.
  assert (pc = GInFetch \/ returned fc = true) as [-> | Hret].
  { unfold returned. destruct pc; auto; right.
    - by rewrite Hpc.
    - by destruct Hpc as (? & ? & ->).
    - by destruct Hpc as (? & ? & ->). }
  - clear Hsrc Hfi Hpc. destruct_fetch fc.
    destruct a; fetch_cases H; unfold f_src, f_dropped; simpl; done.
  - destruct (fetch_returned_stable _ _ _ _ _ Hret H) as [E _].
    unfold f_src, f_dropped. simpl. by rewrite E, Hsrc.
Qed.

Lemma flat_map_insert_pair {A B : Type} (g h : A -> list B) (l : list A) (i : nat) (x y : A) :
  l !! i = Some x -> g y ++ h y ≡ₚ g x ++ h x ->
  flat_map g (<[i:=y]> l) ++ flat_map h (<[i:=y]> l) ≡ₚ flat_map g l ++ flat_map h l.
Proof.
  revert i. induction l as [|z l IH]; intros [|i] H E; simpl in *; try done.
  - injection H as ->.
    transitivity ((g y ++ h y) ++ flat_map g l ++ flat_map h l); [solve_Permutation |].
    rewrite E. solve_Permutation.
  - specialize (IH i H E).
    transitivity ((g z ++ h z) ++ flat_map g (<[i:=y]> l) ++ flat_map h (<[i:=y]> l));
      [solve_Permutation |].
    rewrite IH. solve_Permutation.
Qed.

Lemma worker_step_items_perm cfg w st st' :
  processingWorker_step w st = Step st' -> all_sources cfg st' ≡ₚ all_sources cfg st.
Proof.
  intros H. unfold processingWorker_step in H.
  destruct (workers st !! w) as [[id pc]|] eqn:Hw; [|done]. simpl in H.
  unfold all_sources.
  destruct pc; simpl in *.
  - unfold chan_recv in H. destruct (buf (fetchedData st)) as [|job rest] eqn:Hb.
    + destruct (closed (fetchedData st)); simplify_eq. simpl. rewrite ?Hb. simpl.
      by rewrite (flat_map_insert_same w_src _ w _ _ Hw).
    + simplify_eq. simpl.
      rewrite (flat_map_insert_gain w_src _ w _ (MkWorker id (WHave job)) Hw) by done.
      simpl. solve_Permutation.
  - simplify_eq. simpl.
    by rewrite (flat_map_insert_same w_src _ w _ _ Hw).
  - unfold chan_send in H. repeat case_match; simplify_eq. simpl.
    rewrite fmap_app. simpl.
    rewrite (flat_map_insert_lose w_src _ w _ (MkWorker id WRecv) Hw) by done.
    simpl. solve_Permutation.
  - unfold wg_done, wg_add in H. repeat case_match; simplify_eq. simpl.
    by rewrite (flat_map_insert_same w_src _ w _ _ Hw).
  - done.
Qed.

Lemma exec_accounted cfg a st st' :
  Forall fetcher_inv (fetchers st) ->
  exec cfg a st = Step st' -> accounted cfg st' ≡ₚ accounted cfg st.
Proof.
  intros Hf H. unfold accounted. destruct a; simpl in H.
  - rewrite (main_step_items _ _ _ H).
    unfold demonstrateIntegrated_step, wg_add in H.
    repeat case_match; simplify_eq; simpl; try done.
    by rewrite flat_map_snoc, app_nil_r.
  - unfold fetch_step in H.
    destruct (fetchers st !! i) as [[fc pc]|] eqn:Hi; [|done]. simpl in H.
    destruct (fetchWithTimeout_step a fc (stats st)) as [|[fc' s']|] eqn:E; try done.
    pose proof (Forall_lookup_1 _ _ _ _ Hf Hi) as Hfi.
    simplify_eq. unfold all_sources. simpl. rewrite length_insert.
    pose proof (flat_map_insert_pair f_src f_dropped _ i _ (MkFetcher fc' pc) Hi) as P.
    rewrite (fetch_step_accounted _ _ _ _ _ pc Hfi E) in P. specialize (P (reflexivity _)).
    rewrite <- !app_assoc.
    apply Permutation_app_head.
    transitivity (((Source <$> buf (fetchedData st)) ++ flat_map w_src (workers st)
                   ++ (PSource <$> buf (processedData st)) ++ (PSource <$> printed st))
                  ++ flat_map f_src (<[i:=MkFetcher fc' pc]> (fetchers st))
                  ++ flat_map f_dropped (<[i:=MkFetcher fc' pc]> (fetchers st)));
      [solve_Permutation |].
    rewrite P. solve_Permutation.
  - unfold fetcher_step in H.
    destruct (fetchers st !! i) as [[fc pc]|] eqn:Hi; [|done]. simpl in H.
    pose proof (Forall_lookup_1 _ _ _ _ Hf Hi) as [Hfi Hpc].
    pose proof (fi_pc _ Hfi) as Hret. simpl in Hpc, Hret.
    assert (forall pc' fd wg,
              f_src (MkFetcher fc pc') ++ f_dropped (MkFetcher fc pc')
              = f_src (MkFetcher fc pc) ++ f_dropped (MkFetcher fc pc) ->
              buf fd = buf (fetchedData st) ->
              all_sources cfg (set_fetcher st i (MkFetcher fc pc') (stats st) fd wg)
              ++ flat_map f_dropped (<[i:=MkFetcher fc pc']> (fetchers st))
              ≡ₚ all_sources cfg st ++ flat_map f_dropped (fetchers st)) as Hsame.
    { intros pc' fd wg E Hb. unfold all_sources. simpl. rewrite length_insert, Hb.
      pose proof (flat_map_insert_pair f_src f_dropped _ i _ (MkFetcher fc pc') Hi) as P.
      rewrite E in P. specialize (P (reflexivity _)).
      rewrite <- !app_assoc. apply Permutation_app_head.
      transitivity (((Source <$> buf (fetchedData st)) ++ flat_map w_src (workers st)
                     ++ (PSource <$> buf (processedData st)) ++ (PSource <$> printed st))
                    ++ flat_map f_src (<[i:=MkFetcher fc pc']> (fetchers st))
                    ++ flat_map f_dropped (<[i:=MkFetcher fc pc']> (fetchers st)));
        [solve_Permutation |].
      rewrite P. solve_Permutation. }
    destruct pc; simpl in H.
    + destruct (fc_pc fc) as [| | | |response err] eqn:Hfc; simpl in H; try done.
      destruct Hret as [(r & -> & -> & Hs) | [-> ->]]; simplify_eq.
      * apply Hsame; [|done]. unfold f_src, f_dropped. simpl. by rewrite Hfc, Hs.
      * apply Hsame; [|done]. unfold f_src, f_dropped. simpl. by rewrite Hfc.
    + unfold chan_send in H.
      destruct (closed (fetchedData st)); [done |].
      destruct (length (buf (fetchedData st)) <? cap (fetchedData st))%nat; simplify_eq.
      unfold all_sources. simpl. rewrite length_insert, fmap_app. simpl.
      assert (f_dropped (MkFetcher fc GExit) = f_dropped (MkFetcher fc (GSend response)))
        as Ed by done.
      rewrite (flat_map_insert_same f_dropped _ i _ _ Hi Ed).
      rewrite (flat_map_insert_lose f_src _ i _ (MkFetcher fc GExit) Hi) by done.
      simpl. solve_Permutation.
    + unfold wg_done, wg_add in H. destruct (fetchWg st + -1 <? 0); simplify_eq.
      by apply Hsame.
    + done.
  - assert (fetchers st' = fetchers st) as ->
      by (unfold closer1_step, wg_wait, chan_close in H; repeat case_match;
          by simplify_eq).
    by rewrite (closer_step_items cfg st st' (or_introl H)).
  - assert (fetchers st' = fetchers st) as ->
      by (unfold processingWorker_step, chan_recv, chan_send, wg_done, wg_add in H;
          repeat case_match; by simplify_eq).
    by rewrite (worker_step_items_perm _ _ _ _ H).
  - assert (fetchers st' = fetchers st) as ->
      by (unfold closer2_step, wg_wait, chan_close in H; repeat case_match;
          by simplify_eq).
    by rewrite (closer_step_items cfg st st' (or_intror H)).
  - assert (fetchers st' = fetchers st) as ->
      by (unfold outputPipeline_step, chan_recv in H; repeat case_match;
          by simplify_eq).
    by rewrite (output_step_items _ _ _ H).
Qed.

Lemma reachable_accounted cfg st :
  int_fits cfg -> reachable cfg st -> accounted cfg st ≡ₚ sources cfg.
Proof.
  intros Hfit Hr. induction Hr as [|st a st' Hr IH Hstep].
  - unfold accounted, all_sources. simpl. by rewrite !app_nil_r.
  - rewrite <- IH. apply (exec_accounted cfg a); [|done].
    apply i_fetchers with (cfg := cfg). by apply reachable_inv.
Qed.

(** When the run completes, the sources of the printed results together
    with the sources of the fetches that returned an error are exactly the
    sources of the run, each as often as it was given: no item is lost on
    the way and none is made up. *)
Theorem pipeline_accounts_for_every_source (cfg : Config) (st : state) :
  int_fits cfg -> (1 <= numWorkers cfg)%nat -> reachable cfg st ->
  mainpc st = MPrint \/ mainpc st = MReturned ->
  (PSource <$> printed st) ++ flat_map f_dropped (fetchers st) ≡ₚ sources cfg.
Proof.
  intros Hfit Hw Hr Hm. pose proof (reachable_inv cfg st Hfit Hr) as Hinv.
  rewrite <- (reachable_accounted cfg st Hfit Hr).
  destruct (inv_all_done cfg st Hinv Hw) as (Hlen & _ & Hfl & Hwl & Hb1 & Hb2 & _).
  { right. by apply (i_out_done _ _ Hinv). }
  unfold accounted, all_sources. rewrite Hlen, Hb1, Hb2, drop_all. simpl.
  assert (flat_map f_src (fetchers st) = []) as ->.
  { clear -Hfl. induction (fetchers st) as [|f l IH]; simpl in *; [done |].
    rewrite IH by lia. unfold f_live, f_src in *. destruct (f_pc f); simpl; [lia.. | done]. }
  assert (flat_map w_src (workers st) = []) as ->.
  { clear -Hwl. induction (workers st) as [|w l IH]; simpl in *; [done |].
    rewrite IH by lia. unfold w_live, w_src in *. destruct (w_pc w); simpl; [lia.. | done]. }
  done.
Qed.

Lemma pipeline_accounts_for_every_source_witness :
  let st := state_after demo_config demo_schedule_timeout in
  (PSource <$> printed st) ++ flat_map f_dropped (fetchers st) ≡ₚ sources demo_config.
Proof.
  intros st. apply (pipeline_accounts_for_every_source demo_config st).
  - apply demo_fits.
  - simpl. lia.
  - apply demo_timeout_reachable.
  - right. reflexivity.
Defined.

(** In the run with one fetch too late, the dropped source is the late
    one. *)
Example demo_timeout_dropped :
  flat_map f_dropped (fetchers (state_after demo_config demo_schedule_timeout)) = ["API-3"].
Proof. vm_compute. done. Qed.

(** ** What the results say *)

Ltac ok4 := split; [|split; [|split]]; simpl; try assumption; try done.

Lemma fetch_step_items_ok a fc s fc' s' pc :
  fetcher_items_ok (MkFetcher fc pc) ->
  fetchWithTimeout_step a fc s = Step (fc', s') ->
  fetcher_items_ok (MkFetcher fc' pc).
Proof.
  intros (Hbuf & Hin & Hpc & Hg) H. unfold fetcher_items_ok in *. simpl in *.
  destruct fc as [src [rb rc rcl] [eb ec ecl] [tb tc tcl] tf inner sel]. simpl in *.
  destruct a; simpl in H.
  - destruct inner; try done.
    destruct ((0 <=? n) && (n <? 800)) eqn:En; simplify_eq.
    apply andb_true_iff in En as [E1 E2].
    ok4. exists n. split; [lia | done].
  - destruct inner as [|t|]; try done. unfold chan_send in H. simpl in H.
    destruct rcl; [done |]. destruct (length rb <? rc)%nat; simplify_eq.
    ok4. apply Forall_app. split; [done |]. apply Forall_singleton.
    split; [done | exact Hin].
  - destruct tf; [done |]. unfold chan_send in H. simpl in H.
    destruct tcl; [done |]. destruct (length tb <? tc)%nat; simplify_eq. ok4.
  - unfold chan_recv in H. simpl in H.
    destruct sel; try done. destruct rb as [|r rest]; [by destruct rcl |].
    simplify_eq. apply Forall_cons in Hbuf as [Hr Hrest]. ok4.
  - unfold chan_recv in H. simpl in H. destruct sel; try done.
    destruct eb as [|e rest]; [by destruct ecl |]. simplify_eq. ok4.
  - unfold chan_recv in H. simpl in H. destruct sel; try done.
    destruct tb as [|e rest]; [by destruct tcl |]. simplify_eq. ok4.
  - destruct sel; simplify_eq; ok4.
Qed.

Lemma transform_ok cfg id job :
  1 <= id <= Z.of_nat (numWorkers cfg) -> response_ok job -> result_ok cfg (transform id job).
Proof.
  intros Hid [Hd _]. unfold result_ok, transform. simpl.
  split; [done |]. split; [done |]. rewrite Hd. done.
Qed.

Lemma exec_items_inv cfg a st st' :
  items_inv cfg st -> exec cfg a st = Step st' -> items_inv cfg st'.
Proof.
  intros [Hf Hfd Hw Hwl Hpd Hpr] H. destruct a; simpl in H.
  - unfold demonstrateIntegrated_step, wg_add in H.
    destruct (mainpc st); try done.
    + destruct (sources cfg !! length (fetchers st)); [|by simplify_eq].
      destruct (fetchWg st + 1 <? 0); simplify_eq.
      split; simpl; try done.
      apply Forall_app. split; [done |]. apply Forall_singleton.
      unfold fetcher_items_ok. simpl. auto.
    + destruct (length (workers st) <? numWorkers cfg)%nat eqn:Hlt; [|by simplify_eq].
      destruct (processWg st + 1 <? 0); simplify_eq. apply Nat.ltb_lt in Hlt.
      split; simpl; try done.
      * apply Forall_app. split; [done |]. apply Forall_singleton.
        unfold worker_items_ok. simpl. split; [lia | done].
      * rewrite length_app. simpl. lia.
    + by simplify_eq.
    + by simplify_eq.
  - unfold fetch_step in H.
    destruct (fetchers st !! i) as [[fc pc]|] eqn:Hi; [|done]. simpl in H.
    destruct (fetchWithTimeout_step a fc (stats st)) as [|[fc' s']|] eqn:E; try done.
    simplify_eq. split; simpl; try done.
    apply Forall_insert; [done |].
    eapply fetch_step_items_ok; [|done]. exact (Forall_lookup_1 _ _ _ _ Hf Hi).
  - unfold fetcher_step in H.
    destruct (fetchers st !! i) as [[fc pc]|] eqn:Hi; [|done]. simpl in H.
    pose proof (Forall_lookup_1 _ _ _ _ Hf Hi) as (Hbuf & Hin & Hpc & Hg).
    simpl in *.
    assert (forall pc', match pc' with GSend r => response_ok r | _ => True end ->
                        fetcher_items_ok (MkFetcher fc pc')) as Hnew.
    { intros pc' Hpc'. unfold fetcher_items_ok. simpl. auto. }
    destruct pc; simpl in H.
    + destruct (fc_pc fc) as [| | | |[r|] [e|]] eqn:Hfc; simplify_eq;
        (split; simpl; try done; apply Forall_insert; [done |]); by apply Hnew.
    + unfold chan_send in H.
      destruct (closed (fetchedData st)); [done |].
      destruct (length (buf (fetchedData st)) <? cap (fetchedData st))%nat; simplify_eq.
      split; simpl; try done.
      * apply Forall_insert; [done |]. by apply Hnew.
      * apply Forall_app. split; [done |]. by apply Forall_singleton.
    + unfold wg_done, wg_add in H. destruct (fetchWg st + -1 <? 0); simplify_eq.
      split; simpl; try done. apply Forall_insert; [done |]. by apply Hnew.
    + done.
  - unfold closer1_step, wg_wait, chan_close in H.
    repeat case_match; simplify_eq; split; simpl; done.
  - unfold processingWorker_step in H.
    destruct (workers st !! w) as [[id pc]|] eqn:Hwk; [|done]. simpl in H.
    pose proof (Forall_lookup_1 _ _ _ _ Hw Hwk) as [Hid Hitem]. simpl in *.
    destruct pc; simpl in H.
    + unfold chan_recv in H. destruct (buf (fetchedData st)) as [|job rest] eqn:Hb.
      * destruct (closed (fetchedData st)); simplify_eq.
        split; simpl; rewrite ?length_insert, ?Hb; try done.
        apply Forall_insert; [done |]. done.
      * simplify_eq. apply Forall_cons in Hfd as [Hj Hrest].
        split; simpl; rewrite ?length_insert; try done.
        apply Forall_insert; [done |]. done.
    + simplify_eq. split; simpl; rewrite ?length_insert; try done.
      apply Forall_insert; [done |]. split; [done |]. simpl. by apply transform_ok.
    + unfold chan_send in H.
      destruct (closed (processedData st)); [done |].
      destruct (length (buf (processedData st)) <? cap (processedData st))%nat;
        simplify_eq.
      split; simpl; rewrite ?length_insert; try done.
      * apply Forall_insert; [done |]. done.
      * apply Forall_app. split; [done |]. by apply Forall_singleton.
    + unfold wg_done, wg_add in H. destruct (processWg st + -1 <? 0); simplify_eq.
      split; simpl; rewrite ?length_insert; try done.
      apply Forall_insert; [done |]. done.
    + done.
  - unfold closer2_step, wg_wait, chan_close in H.
    repeat case_match; simplify_eq; split; simpl; done.
  - unfold outputPipeline_step, chan_recv in H.
    destruct (output st); try done.
    + destruct (buf (processedData st)) as [|result rest] eqn:Hb.
      * destruct (closed (processedData st)); simplify_eq.
        split; simpl; rewrite ?Hb; done.
      * simplify_eq. apply Forall_cons in Hpd as [Hr Hrest].
        split; simpl; try done.
        apply Forall_app. split; [done |]. by apply Forall_singleton.
    + destruct (mainpc st); simplify_eq. split; simpl; done.
Qed.

Lemma reachable_items_inv cfg st : reachable cfg st -> items_inv cfg st.
Proof.
  induction 1 as [|st a st' _ IH Hstep].
  - split; simpl; try constructor. lia.
  - by eapply exec_items_inv.
Qed.

(** Every result of a run, wherever it is (held by a worker, queued, or
    printed), has the number of one of the workers 1..numWorkers as its
    [ID], [Original] = "data-from-<source>" and [Processed] =
    "PROCESSED[data-from-<source>]" for its own [Source]; and every
    response in the first queue has [Data] = "data-from-<source>" and a
    fetch time of a whole number of milliseconds below 800. *)
Theorem pipeline_results_well_formed (cfg : Config) (st : state) :
  reachable cfg st ->
  Forall (result_ok cfg) (results_of st)
  /\ Forall response_ok (buf (fetchedData st)).
Proof.
  intros Hr. destruct (reachable_items_inv cfg st Hr) as [Hf Hfd Hw Hwl Hpd Hpr].
  split; [|done]. unfold results_of.
  apply Forall_app. split; [|by apply Forall_app].
  clear -Hw. induction Hw as [|w l [_ Hwk] _ IH]; simpl; [constructor |].
  apply Forall_app. split; [|done].
  unfold w_result. destruct (w_pc w); try constructor; [done | constructor].
Qed.

Lemma pipeline_results_well_formed_witness :
  let st := state_after demo_config demo_schedule in
  Forall (result_ok demo_config) (results_of st)
  /\ Forall response_ok (buf (fetchedData st)).
Proof.
  intros st. apply (pipeline_results_well_formed demo_config st).
  apply demo_final_reachable.
Defined.

(** What the demo prints for its first source. *)
Example demo_first_result :
  printed (state_after demo_config demo_schedule) !! 0%nat
  = Some (MkProcessedData 1 "data-from-API-1" "PROCESSED[data-from-API-1]" "API-1").
Proof. vm_compute. done. Qed.

(** When the output stage has signalled [done], nothing is held or queued
    any more. *)
Lemma inv_done_counters cfg st :
  inv cfg st -> (1 <= numWorkers cfg)%nat -> output st = ODone ->
  wsum f_hold (fetchers st) = 0%nat /\ wsum w_have (workers st) = 0%nat
  /\ wsum w_send (workers st) = 0%nat
  /\ buf (fetchedData st) = [] /\ buf (processedData st) = [].
Proof.
  intros Hinv Hw Ho.
  destruct (inv_all_done cfg st Hinv Hw (or_intror Ho))
    as (_ & _ & Hfl & Hwl & Hb1 & Hb2 & _).
  repeat split; try done.
  - clear -Hfl. induction (fetchers st) as [|f l IH]; simpl in *; [done |].
    rewrite IH by lia. unfold f_live, f_hold in *.
    destruct (f_pc f), (fc_pc (f_call f)) as [| | | |[?|] ?]; simpl in *; lia.
  - clear -Hwl. induction (workers st) as [|w l IH]; simpl in *; [done |].
    rewrite IH by lia. unfold w_live, w_have in *. destruct (w_pc w); lia.
  - clear -Hwl. induction (workers st) as [|w l IH]; simpl in *; [done |].
    rewrite IH by lia. unfold w_live, w_send in *. destruct (w_pc w); lia.
Qed.

(** [outputPipeline] counts what it prints: its [count] is the number of
    result lines printed so far, and when the run completes it is the
    final value of [totalProcessed] (and of [totalFetched]), so the line
    "Total results" agrees with the statistics line. *)
Theorem outputPipeline_count (cfg : Config) (st : state) :
  int_fits cfg -> reachable cfg st ->
  count st = Z.of_nat (length (printed st))
  /\ count st <= totalProcessed (stats st)
  /\ ((1 <= numWorkers cfg)%nat -> mainpc st = MPrint \/ mainpc st = MReturned ->
      count st = totalProcessed (stats st)
      /\ count st = totalFetched (stats st)).
Proof.
  intros Hfit Hr. pose proof (reachable_inv cfg st Hfit Hr) as Hinv.
  pose proof (i_count _ _ Hinv) as Hc. pose proof (i_processed _ _ Hinv) as Hp.
  split; [done |]. split; [lia |].
  intros Hw Hm.
  destruct (inv_done_counters cfg st Hinv Hw) as (Hh & Hv & Hs & Hb1 & Hb2).
  { by apply (i_out_done _ _ Hinv). }
  pose proof (i_flow1 _ _ Hinv) as Hflow. pose proof (i_fetched _ _ Hinv) as Hf.
  rewrite Hh, Hv, Hb1 in Hflow. rewrite Hb2, Hs in Hp. simpl in *. lia.
Qed.

Lemma outputPipeline_count_witness :
  let st := state_after demo_config demo_schedule_timeout in
  count st = Z.of_nat (length (printed st))
  /\ count st = totalProcessed (stats st)
  /\ count st = totalFetched (stats st).
Proof.
  intros st.
  destruct (outputPipeline_count demo_config st) as (H1 & _ & H3).
  - apply demo_fits.
  - apply demo_timeout_reachable.
  - split; [exact H1 |]. apply H3; [simpl; lia | right; reflexivity].
Defined.

(** ** The goroutine of [fetchWithTimeout] *)

(** The goroutine that [fetchWithTimeout] starts never blocks, whatever its
    caller does: [responseChan] has room for its one response, so it can
    always draw its fetch time and, the sleep over, send and finish, also
    after the caller has given up at the deadline (no goroutine is left
    behind blocked). *)
Theorem fetch_goroutine_never_blocks
    (source : string) (stats0 : Stats) (fc : fetch_call) (stats : Stats) :
  fetch_reachable source stats0 fc stats ->
  (fc_inner fc = IStart -> forall n, 0 <= n < 800 ->
     fetchWithTimeout_step (InnerRand n) fc stats
     = Step (set_inner fc (ISleeping (n * Millisecond)), stats))
  /\ (forall fetchTime, fc_inner fc = ISleeping fetchTime ->
        exists fc',
          fetchWithTimeout_step InnerSend fc stats = Step (fc', stats)
          /\ fc_inner fc' = IFinished /\ fc_pc fc' = fc_pc fc
          /\ buf (responseChan fc') = [fetched_response source fetchTime]).
Proof.
  intros Hr. destruct (fetch_reachable_inv _ _ _ _ Hr) as [Hfi Hsrc].
  split.
  - intros Hin n Hn. unfold fetchWithTimeout_step. rewrite Hin.
    destruct (0 <=? n) eqn:E1; [|lia]. destruct (n <? 800) eqn:E2; [|lia]. done.
  - intros t Hin. unfold fetchWithTimeout_step, chan_send. rewrite Hin.
    rewrite (fi_resp_open _ Hfi), (fi_resp_cap _ Hfi).
    rewrite (fi_resp_empty _ Hfi) by (rewrite Hin; done). simpl.
    eexists. split; [done |]. simpl. by rewrite Hsrc.
Qed.

Lemma fetch_goroutine_never_blocks_witness :
  exists fc',
    fetchWithTimeout_step InnerSend
      (fst (fetch_after [InnerRand 700; TimerFire; SelectTimeout; FetchReturn]
                        "API-3" (MkStats 0 0 0)))
      (MkStats 0 0 1)
    = Step (fc', MkStats 0 0 1)
    /\ fc_inner fc' = IFinished
    /\ fc_pc fc' = FReturned None (Some "timeout fetching from API-3")
    /\ buf (responseChan fc') = [fetched_response "API-3" 700000000].
Proof.
  destruct (fetch_goroutine_never_blocks "API-3" (MkStats 0 0 0)
              (fst (fetch_after [InnerRand 700; TimerFire; SelectTimeout; FetchReturn]
                                "API-3" (MkStats 0 0 0)))
              (MkStats 0 0 1)) as [_ H].
  - eapply fetch_run_reachable
      with (sched := [InnerRand 700; TimerFire; SelectTimeout; FetchReturn]);
      [apply fetch_reach_init | vm_compute; reflexivity].
  - apply (H 700000000). vm_compute. reflexivity.
Defined.

(** ** More on the mutex of [Stats] *)

(** At most one call is inside a critical section of [Stats], and the
    deferred [Unlock] of a method never fails: no statement of any call
    panics. *)
Theorem stats_mutex_exclusive (s0 : Stats) (st : StatsMutex.state) :
  StatsMutex.reachable s0 st ->
  (forall t1 t2 c1 c2,
     t1 <> t2 -> StatsMutex.calls st !! t1 = Some c1 ->
     StatsMutex.calls st !! t2 = Some c2 ->
     StatsMutex.holds c1 = 1%nat -> StatsMutex.holds c2 = 0%nat)
  /\ (forall a m, StatsMutex.exec a st <> Crash m).
Proof.
  intros Hr. pose proof (mutex_reachable_inv s0 st Hr) as [Hmu Hreads].
  split.
  - intros t1 t2 c1 c2 Hne H1 H2 Hh.
    pose proof (wsum_lookup_le2 StatsMutex.holds _ t1 t2 c1 c2 Hne H1 H2) as Hle.
    destruct (StatsMutex.mu st); lia.
  - intros a m H. destruct a as [meth | t]; simpl in H; [done |].
    destruct (StatsMutex.calls st !! t) as [c|] eqn:Ht; [|done].
    pose proof (wsum_lookup_le StatsMutex.holds _ _ _ Ht) as Hle.
    destruct c; simpl in *; try done;
      unfold StatsMutex.lock, StatsMutex.unlock in H;
      destruct (StatsMutex.mu st); try done; lia.
Qed.

Lemma busy_reachable :
  StatsMutex.reachable (MkStats 0 0 0)
    (StatsMutex.state_after (MkStats 0 0 0) StatsMutex.busy).
Proof.
  eapply mutex_run_reachable with (sched := StatsMutex.busy);
    [apply StatsMutex.reach_init | vm_compute; reflexivity].
Qed.

Lemma stats_mutex_exclusive_witness :
  StatsMutex.holds (StatsMutex.IncLock StatsMutex.Errors) = 0%nat
  /\ (forall a m,
        StatsMutex.exec a (StatsMutex.state_after (MkStats 0 0 0) StatsMutex.busy)
        <> Crash m).
Proof.
  destruct (stats_mutex_exclusive (MkStats 0 0 0)
              (StatsMutex.state_after (MkStats 0 0 0) StatsMutex.busy) busy_reachable)
    as [H1 H2].
  split; [|exact H2].
  apply (H1 0%nat 3%nat (StatsMutex.IncUnlock StatsMutex.Fetched)
            (StatsMutex.IncLock StatsMutex.Errors));
    [lia | vm_compute; reflexivity | vm_compute; reflexivity | reflexivity].
Defined.

Lemma mutex_get_put (k c : StatsMutex.counter) (v : Z) (s : Stats) :
  StatsMutex.get k (StatsMutex.put c v s)
  = if StatsMutex.counter_eqb c k then v else StatsMutex.get k s.
Proof. by destruct k, c. Qed.

(** The read and the write of a [++], run one after the other, are the
    method body of the pipeline semantics. *)
Lemma mutex_put_get (c : StatsMutex.counter) (s : Stats) :
  StatsMutex.put c (int_incr (StatsMutex.get c s)) s = StatsMutex.bump c s.
Proof. by destruct c, s. Qed.

(** A call outside its critical section has read no field. *)
Lemma mutex_loads_outside (s' : Stats) (c : StatsMutex.call) :
  StatsMutex.holds c = 0%nat -> StatsMutex.loads_current s' c.
Proof. by destruct c. Qed.

(** The value a [++] has read stays the value of its field until the
    [++] writes: the calls that could change it are kept out by the
    mutex. *)
Lemma mutex_exec_loads (a : StatsMutex.action) (st st' : StatsMutex.state) :
  StatsMutex.inv st ->
  Forall (StatsMutex.loads_current (StatsMutex.counters st)) (StatsMutex.calls st) ->
  StatsMutex.exec a st = Step st' ->
  Forall (StatsMutex.loads_current (StatsMutex.counters st')) (StatsMutex.calls st').
Proof.
  intros [Hmu _] Hloads H. destruct st as [s m l]. simpl in *.
  destruct a as [meth | t]; simpl in H.
  - simplify_eq. simpl. apply Forall_app. split; [done |].
    apply Forall_singleton. by destruct meth.
  - destruct (l !! t) as [c|] eqn:Ht; [|done].
    pose proof (wsum_lookup_le StatsMutex.holds _ _ _ Ht) as Hle.
    destruct c as [c|c|c v|c|c| | |f|f p|f p e|f p e]; simpl in *;
      unfold StatsMutex.lock, StatsMutex.unlock, StatsMutex.goto in H; simpl in H;
      try (destruct m; simplify_eq; simpl; by apply Forall_insert);
      simplify_eq; simpl.
    assert (wsum StatsMutex.holds l = 1%nat) as Hone by (destruct m; [done | lia]).
    apply Forall_forall. intros c' Hin.
    apply list_elem_of_lookup in Hin as [j Hj].
    destruct (decide (j = t)) as [-> | Hne].
    + rewrite list_lookup_insert_eq in Hj by (by eapply lookup_lt_Some).
      by simplify_eq.
    + rewrite list_lookup_insert_ne in Hj by done.
      apply mutex_loads_outside.
      by apply (mutex_others_outside l t (StatsMutex.IncWrite c v) Hone Ht eq_refl j).
Qed.

Lemma mutex_reachable_loads (s : Stats) (st : StatsMutex.state) :
  StatsMutex.reachable s st ->
  Forall (StatsMutex.loads_current (StatsMutex.counters st)) (StatsMutex.calls st).
Proof.
  induction 1 as [|st a st' Hr IH Hstep]; [constructor |].
  eapply mutex_exec_loads; [by eapply mutex_reachable_inv | done | done].
Qed.

Lemma wsum_insert_same {A : Type} (g : A -> nat) (l : list A) (i : nat) (x y : A) :
  l !! i = Some x -> g y = g x -> wsum g (<[i:=y]> l) = wsum g l.
Proof. intros H E. pose proof (wsum_insert g l i x y H). lia. Qed.

Lemma wsum_insert_gain {A : Type} (g : A -> nat) (l : list A) (i : nat) (x y : A) :
  l !! i = Some x -> g x = 0%nat -> wsum g (<[i:=y]> l) = (g y + wsum g l)%nat.
Proof. intros H E. pose proof (wsum_insert g l i x y H). lia. Qed.

(** No increment is lost and none is counted twice: each counter is its
    initial value incremented once for every [Increment] call on it that
    has done its [++], however the calls are interleaved.  The [++] is a
    read and a write, and other calls run between the two; that the value
    written is one more than the field holds at the write rests on the
    mutex. *)
Theorem stats_no_lost_update (s0 : Stats) (st : StatsMutex.state) (k : StatsMutex.counter) :
  StatsMutex.reachable s0 st ->
  StatsMutex.get k (StatsMutex.counters st)
  = Nat.iter (wsum (StatsMutex.written k) (StatsMutex.calls st)) int_incr
             (StatsMutex.get k s0).
Proof.
  induction 1 as [|st a st' Hr IH Hstep]; [done |].
  pose proof (mutex_reachable_loads s0 st Hr) as Hloads.
  destruct st as [s m l]. simpl in *.
  destruct a as [meth | t]; simpl in Hstep.
  - simplify_eq. simpl. rewrite wsum_snoc. destruct meth; simpl; by rewrite Nat.add_0_r.
  - destruct (l !! t) as [c|] eqn:Ht; [|done].
    pose proof (Forall_lookup_1 _ _ _ _ Hloads Ht) as Hc.
    destruct c as [c|c|c v|c|c| | |f|f p|f p e|f p e]; simpl in Hstep, Hc;
      unfold StatsMutex.lock, StatsMutex.unlock, StatsMutex.goto in Hstep;
      simpl in Hstep; try done;
      try (destruct m; simplify_eq; simpl;
           by rewrite (wsum_insert_same _ _ _ _ _ Ht)).
    simplify_eq. simpl.
    rewrite (wsum_insert_gain _ _ _ _ _ Ht) by done. simpl.
    rewrite mutex_get_put.
    destruct k, c; simpl in *; by rewrite ?IH.
Qed.

(** Without the exclusion an increment would be lost: two calls that have
    both read 0 both write 1. *)
Example unprotected_increment_is_lost :
  exists st',
    StatsMutex.run [StatsMutex.Run 0; StatsMutex.Run 1] StatsMutex.both_inside = Step st'
    /\ StatsMutex.get StatsMutex.Fetched (StatsMutex.counters st') = 1
    /\ wsum (StatsMutex.written StatsMutex.Fetched) (StatsMutex.calls st') = 2%nat.
Proof. eexists. split; [reflexivity |]. by vm_compute. Qed.

Example busy_counters :
  StatsMutex.counters (StatsMutex.state_after (MkStats 0 0 0) StatsMutex.busy)
  = MkStats 2 0 0.
Proof. vm_compute. done. Qed.

Lemma stats_no_lost_update_witness :
  StatsMutex.get StatsMutex.Fetched
    (StatsMutex.counters (StatsMutex.state_after (MkStats 0 0 0) StatsMutex.busy))
  = Nat.iter
      (wsum (StatsMutex.written StatsMutex.Fetched)
            (StatsMutex.calls (StatsMutex.state_after (MkStats 0 0 0) StatsMutex.busy)))
      int_incr 0.
Proof.
  apply (stats_no_lost_update (MkStats 0 0 0)
           (StatsMutex.state_after (MkStats 0 0 0) StatsMutex.busy) StatsMutex.Fetched).
  apply busy_reachable.
Defined.

Lemma mutex_exec_weight (t : nat) (st st' : StatsMutex.state) :
  StatsMutex.exec (StatsMutex.Run t) st = Step st' ->
  (wsum StatsMutex.call_weight (StatsMutex.calls st')
   < wsum StatsMutex.call_weight (StatsMutex.calls st))%nat.
Proof.
  intros H. simpl in H.
  destruct (StatsMutex.calls st !! t) as [c|] eqn:Ht; [|done].
  pose proof (fun y => wsum_insert StatsMutex.call_weight _ t c y Ht) as Hw.
  pose proof (wsum_lookup_le StatsMutex.call_weight _ _ _ Ht) as Hle.
  destruct c; simpl in *;
    unfold StatsMutex.lock, StatsMutex.unlock, StatsMutex.goto in H;
    try (destruct (StatsMutex.mu st); simplify_eq); simplify_eq; simpl;
    match goal with
    | |- context [wsum _ (<[_:=?y]> _)] => specialize (Hw y)
    end; simpl in Hw; lia.
Qed.

(** The mutex of [Stats] cannot deadlock: as long as some method call has
    not returned, some call can run its next statement (the holder of the
    mutex, or one that takes the free mutex); and every statement of a
    call uses up one of the finitely many the calls have left, so every
    call returns. *)
Theorem stats_mutex_no_deadlock (s0 : Stats) (st : StatsMutex.state) :
  StatsMutex.reachable s0 st ->
  ((exists t c, StatsMutex.calls st !! t = Some c /\ StatsMutex.finished c = false) ->
   exists t st', StatsMutex.exec (StatsMutex.Run t) st = Step st')
  /\ (forall t st',
        StatsMutex.exec (StatsMutex.Run t) st = Step st' ->
        (wsum StatsMutex.call_weight (StatsMutex.calls st')
         < wsum StatsMutex.call_weight (StatsMutex.calls st))%nat).
Proof.
  intros Hr. pose proof (mutex_reachable_inv s0 st Hr) as [Hmu Hreads].
  split; [|intros t st'; apply mutex_exec_weight].
  intros (t & c & Ht & Hc).
  destruct (StatsMutex.mu st) eqn:Hm.
  - destruct (wsum_pos_lookup StatsMutex.holds (StatsMutex.calls st))
      as (h & ch & Hh & Hpos); [lia |].
    exists h. simpl. rewrite Hh.
    destruct ch; simpl in Hpos; try lia;
      unfold StatsMutex.unlock; rewrite ?Hm; eauto.
  - pose proof (wsum_lookup_le StatsMutex.holds _ _ _ Ht) as Hle.
    exists t. simpl. rewrite Ht.
    destruct c; simpl in *; try done; try lia;
      unfold StatsMutex.lock; rewrite Hm; eauto.
Qed.

Lemma stats_mutex_no_deadlock_witness :
  exists t st',
    StatsMutex.exec (StatsMutex.Run t)
      (StatsMutex.state_after (MkStats 0 0 0) StatsMutex.busy) = Step st'.
Proof.
  destruct (stats_mutex_no_deadlock (MkStats 0 0 0)
              (StatsMutex.state_after (MkStats 0 0 0) StatsMutex.busy) busy_reachable)
    as [H _].
  apply H. exists 3%nat, (StatsMutex.IncLock StatsMutex.Errors).
  split; [vm_compute; reflexivity | reflexivity].
Defined.

(** * [demonstrateMutex]: the shared counter *)

Lemma wsum_le_bound {A : Type} (g : A -> nat) (P : A -> Prop) (b : nat) (l : list A) :
  (forall x, P x -> (g x <= b)%nat) -> Forall P l -> (wsum g l <= length l * b)%nat.
Proof.
  intros Hb. induction 1 as [|x l Hx _ IH]; simpl; [lia |]. specialize (Hb x Hx). lia.
Qed.

Lemma wsum_const {A : Type} (g : A -> nat) (P : A -> Prop) (b : nat) (l : list A) :
  (forall x, P x -> g x = b) -> Forall P l -> wsum g l = (length l * b)%nat.
Proof.
  intros Hb. induction 1 as [|x l Hx _ IH]; simpl; [lia |]. specialize (Hb x Hx). lia.
Qed.

Lemma counter_done_le cfg gr :
  CounterDemo.g_inv cfg gr ->
  (CounterDemo.done_incr cfg gr <= Z.to_nat (CounterDemo.iterations cfg))%nat.
Proof.
  unfold CounterDemo.g_inv, CounterDemo.done_incr. destruct (CounterDemo.g_pc gr); lia.
Qed.

Lemma counter_total_fits cfg (l : list CounterDemo.goroutine) :
  CounterDemo.fits cfg -> (length l <= length (CounterDemo.names cfg))%nat ->
  Forall (CounterDemo.g_inv cfg) l ->
  Z.of_nat (wsum (CounterDemo.done_incr cfg) l) < 2 ^ 63.
Proof.
  intros [_ Hfit] Hlen Hall.
  pose proof (wsum_le_bound (CounterDemo.done_incr cfg) _ _ l (counter_done_le cfg) Hall)
    as Hle.
  assert (Z.of_nat (length l * Z.to_nat (CounterDemo.iterations cfg))
          <= Z.of_nat (length (CounterDemo.names cfg))
             * Z.max 0 (CounterDemo.iterations cfg)) as Hm.
  { rewrite Nat2Z.inj_mul.
    replace (Z.of_nat (Z.to_nat (CounterDemo.iterations cfg)))
      with (Z.max 0 (CounterDemo.iterations cfg)) by lia.
    apply Z.mul_le_mono_nonneg_r; lia. }
  lia.
Qed.

(** Outside its critical section a goroutine holds no read of the shared
    variable that a later write could make stale, except the printed
    [current], which only has to stay below the counter. *)
Lemma counter_mem_outside (s s' : Z) (gr : CounterDemo.goroutine) :
  CounterDemo.holds gr = 0%nat -> s <= s' ->
  CounterDemo.g_mem s gr -> CounterDemo.g_mem s' gr.
Proof.
  unfold CounterDemo.holds, CounterDemo.g_mem.
  destruct (CounterDemo.g_pc gr); simpl; try done; lia.
Qed.

Lemma counter_mem_others (s s' : Z) (l : list CounterDemo.goroutine) (g : nat)
    (gr gr' : CounterDemo.goroutine) :
  wsum CounterDemo.holds l = 1%nat -> l !! g = Some gr -> CounterDemo.holds gr = 1%nat ->
  s <= s' -> Forall (CounterDemo.g_mem s) l -> CounterDemo.g_mem s' gr' ->
  Forall (CounterDemo.g_mem s') (<[g:=gr']> l).
Proof.
  intros Hsum Hg Hh Hle Hall Hnew. apply Forall_forall. intros x Hin.
  apply list_elem_of_lookup in Hin as [j Hj].
  destruct (decide (j = g)) as [-> | Hne].
  - rewrite list_lookup_insert_eq in Hj by (by eapply lookup_lt_Some). by simplify_eq.
  - rewrite list_lookup_insert_ne in Hj by done.
    apply (counter_mem_outside s); [|done|].
    + pose proof (wsum_lookup_le2 CounterDemo.holds l j g x gr Hne Hj Hg). lia.
    + exact (Forall_lookup_1 _ _ _ _ Hall Hj).
Qed.

Lemma counter_init_inv cfg : CounterDemo.inv cfg CounterDemo.init.
Proof. split; simpl; try done; try constructor; try lia; intuition congruence. Qed.

Ltac counter_fields Hg :=
  split; simpl; rewrite ?length_insert; try done;
  try (apply Forall_insert;
       [assumption
       | unfold CounterDemo.g_inv, CounterDemo.g_mem; simpl; first [done | lia]]);
  try (intros; use_hyps; refl_hyps;
       repeat match goal with
       | |- context [wsum ?g (<[?i:=?y]> ?l)] =>
           lazymatch goal with
           | _ : (wsum g (<[i:=y]> l) + _ = _)%nat |- _ => fail
           | _ => pose proof (wsum_insert g l i _ y Hg)
           end
       end;
       unfold CounterDemo.holds, CounterDemo.live, CounterDemo.done_incr in *;
       simpl in *; lia).

Lemma counter_step_inv cfg g st st' :
  CounterDemo.fits cfg -> CounterDemo.inv cfg st ->
  CounterDemo.counter_step cfg g st = Step st' -> CounterDemo.inv cfg st'.
Proof.
  intros Hfit Hinv H.
  pose proof (counter_total_fits cfg (CounterDemo.goroutines st) Hfit
                (CounterDemo.i_len _ _ Hinv) (CounterDemo.i_range _ _ Hinv)) as Htot.
  destruct Hinv. unfold CounterDemo.counter_step in H.
  destruct (CounterDemo.goroutines st !! g) as [[name p]|] eqn:Hg; [|done].
  pose proof (Forall_lookup_1 _ _ _ _ i_range Hg) as Hr.
  pose proof (Forall_lookup_1 _ _ _ _ i_mem Hg) as Hm.
  pose proof (wsum_lookup_le CounterDemo.holds _ _ _ Hg) as Hh.
  pose proof (wsum_lookup_le CounterDemo.live _ _ _ Hg) as Hl.
  unfold CounterDemo.g_inv, CounterDemo.g_mem in Hr, Hm.
  unfold CounterDemo.holds in Hh at 1. unfold CounterDemo.live in Hl at 1.
  destruct Hfit as [Hit Hfit].
  destruct p; simpl in *.
  - destruct (i <? CounterDemo.iterations cfg) eqn:E; simplify_eq.
    + apply Z.ltb_lt in E. counter_fields Hg.
    + apply Z.ltb_ge in E. counter_fields Hg.
  - destruct (CounterDemo.mu st) eqn:Hmu; simplify_eq. counter_fields Hg.
  - simplify_eq. counter_fields Hg.
  - simplify_eq.
    pose proof (wsum_insert (CounterDemo.done_incr cfg) _ g _
                  (CounterDemo.MkGoroutine name (CounterDemo.KRead i)) Hg) as Hd.
    unfold CounterDemo.done_incr in Hd at 2 4. simpl in Hd.
    assert (Forall (CounterDemo.g_inv cfg)
              (<[g:=CounterDemo.MkGoroutine name (CounterDemo.KRead i)]>
                 (CounterDemo.goroutines st))) as Hr'.
    { apply Forall_insert; [done |]. unfold CounterDemo.g_inv. simpl. lia. }
    pose proof (counter_total_fits cfg _ (conj Hit Hfit)
                  ltac:(rewrite length_insert; exact i_len) Hr') as Htot'.
    assert (int_incr (CounterDemo.sharedCounter st) = CounterDemo.sharedCounter st + 1)
      as Ei by (apply int_incr_small; lia).
    rewrite Ei.
    counter_fields Hg.
    + apply (counter_mem_others (CounterDemo.sharedCounter st) _ _ g
               (CounterDemo.MkGoroutine name (CounterDemo.KStore i
                                                (CounterDemo.sharedCounter st))));
        try done; try lia.
      * destruct (CounterDemo.mu st); lia.
      * unfold CounterDemo.g_mem. simpl. lia.
    + intros v Hv. destruct (i_final v Hv) as [_ Hret].
      pose proof (i_waited (or_intror Hret)). lia.
    + eapply Forall_impl; [exact i_lines |]. simpl. intros; lia.
  - simplify_eq. counter_fields Hg.
  - destruct (CounterDemo.mu st) eqn:Hmu; simplify_eq. counter_fields Hg.
  - simplify_eq. counter_fields Hg.
    destruct (Z.rem i 100 =? 0); [|done].
    apply Forall_app. split; [done |]. apply Forall_singleton. simpl. lia.
  - simplify_eq.
    assert (int_incr i = i + 1) as Ei by (apply int_incr_small; lia).
    rewrite Ei. counter_fields Hg.
  - unfold wg_done, wg_add in H.
    destruct (CounterDemo.wg st + -1 <? 0) eqn:Hwg; simplify_eq. counter_fields Hg.
  - done.
Qed.

Lemma counter_main_inv cfg st st' :
  CounterDemo.inv cfg st ->
  CounterDemo.demonstrateMutex_step cfg st = Step st' -> CounterDemo.inv cfg st'.
Proof.
  intros Hinv H. destruct Hinv.
  unfold CounterDemo.demonstrateMutex_step, wg_add, wg_wait in H.
  destruct (CounterDemo.mainpc st) eqn:Hm; try done.
  - destruct (CounterDemo.names cfg !! length (CounterDemo.goroutines st))
      as [name|] eqn:Hn.
    + destruct (CounterDemo.wg st + 1 <? 0); simplify_eq.
      pose proof (lookup_lt_Some _ _ _ Hn) as Hlt.
      pose proof (eq_refl : CounterDemo.holds
                              (CounterDemo.MkGoroutine name (CounterDemo.KLoop 0))
                            = 0%nat) as E1.
      pose proof (eq_refl : CounterDemo.live
                              (CounterDemo.MkGoroutine name (CounterDemo.KLoop 0))
                            = 1%nat) as E2.
      pose proof (eq_refl : CounterDemo.done_incr cfg
                              (CounterDemo.MkGoroutine name (CounterDemo.KLoop 0))
                            = 0%nat) as E3.
      split; simpl; rewrite ?length_app, ?wsum_snoc, ?E1, ?E2, ?E3; simpl; try done;
        try (apply Forall_app; split; [done |]; apply Forall_singleton;
             unfold CounterDemo.g_inv, CounterDemo.g_mem; simpl; lia);
        try (destruct (CounterDemo.mu st); lia);
        try (intuition congruence).
    + simplify_eq. pose proof (lookup_ge_None_1 _ _ Hn) as Hge.
      split; simpl; try done; try lia; try (intuition congruence).
      all: try (intros v Hv; destruct (i_final v Hv); congruence).
  - destruct (CounterDemo.wg st =? 0) eqn:Hz; simplify_eq.
    split; simpl; try done; try lia; try (intuition congruence).
    all: try (intros v Hv; destruct (i_final v Hv); congruence).
  - simplify_eq. split; simpl; try done; try (intuition congruence).
    all: try (by intros v [= <-]).
Qed.

Lemma counter_reachable_inv cfg st :
  CounterDemo.fits cfg -> CounterDemo.reachable cfg st -> CounterDemo.inv cfg st.
Proof.
  intros Hfit. induction 1 as [|st a st' _ IH Hstep]; [apply counter_init_inv |].
  destruct a; simpl in Hstep.
  - by eapply counter_main_inv.
  - by eapply counter_step_inv.
Qed.

Lemma counter_run_reachable cfg sched st st' :
  CounterDemo.reachable cfg st -> CounterDemo.run cfg sched st = Step st' ->
  CounterDemo.reachable cfg st'.
Proof.
  revert st. induction sched as [|a sched IH]; simpl; intros st Hr H.
  - by simplify_eq.
  - destruct (CounterDemo.exec cfg a st) as [|st1|] eqn:E; try done.
    eapply IH; [|done]. by eapply CounterDemo.reach_step.
Qed.

(** No update of the shared counter is lost.  In every state of
    [demonstrateMutex], however its goroutines are interleaved, the counter
    is the number of increments they have completed, at most one goroutine
    is between its [Lock] and its [Unlock], and no statement panics; once
    [wg.Wait()] has returned the counter is (number of goroutines) x
    (iterations), which is the final value that is printed; and every
    value a goroutine prints is between 1 and the counter. *)
Theorem counter_no_lost_update (cfg : CounterDemo.Config) (st : CounterDemo.state) :
  CounterDemo.fits cfg -> CounterDemo.reachable cfg st ->
  CounterDemo.sharedCounter st
  = Z.of_nat (wsum (CounterDemo.done_incr cfg) (CounterDemo.goroutines st))
  /\ (wsum CounterDemo.holds (CounterDemo.goroutines st) <= 1)%nat
  /\ (forall a m, CounterDemo.exec cfg a st <> Crash m)
  /\ (CounterDemo.mainpc st = CounterDemo.MPrint
      \/ CounterDemo.mainpc st = CounterDemo.MReturned ->
      CounterDemo.sharedCounter st
      = Z.of_nat (length (CounterDemo.names cfg)) * Z.max 0 (CounterDemo.iterations cfg))
  /\ (forall v, CounterDemo.final st = Some v ->
        v = Z.of_nat (length (CounterDemo.names cfg))
            * Z.max 0 (CounterDemo.iterations cfg))
  /\ Forall (fun l => 1 <= snd l <= CounterDemo.sharedCounter st) (CounterDemo.lines st).
Proof.
  intros Hfit Hr. pose proof (counter_reachable_inv cfg st Hfit Hr) as Hinv.
  destruct Hinv.
  assert (CounterDemo.mainpc st = CounterDemo.MPrint
          \/ CounterDemo.mainpc st = CounterDemo.MReturned ->
          CounterDemo.sharedCounter st
          = Z.of_nat (length (CounterDemo.names cfg))
            * Z.max 0 (CounterDemo.iterations cfg)) as Hdone.
  { intros Hm. specialize (i_waited Hm).
    assert (CounterDemo.mainpc st <> CounterDemo.MLoop) as Hne
      by (destruct Hm; congruence).
    rewrite i_sum, <- (i_all Hne).
    rewrite (wsum_const (CounterDemo.done_incr cfg)
               (fun gr => CounterDemo.live gr = 0%nat)
               (Z.to_nat (CounterDemo.iterations cfg))).
    - rewrite Nat2Z.inj_mul. f_equal. lia.
    - intros gr. unfold CounterDemo.live, CounterDemo.done_incr.
      destruct (CounterDemo.g_pc gr); try done; lia.
    - clear -i_waited. induction (CounterDemo.goroutines st) as [|gr l IH]; simpl in *;
        [constructor |]. constructor; [lia | apply IH; lia]. }
  split; [done |]. split; [destruct (CounterDemo.mu st); lia |].
  split; [|split; [done | split; [|done]]].
  - intros a m H. destruct a as [|g]; simpl in H.
    + unfold CounterDemo.demonstrateMutex_step, wg_add, wg_wait in H.
      repeat case_match; simplify_eq; lia.
    + unfold CounterDemo.counter_step in H.
      destruct (CounterDemo.goroutines st !! g) as [[name p]|] eqn:Hg; [|done].
      pose proof (wsum_lookup_le CounterDemo.holds _ _ _ Hg) as Hh.
      pose proof (wsum_lookup_le CounterDemo.live _ _ _ Hg) as Hl.
      unfold CounterDemo.holds in Hh at 1. unfold CounterDemo.live in Hl at 1.
      destruct p; simpl in *; try done.
      * by destruct (_ <? _).
      * by destruct (CounterDemo.mu st).
      * destruct (CounterDemo.mu st); [done | lia].
      * unfold wg_done, wg_add in H.
        destruct (CounterDemo.wg st + -1 <? 0) eqn:E; [lia | done].
  - intros v Hv. destruct (i_final v Hv) as [-> Hret]. apply Hdone. by right.
Qed.

Lemma counter_demo_fits : CounterDemo.fits CounterDemo.demo_config.
Proof. split; vm_compute; done. Qed.

Lemma counter_demo_reachable :
  CounterDemo.reachable CounterDemo.demo_config
    (CounterDemo.state_after CounterDemo.demo_config
       (CounterDemo.full_schedule CounterDemo.demo_config)).
Proof.
  eapply counter_run_reachable
    with (sched := CounterDemo.full_schedule CounterDemo.demo_config);
    [apply CounterDemo.reach_init | vm_compute; reflexivity].
Qed.

Lemma counter_no_lost_update_witness :
  let st := CounterDemo.state_after CounterDemo.demo_config
              (CounterDemo.full_schedule CounterDemo.demo_config) in
  CounterDemo.sharedCounter st = 600
  /\ (forall v, CounterDemo.final st = Some v -> v = 600)
  /\ (forall a m, CounterDemo.exec CounterDemo.demo_config a st <> Crash m).
Proof.
  intros st.
  destruct (counter_no_lost_update CounterDemo.demo_config st)
    as (_ & _ & H3 & H4 & H5 & _).
  - apply counter_demo_fits.
  - apply counter_demo_reachable.
  - split; [|split; [exact H5 | exact H3]].
    apply H4. right. vm_compute. reflexivity.
Defined.

(** * [demonstratePipeline]: order through unbuffered stages *)

Lemma pipe_init_inv n : PipelineDemo.inv n PipelineDemo.init.
Proof. split; simpl; try done; intuition congruence. Qed.

Ltac pipe_fields :=
  split; simpl;
  try (unfold PipelineDemo.fed, PipelineDemo.held1, PipelineDemo.held2 in *; simpl in *);
  try done; try (intros; simplify_eq; lia); try (intuition congruence).

Lemma seqZ_to_nat (m a b : Z) : Z.to_nat a = Z.to_nat b -> seqZ m a = seqZ m b.
Proof. intros E. unfold seqZ. by rewrite E. Qed.

Lemma seqZ_snoc (m i : Z) : 0 <= i -> seqZ m (i + 1) = seqZ m i ++ [m + i].
Proof. intros Hi. rewrite seqZ_app by lia. done. Qed.

Lemma pipe_exec_inv n a st st' :
  n < 2 ^ 63 - 1 -> PipelineDemo.inv n st -> PipelineDemo.exec n a st = Step st' ->
  PipelineDemo.inv n st'.
Proof.
  intros Hn Hinv H. destruct Hinv. destruct st as [f s1 s2 m cin cmid cout pr].
  unfold PipelineDemo.fed, PipelineDemo.held1, PipelineDemo.held2 in i_order.
  simpl in *.
  destruct a; simpl in H.
  - unfold PipelineDemo.demonstratePipeline_step in H. simpl in H.
    destruct m; try done.
    + simplify_eq. assert (s1 = PipelineDemo.S1NotStarted) as -> by intuition.
      pipe_fields.
    + simplify_eq. assert (s2 = PipelineDemo.S2NotStarted) as -> by intuition.
      pipe_fields.
    + simplify_eq. assert (f = PipelineDemo.FNotStarted) as -> by intuition.
      pipe_fields.
    + destruct cout; [|done]. simplify_eq. pipe_fields.
  - unfold PipelineDemo.feeder_step in H. simpl in H.
    destruct f as [|i|]; try done.
    specialize (i_loop i eq_refl).
    destruct (i <=? n) eqn:Ei.
    + apply Z.leb_le in Ei. destruct cin; [done |]. destruct s1; try done. simplify_eq.
      assert (int_incr i = i + 1) as -> by (apply int_incr_small; lia).
      pipe_fields.
      replace (i + 1 - 1) with (i - 1 + 1) by lia.
      rewrite seqZ_snoc by lia. rewrite !fmap_app, <- i_order. simpl.
      replace (1 + (i - 1)) with i by lia. by rewrite app_nil_r, app_assoc.
    + apply Z.leb_gt in Ei. destruct cin; [done |]. simplify_eq. pipe_fields.
      rewrite i_order. do 2 f_equal. apply seqZ_to_nat. lia.
  - unfold PipelineDemo.stage1_step in H. simpl in H.
    destruct s1; try done.
    + destruct cin; [|done]. simplify_eq. pipe_fields.
    + destruct cmid; [done |]. destruct s2; try done. simplify_eq. pipe_fields.
    + destruct cmid; [done |]. simplify_eq. pipe_fields.
  - unfold PipelineDemo.stage2_step in H. simpl in H.
    destruct s2; try done.
    + destruct cmid; [|done]. simplify_eq. pipe_fields.
    + destruct cout; [done |]. destruct m; try done. simplify_eq. pipe_fields.
      by rewrite <- app_assoc.
    + destruct cout; [done |]. simplify_eq. pipe_fields.
Qed.

Lemma pipe_reachable_inv n st :
  n < 2 ^ 63 - 1 -> PipelineDemo.reachable n st -> PipelineDemo.inv n st.
Proof.
  intros Hn. induction 1 as [|st a st' _ IH Hstep];
    [apply pipe_init_inv | by eapply pipe_exec_inv].
Qed.

Lemma pipe_run_reachable n sched st st' :
  PipelineDemo.reachable n st -> PipelineDemo.run n sched st = Step st' ->
  PipelineDemo.reachable n st'.
Proof.
  revert st. induction sched as [|a sched IH]; simpl; intros st Hr H.
  - by simplify_eq.
  - destruct (PipelineDemo.exec n a st) as [|st1|] eqn:E; try done.
    eapply IH; [|done]. by eapply PipelineDemo.reach_step.
Qed.

Lemma pipe_exec_measure n a st st' :
  PipelineDemo.inv n st -> n < 2 ^ 63 - 1 -> PipelineDemo.exec n a st = Step st' ->
  (PipelineDemo.measure n st' < PipelineDemo.measure n st)%nat.
Proof.
  intros Hinv Hn H. destruct Hinv. destruct st as [f s1 s2 m cin cmid cout pr].
  unfold PipelineDemo.measure. simpl in *.
  destruct a; simpl in H.
  - unfold PipelineDemo.demonstratePipeline_step in H. simpl in H.
    destruct m; try done.
    + simplify_eq. assert (s1 = PipelineDemo.S1NotStarted) as -> by intuition.
      simpl. lia.
    + simplify_eq. assert (s2 = PipelineDemo.S2NotStarted) as -> by intuition.
      simpl. lia.
    + simplify_eq. assert (f = PipelineDemo.FNotStarted) as -> by intuition.
      simpl. lia.
    + destruct cout; [|done]. simplify_eq. simpl. lia.
  - unfold PipelineDemo.feeder_step in H. simpl in H.
    destruct f as [|i|]; try done. specialize (i_loop i eq_refl).
    destruct (i <=? n) eqn:Ei.
    + apply Z.leb_le in Ei. destruct cin; [done |]. destruct s1; try done. simplify_eq.
      assert (int_incr i = i + 1) as -> by (apply int_incr_small; lia). simpl. lia.
    + destruct cin; [done |]. simplify_eq. simpl. lia.
  - unfold PipelineDemo.stage1_step in H. simpl in H.
    destruct s1; try done.
    + destruct cin; [|done]. simplify_eq. simpl. lia.
    + destruct cmid; [done |]. destruct s2; try done. simplify_eq. simpl. lia.
    + destruct cmid; [done |]. simplify_eq. simpl. lia.
  - unfold PipelineDemo.stage2_step in H. simpl in H.
    destruct s2; try done.
    + destruct cmid; [|done]. simplify_eq. simpl. lia.
    + destruct cout; [done |]. destruct m; try done. simplify_eq. simpl. lia.
    + destruct cout; [done |]. simplify_eq. simpl. lia.
Qed.

Lemma pipe_no_crash n a st m :
  PipelineDemo.inv n st -> PipelineDemo.exec n a st <> Crash m.
Proof.
  intros Hinv H. destruct Hinv. destruct st as [f s1 s2 mp cin cmid cout pr].
  simpl in *. destruct a; simpl in H.
  - unfold PipelineDemo.demonstratePipeline_step in H. simpl in H.
    destruct mp; try done. by destruct cout.
  - unfold PipelineDemo.feeder_step in H. simpl in H.
    destruct f as [|i|]; try done.
    destruct cin; [assert (PipelineDemo.FLoop i = PipelineDemo.FDone) by intuition;
                   done |].
    destruct (i <=? n); [by destruct s1 | done].
  - unfold PipelineDemo.stage1_step in H. simpl in H.
    destruct s1; try done.
    + by destruct cin.
    + destruct cmid; [|by destruct s2].
      assert (PipelineDemo.S1Send result = PipelineDemo.S1Done) by intuition. done.
    + destruct cmid; [|done].
      assert (PipelineDemo.S1Closing = PipelineDemo.S1Done) by intuition. done.
  - unfold PipelineDemo.stage2_step in H. simpl in H.
    destruct s2; try done.
    + by destruct cmid.
    + destruct cout; [|by destruct mp].
      assert (PipelineDemo.S2Send result = PipelineDemo.S2Done) by intuition. done.
    + destruct cout; [|done].
      assert (PipelineDemo.S2Closing = PipelineDemo.S2Done) by intuition. done.
Qed.

Lemma pipe_progress n st :
  PipelineDemo.inv n st -> PipelineDemo.mainpc st <> PipelineDemo.MDone ->
  exists a st', PipelineDemo.exec n a st = Step st'.
Proof.
  intros Hinv Hm. destruct Hinv. destruct st as [f s1 s2 mp cin cmid cout pr].
  simpl in *.
  destruct mp; try done;
    try (exists PipelineDemo.AMain; simpl; eauto; fail).
  destruct cout eqn:Hcout;
    [exists PipelineDemo.AMain; simpl;
     unfold PipelineDemo.demonstratePipeline_step; simpl; eauto |].
  destruct s2 as [| |r2| |].
  - exfalso. assert (PipelineDemo.MRecv = PipelineDemo.MSpawn1
                     \/ PipelineDemo.MRecv = PipelineDemo.MSpawn2) by intuition.
    intuition congruence.
  - destruct cmid eqn:Hcmid;
      [exists PipelineDemo.AStage2; simpl; unfold PipelineDemo.stage2_step; simpl; eauto |].
    destruct s1 as [| |r1| |].
    + exfalso. assert (PipelineDemo.MRecv = PipelineDemo.MSpawn1) by intuition. done.
    + destruct cin eqn:Hcin;
        [exists PipelineDemo.AStage1; simpl; unfold PipelineDemo.stage1_step; simpl;
         eauto |].
      destruct f as [|i|].
      * exfalso.
        assert (PipelineDemo.MRecv = PipelineDemo.MSpawn1
                \/ PipelineDemo.MRecv = PipelineDemo.MSpawn2
                \/ PipelineDemo.MRecv = PipelineDemo.MSpawn3) by intuition.
        intuition congruence.
      * exists PipelineDemo.AFeeder. simpl. unfold PipelineDemo.feeder_step. simpl.
        destruct (i <=? n); eauto.
      * exfalso. assert (false = true) by intuition. done.
    + exists PipelineDemo.AStage1. simpl. unfold PipelineDemo.stage1_step. simpl. eauto.
    + exists PipelineDemo.AStage1. simpl. unfold PipelineDemo.stage1_step. simpl. eauto.
    + exfalso. assert (false = true) by intuition. done.
  - exists PipelineDemo.AStage2. simpl. unfold PipelineDemo.stage2_step. simpl. eauto.
  - exists PipelineDemo.AStage2. simpl. unfold PipelineDemo.stage2_step. simpl. eauto.
  - exfalso. assert (false = true) by intuition. done.
Qed.

(** [demonstratePipeline] prints the squares in the order the numbers were
    fed, one line each.  In every state, whatever the interleaving, the
    lines printed, then the line stage 2 holds, then the number stage 1
    holds are the first numbers of 1..n squared and formatted, in order;
    no statement panics, before the end some goroutine can always run (the
    unbuffered stages cannot deadlock), every statement uses up the
    measure, and when the range of [demonstratePipeline] ends the printed
    lines are "Result: 1", "Result: 4", ... for all of 1..n. *)
Theorem pipeline_preserves_order (n : Z) (st : PipelineDemo.state) :
  n < 2 ^ 63 - 1 -> PipelineDemo.reachable n st ->
  PipelineDemo.printed st ++ PipelineDemo.held2 st
    ++ (PipelineDemo.format <$> PipelineDemo.held1 st)
  = PipelineDemo.format <$> (PipelineDemo.square <$> PipelineDemo.fed n st)
  /\ (forall a m, PipelineDemo.exec n a st <> Crash m)
  /\ (PipelineDemo.mainpc st <> PipelineDemo.MDone ->
      exists a st', PipelineDemo.exec n a st = Step st')
  /\ (forall a st', PipelineDemo.exec n a st = Step st' ->
        (PipelineDemo.measure n st' < PipelineDemo.measure n st)%nat)
  /\ (PipelineDemo.mainpc st = PipelineDemo.MDone ->
      PipelineDemo.printed st
      = PipelineDemo.format <$> (PipelineDemo.square <$> seqZ 1 n)).
Proof.
  intros Hn Hr. pose proof (pipe_reachable_inv n st Hn Hr) as Hinv.
  split; [apply (PipelineDemo.i_order _ _ Hinv) |].
  split; [intros a m; by apply pipe_no_crash |].
  split; [by apply pipe_progress |].
  split; [intros a st'; by apply pipe_exec_measure |].
  intros Hm. pose proof (PipelineDemo.i_order _ _ Hinv) as Ho. destruct Hinv.
  assert (PipelineDemo.stage2 st = PipelineDemo.S2Done) as E2 by intuition.
  assert (PipelineDemo.stage1 st = PipelineDemo.S1Done) as E1 by intuition.
  assert (PipelineDemo.feeder st = PipelineDemo.FDone) as E0 by intuition.
  unfold PipelineDemo.held1, PipelineDemo.held2, PipelineDemo.fed in Ho.
  rewrite E0, E1, E2 in Ho. simpl in Ho. by rewrite !app_nil_r in Ho.
Qed.

Lemma pipeline_preserves_order_witness :
  PipelineDemo.printed (PipelineDemo.state_after 5 (PipelineDemo.full_schedule 5))
  = PipelineDemo.format <$> (PipelineDemo.square <$> seqZ 1 5).
Proof.
  destruct (pipeline_preserves_order 5
              (PipelineDemo.state_after 5 (PipelineDemo.full_schedule 5)))
    as (_ & _ & _ & _ & H).
  - vm_compute. reflexivity.
  - eapply pipe_run_reachable with (sched := PipelineDemo.full_schedule 5);
      [apply PipelineDemo.reach_init | vm_compute; reflexivity].
  - apply H. vm_compute. reflexivity.
Defined.

(** The five lines of the demo. *)
Example pipeline_demo_lines :
  PipelineDemo.format <$> (PipelineDemo.square <$> seqZ 1 5)
  = ["Result: 1"; "Result: 4"; "Result: 9"; "Result: 16"; "Result: 25"].
Proof. vm_compute. done. Qed.

(** * Fan-in: [demonstrateAsyncFetching] and [demonstrateWorkerPool] *)

Section AsyncFetchingProofs.
Import AsyncFetching.

Lemma wsum_replicate {A : Type} (g : A -> nat) (n : nat) (x : A) :
  wsum g (replicate n x) = (n * g x)%nat.
Proof. induction n as [|n IH]; simpl; [done | rewrite IH; lia]. Qed.

Lemma flat_map_replicate_nil {A B : Type} (g : A -> list B) (n : nat) (x : A) :
  g x = [] -> flat_map g (replicate n x) = [].
Proof. intros E. induction n as [|n IH]; simpl; [done | by rewrite E, IH]. Qed.

Lemma async_init_inv cfg : inv cfg (init cfg).
Proof.
  split; unfold spawned, adding, in_loop; simpl; try done;
    try (by intuition congruence).
  - by rewrite length_replicate.
  - intros j g Hj. apply lookup_replicate in Hj as [-> Hj]. split; [lia | done].
  - rewrite wsum_replicate. simpl. lia.
  - by rewrite flat_map_replicate_nil.
  - intros k g Hk. apply lookup_replicate in Hk as [-> _]. done.
Qed.

Ltac async_unfold :=
  unfold set_main, set_wg, set_closer, set_fetch, set_chan, print,
    spawned, adding, in_loop in *; simpl in *.

Lemma drawn_insert cfg (fs : list fetch_pc) k g :
  (forall j g', fs !! j = Some g' -> drawn_ok cfg j g') -> drawn_ok cfg k g ->
  forall j g', <[k:=g]> fs !! j = Some g' -> drawn_ok cfg j g'.
Proof.
  intros Hall Hg j g' Hj.
  apply list_lookup_insert_Some in Hj as [(-> & -> & _) | (_ & Hj)]; eauto.
Qed.

Lemma spawn_insert (fs : list fetch_pc) k g0 g (n : nat) :
  fs !! k = Some g0 -> (g0 = GNotStarted <-> g = GNotStarted) ->
  (forall j g', fs !! j = Some g' -> g' = GNotStarted <-> (n <= j)%nat) ->
  forall j g', <[k:=g]> fs !! j = Some g' -> g' = GNotStarted <-> (n <= j)%nat.
Proof.
  intros Hk Hg Hall j g' Hj.
  apply list_lookup_insert_Some in Hj as [(-> & -> & _) | (_ & Hj)]; [|eauto].
  rewrite <- Hg. eauto.
Qed.

Lemma async_main_inv cfg st st' :
  inv cfg st -> demonstrateAsyncFetching_step cfg st = Step st' -> inv cfg st'.
Proof.
  intros Hinv H.
  destruct Hinv as [Hlen Hspawn Hgo Hwg Hstart Hclosed Hclose Hcap Hdata Hdrawn Hdone].
  destruct st as [fs w c m ch pr].
  unfold demonstrateAsyncFetching_step in H. async_unfold.
  destruct m as [k|k| |]; try done.
  - destruct (k <? length (messages cfg))%nat eqn:Ek.
    + apply Nat.ltb_lt in Ek. unfold wg_add in H.
      destruct (w + 1 <? 0); [done |]. simplify_eq.
      split; simpl; async_unfold; try done; try (by intuition congruence). lia.
    + apply Nat.ltb_ge in Ek. simplify_eq.
      split; simpl; async_unfold; try done; try (by intuition congruence).
      intros j g Hj. pose proof (lookup_lt_Some _ _ _ Hj).
      specialize (Hspawn j g Hj). split; [intros Hg; apply Hspawn in Hg; lia | lia].
  - simplify_eq. specialize (Hgo k eq_refl).
    assert (fs !! k = Some GNotStarted) as Hk.
    { destruct (lookup_lt_is_Some_2 fs k) as [g Hg]; [lia |].
      rewrite Hg. f_equal. by apply (Hspawn k g Hg). }
    split; simpl; async_unfold; try done; try (by intuition congruence).
    + by rewrite length_insert.
    + intros j g Hj.
      apply list_lookup_insert_Some in Hj as [(-> & <- & _) | (Hne & Hj)].
      * split; [done | lia].
      * rewrite (Hspawn j g Hj). lia.
    + rewrite (wsum_insert_gain live fs k GNotStarted GSleep Hk eq_refl). simpl. lia.
    + by rewrite (flat_map_insert_same sent fs k GNotStarted GSleep Hk eq_refl).
    + by apply drawn_insert.
  - unfold chan_recv in H. destruct ch as [b cp cl]. simpl in *.
    destruct b as [|x rest].
    + destruct cl; [|done]. simplify_eq.
      split; simpl; async_unfold; try done; try (by intuition congruence).
    + simplify_eq.
      split; simpl; async_unfold; try done; try (by intuition congruence).
      by rewrite <- app_assoc.
Qed.

Lemma async_fetch_inv cfg k d st st' :
  inv cfg st -> fetchData_step cfg k d st = Step st' -> inv cfg st'.
Proof.
  intros Hinv H.
  destruct Hinv as [Hlen Hspawn Hgo Hwg Hstart Hclosed Hclose Hcap Hdata Hdrawn Hdone].
  destruct st as [fs w c m ch pr].
  unfold fetchData_step in H. async_unfold.
  destruct (fs !! k) as [g|] eqn:Hk; [|done].
  pose proof (wsum_lookup_le live fs k g Hk) as Hlive.
  pose proof (Hdrawn k g Hk) as Hg.
  destruct g as [| |d' data|d' data|d' data]; try done; simpl in Hlive, Hg.
  - destruct (bound cfg <=? 0) eqn:Eb; [done |]. apply Z.leb_gt in Eb.
    destruct ((0 <=? d) && (d <? bound cfg)) eqn:Ed; [|done].
    apply andb_true_iff in Ed as [Ed1 Ed2].
    apply Z.leb_le in Ed1. apply Z.ltb_lt in Ed2.
    destruct (messages cfg !! k) as [message|] eqn:Hm; [|done]. simplify_eq.
    split; simpl; async_unfold; try done; try (by intuition congruence).
    + by rewrite length_insert.
    + by apply (spawn_insert fs k GSleep).
    + by rewrite (wsum_insert_same live fs k _ _ Hk) by done.
    + by rewrite (wsum_insert_same live fs k _ _ Hk) by done.
    + by rewrite (flat_map_insert_same sent fs k _ _ Hk) by done.
    + apply drawn_insert; [done |]. by exists message.
  - unfold chan_send in H. destruct ch as [b cp cl]. simpl in *.
    destruct cl; [done |]. destruct (length b <? cp)%nat; [|done]. simplify_eq.
    split; simpl; async_unfold; try done; try (by intuition congruence).
    + by rewrite length_insert.
    + by apply (spawn_insert fs k (GSend d' data)).
    + by rewrite (wsum_insert_same live fs k _ _ Hk) by done.
    + by rewrite (wsum_insert_same live fs k _ _ Hk) by done.
    + rewrite (flat_map_insert_gain sent fs k _ _ Hk) by done.
      simpl. rewrite <- Hdata. solve_Permutation.
    + by apply drawn_insert.
  - unfold wg_done, wg_add in H. destruct (w + -1 <? 0); [done |]. simplify_eq.
    pose proof (wsum_insert live fs k (GExit d' data) (GDone d' data) Hk) as Hw.
    simpl in Hw.
    split; simpl; async_unfold; try done; try (by intuition congruence).
    + by rewrite length_insert.
    + by apply (spawn_insert fs k (GExit d' data)).
    + lia.
    + intros Hc. specialize (Hclose Hc). lia.
    + by rewrite (flat_map_insert_same sent fs k _ _ Hk) by done.
    + by apply drawn_insert.
Qed.

Lemma async_closer_inv cfg st st' :
  inv cfg st -> closer_step st = Step st' -> inv cfg st'.
Proof.
  intros Hinv H.
  destruct Hinv as [Hlen Hspawn Hgo Hwg Hstart Hclosed Hclose Hcap Hdata Hdrawn Hdone].
  destruct st as [fs w c m ch pr].
  unfold closer_step in H. async_unfold.
  destruct c; try done.
  - unfold wg_wait in H. destruct (w =? 0) eqn:Ew; [|done]. apply Z.eqb_eq in Ew.
    simplify_eq.
    split; simpl; async_unfold; try done; try (by intuition congruence).
    intros Hc. clear - Ew. destruct m; lia.
  - unfold chan_close in H. destruct ch as [b cp cl]. simpl in *.
    destruct cl; [done |]. simplify_eq.
    split; simpl; async_unfold; try done; try (by intuition congruence).
Qed.

Lemma async_exec_inv cfg a st st' :
  inv cfg st -> exec cfg a st = Step st' -> inv cfg st'.
Proof.
  destruct a; simpl; eauto using async_main_inv, async_fetch_inv, async_closer_inv.
Qed.

Lemma async_reachable_inv cfg st : reachable cfg st -> inv cfg st.
Proof.
  induction 1 as [|st a st' _ IH Hstep];
    [apply async_init_inv | by eapply async_exec_inv].
Qed.

Lemma async_run_reachable cfg sched st st' :
  reachable cfg st -> run cfg sched st = Step st' -> reachable cfg st'.
Proof.
  revert st. induction sched as [|a sched IH]; simpl; intros st Hr H.
  - by simplify_eq.
  - destruct (exec cfg a st) as [|st1|] eqn:E; try done.
    eapply IH; [|done]. by eapply reach_step.
Qed.

Lemma async_sent_count (l : list fetch_pc) :
  (length (flat_map sent l) + wsum sending l <= length l)%nat.
Proof.
  induction l as [|g l IH]; simpl; [lia |].
  rewrite length_app. destruct g; simpl; lia.
Qed.

(** A goroutine that is about to send finds the channel open and not full. *)
Lemma async_send_ready cfg st k d data :
  inv cfg st -> (length (messages cfg) <= capacity cfg)%nat ->
  fetches st !! k = Some (GSend d data) ->
  closed (dataChan st) = false
  /\ (length (buf (dataChan st)) < cap (dataChan st))%nat.
Proof.
  intros Hinv Hcapacity Hk.
  destruct Hinv as [Hlen Hspawn Hgo Hwg Hstart Hclosed Hclose Hcap Hdata Hdrawn Hdone].
  pose proof (wsum_lookup_le live _ _ _ Hk) as Hlive.
  pose proof (wsum_lookup_le sending _ _ _ Hk) as Hsending.
  pose proof (async_sent_count (fetches st)) as Hcount.
  apply Permutation_length in Hdata. rewrite length_app in Hdata.
  simpl in Hlive, Hsending. split; [|lia].
  destruct (closed (dataChan st)); [|done].
  assert (closer st = CDone) as Hc by (by apply Hclosed).
  assert (wsum live (fetches st) = 0%nat) by (apply Hclose; by right). lia.
Qed.

Lemma async_no_crash cfg a st m :
  inv cfg st -> (length (messages cfg) <= capacity cfg)%nat -> 0 < bound cfg ->
  exec cfg a st <> Crash m.
Proof.
  intros Hinv Hcapacity Hbound H.
  pose proof Hinv as
    [Hlen Hspawn Hgo Hwg Hstart Hclosed Hclose Hcap Hdata Hdrawn Hdone].
  destruct a as [|k d|]; simpl in H.
  - unfold demonstrateAsyncFetching_step in H.
    destruct (mainpc st) as [j|j| |] eqn:Hm; try done.
    + destruct (j <? length (messages cfg))%nat; [|done].
      unfold wg_add in H. unfold adding in Hwg. rewrite Hm in Hwg.
      destruct (wg st + 1 <? 0) eqn:E; [|done]. apply Z.ltb_lt in E. lia.
    + unfold chan_recv in H. destruct (buf (dataChan st)); [|done].
      by destruct (closed (dataChan st)).
  - unfold fetchData_step in H.
    destruct (fetches st !! k) as [g|] eqn:Hk; [|done].
    destruct g as [| |d' data|d' data|d' data]; try done.
    + destruct (bound cfg <=? 0) eqn:Eb; [apply Z.leb_le in Eb; lia |].
      destruct ((0 <=? d) && (d <? bound cfg)); [|done].
      by destruct (messages cfg !! k).
    + destruct (async_send_ready cfg st k d' data Hinv Hcapacity Hk) as [Hopen Hroom].
      unfold chan_send in H. rewrite Hopen in H.
      apply Nat.ltb_lt in Hroom. by rewrite Hroom in H.
    + pose proof (wsum_lookup_le live _ _ _ Hk) as Hlive. simpl in Hlive.
      unfold wg_done, wg_add in H.
      destruct (wg st + -1 <? 0) eqn:E; [|done]. apply Z.ltb_lt in E.
      unfold adding in Hwg. destruct (mainpc st); lia.
  - unfold closer_step in H. destruct (closer st) eqn:Hc; try done.
    + unfold wg_wait in H. by destruct (wg st =? 0).
    + unfold chan_close in H. destruct (closed (dataChan st)) eqn:E; [|done].
      assert (CClose = CDone) by (by apply Hclosed). done.
Qed.

(** A started goroutine that has not ended can run its next statement. *)
Lemma async_fetch_enabled cfg st k g :
  inv cfg st -> (length (messages cfg) <= capacity cfg)%nat -> 0 < bound cfg ->
  fetches st !! k = Some g -> (0 < live g)%nat ->
  exists st', exec cfg (AFetch k 0) st = Step st'.
Proof.
  intros Hinv Hcapacity Hbound Hk Hlive.
  pose proof Hinv as
    [Hlen Hspawn Hgo Hwg Hstart Hclosed Hclose Hcap Hdata Hdrawn Hdone].
  simpl. unfold fetchData_step. rewrite Hk.
  destruct g as [| |d' data|d' data|d' data]; simpl in Hlive; try lia.
  - destruct (bound cfg <=? 0) eqn:Eb; [apply Z.leb_le in Eb; lia |].
    assert ((0 <? bound cfg) = true) as -> by (by apply Z.ltb_lt). simpl.
    destruct (lookup_lt_is_Some_2 (messages cfg) k) as [message ->]; [|eauto].
    rewrite <- Hlen. by eapply lookup_lt_Some.
  - destruct (async_send_ready cfg st k d' data Hinv Hcapacity Hk) as [Hopen Hroom].
    unfold chan_send. rewrite Hopen. apply Nat.ltb_lt in Hroom. rewrite Hroom. eauto.
  - pose proof (wsum_lookup_le live _ _ _ Hk) as Hl. simpl in Hl.
    unfold wg_done, wg_add.
    assert ((wg st + -1 <? 0) = false) as ->; [|eauto].
    apply Z.ltb_ge. unfold adding in Hwg. destruct (mainpc st); lia.
Qed.

Lemma async_progress cfg st :
  inv cfg st -> (length (messages cfg) <= capacity cfg)%nat -> 0 < bound cfg ->
  mainpc st <> MDone -> exists a st', exec cfg a st = Step st'.
Proof.
  intros Hinv Hcapacity Hbound Hm.
  pose proof Hinv as
    [Hlen Hspawn Hgo Hwg Hstart Hclosed Hclose Hcap Hdata Hdrawn Hdone].
  destruct (mainpc st) as [j|j| |] eqn:Em; try done.
  - exists AMain. simpl. unfold demonstrateAsyncFetching_step. rewrite Em.
    destruct (j <? length (messages cfg))%nat; [|eauto].
    unfold wg_add. assert ((wg st + 1 <? 0) = false) as ->; [|eauto].
    apply Z.ltb_ge. unfold adding in Hwg. rewrite Em in Hwg. lia.
  - exists AMain. simpl. unfold demonstrateAsyncFetching_step. rewrite Em. eauto.
  - destruct (chan_recv (dataChan st)) as [|data c|] eqn:Er.
    + unfold chan_recv in Er. destruct (buf (dataChan st)); [|done].
      destruct (closed (dataChan st)) eqn:Ecl; [done |].
      unfold in_loop in Hstart. rewrite Em in Hstart.
      destruct (closer st) eqn:Ec.
      * assert (false = true) by (by apply Hstart). done.
      * destruct (wg st =? 0) eqn:Ew.
        -- exists ACloser. simpl. unfold closer_step, wg_wait. rewrite Ec, Ew. eauto.
        -- apply Z.eqb_neq in Ew. unfold adding in Hwg. rewrite Em in Hwg.
           destruct (wsum_pos_lookup live (fetches st)) as (k & g & Hk & Hg); [lia |].
           exists (AFetch k 0). by eapply async_fetch_enabled.
      * exists ACloser. simpl. unfold closer_step, chan_close. rewrite Ec, Ecl. eauto.
      * assert (false = true) by (by apply Hclosed). done.
    + exists AMain. simpl. unfold demonstrateAsyncFetching_step. rewrite Em, Er. eauto.
    + exists AMain. simpl. unfold demonstrateAsyncFetching_step. rewrite Em, Er. eauto.
Qed.

Lemma async_exec_measure cfg a st st' :
  inv cfg st -> exec cfg a st = Step st' -> (measure cfg st' < measure cfg st)%nat.
Proof.
  intros Hinv H.
  destruct Hinv as [Hlen Hspawn Hgo Hwg Hstart Hclosed Hclose Hcap Hdata Hdrawn Hdone].
  destruct st as [fs w c m ch pr]. unfold measure.
  destruct a as [|k d|]; simpl in H.
  - unfold demonstrateAsyncFetching_step in H. async_unfold.
    destruct m as [j|j| |]; try done.
    + destruct (j <? length (messages cfg))%nat eqn:Ej.
      * apply Nat.ltb_lt in Ej. unfold wg_add in H.
        destruct (w + 1 <? 0); [done |]. simplify_eq. simpl. lia.
      * simplify_eq. simpl. assert (c = CNotStarted) as -> by (by apply Hstart). lia.
    + simplify_eq. specialize (Hgo j eq_refl). simpl.
      assert (fs !! j = Some GNotStarted) as Hj.
      { destruct (lookup_lt_is_Some_2 fs j) as [g Hg]; [lia |].
        rewrite Hg. f_equal. by apply (Hspawn j g Hg). }
      rewrite (wsum_insert_same fetch_weight fs j _ _ Hj) by done. lia.
    + unfold chan_recv in H. destruct ch as [b cp cl]. simpl in *.
      destruct b as [|x rest]; [destruct cl; [|done] |]; simplify_eq; simpl; lia.
  - unfold fetchData_step in H. async_unfold.
    destruct (fs !! k) as [g|] eqn:Hk; [|done].
    destruct g as [| |d' data|d' data|d' data]; try done.
    + destruct (bound cfg <=? 0); [done |].
      destruct ((0 <=? d) && (d <? bound cfg)); [|done].
      destruct (messages cfg !! k) as [message|]; [|done]. simplify_eq. simpl.
      pose proof (wsum_insert fetch_weight fs k _ (GSend d (message d)) Hk) as Hw.
      simpl in Hw. lia.
    + unfold chan_send in H. destruct ch as [b cp cl]. simpl in *.
      destruct cl; [done |]. destruct (length b <? cp)%nat; [|done]. simplify_eq. simpl.
      pose proof (wsum_insert fetch_weight fs k _ (GExit d' data) Hk) as Hw.
      simpl in Hw. rewrite length_app. simpl. lia.
    + unfold wg_done, wg_add in H. destruct (w + -1 <? 0); [done |]. simplify_eq. simpl.
      pose proof (wsum_insert fetch_weight fs k _ (GDone d' data) Hk) as Hw.
      simpl in Hw. lia.
  - unfold closer_step in H. async_unfold. destruct c; try done.
    + unfold wg_wait in H. destruct (w =? 0); [|done]. simplify_eq. simpl. lia.
    + unfold chan_close in H. destruct ch as [b cp cl]. simpl in *.
      destruct cl; [done |]. simplify_eq. simpl. lia.
Qed.

(** What each goroutine drew and built, once all have ended. *)
Lemma async_sent_all (ms : list (Z -> string)) (fs : list fetch_pc) :
  length fs = length ms ->
  (forall k g, fs !! k = Some g ->
     exists d message, g = GDone d (message d) /\ ms !! k = Some message) ->
  flat_map sent fs = zip_with (fun message d => message d) ms (drawn <$> fs).
Proof.
  revert ms. induction fs as [|g fs IH]; intros [|message ms] Hlen Hall;
    simpl in *; try done.
  destruct (Hall 0%nat g eq_refl) as (d & message' & -> & Hm). simpl in *.
  simplify_eq. f_equal. apply IH; [lia |].
  intros k g Hk. apply (Hall (S k) g Hk).
Qed.

Lemma async_done_all cfg st :
  inv cfg st -> mainpc st = MDone ->
  forall k g, fetches st !! k = Some g ->
    exists d message, g = GDone d (message d) /\ messages cfg !! k = Some message
                      /\ 0 <= d < bound cfg.
Proof.
  intros Hinv Hm k g Hk.
  destruct Hinv as [Hlen Hspawn Hgo Hwg Hstart Hclosed Hclose Hcap Hdata Hdrawn Hdone].
  destruct (Hdone Hm) as [Hcl _].
  assert (wsum live (fetches st) = 0%nat) as Hl.
  { apply Hclose. right. by apply Hclosed. }
  pose proof (wsum_lookup_le live _ _ _ Hk) as Hg.
  pose proof (lookup_lt_Some _ _ _ Hk) as Hlt.
  pose proof (Hspawn k g Hk) as Hs. unfold spawned in Hs. rewrite Hm in Hs.
  pose proof (Hdrawn k g Hk) as Hd.
  destruct g as [| |d data|d data|d data]; simpl in Hg, Hd; try lia.
  - assert (length (messages cfg) <= k)%nat by (by apply Hs). lia.
  - destruct Hd as (message & Hmsg & -> & Hrange). by exists d, message.
Qed.

(** When the [range] of the main goroutine has ended, the lines printed
    are the strings of all goroutines, each once. *)
Lemma async_done_printed cfg st :
  inv cfg st -> mainpc st = MDone ->
  exists ds, length ds = length (messages cfg)
             /\ Forall (fun d => 0 <= d < bound cfg) ds
             /\ printed st ≡ₚ zip_with (fun message d => message d) (messages cfg) ds.
Proof.
  intros Hinv Hm. pose proof (async_done_all cfg st Hinv Hm) as Hall.
  destruct Hinv as [Hlen Hspawn Hgo Hwg Hstart Hclosed Hclose Hcap Hdata Hdrawn Hdone].
  destruct (Hdone Hm) as [_ Hbuf]. rewrite Hbuf, app_nil_r in Hdata.
  exists (drawn <$> fetches st). split; [by rewrite length_fmap |]. split.
  - apply Forall_fmap, Forall_lookup. intros k g Hk.
    destruct (Hall k g Hk) as (d & message & -> & _ & Hd). done.
  - rewrite Hdata, (async_sent_all (messages cfg)); [done | done |].
    intros k g Hk. destruct (Hall k g Hk) as (d & message & -> & Hmsg & _). eauto.
Qed.

Lemma zip_with_const_l {A B C : Type} (h : A -> C) (l : list A) (k : list B) :
  length k = length l ->
  zip_with (fun message d => message d) ((fun x (_ : B) => h x) <$> l) k = h <$> l.
Proof.
  revert k. induction l as [|x l IH]; intros [|d k] Hlen; simpl in *; try done.
  f_equal. apply IH. lia.
Qed.

(** What has been sent is among the strings of the sources, each once. *)
Lemma async_sent_sub (h : string -> string) (sources : list string)
    (ms : list (Z -> string)) (fs : list fetch_pc) :
  ms = (fun source _ => h source) <$> sources ->
  (forall k g data, fs !! k = Some g -> sent g = [data] ->
     exists d message, ms !! k = Some message /\ data = message d) ->
  flat_map sent fs ⊆+ h <$> sources.
Proof.
  revert sources ms. induction fs as [|g fs IH]; intros sources ms -> Hall; simpl.
  - apply submseteq_nil_l.
  - destruct sources as [|source sources].
    + assert (sent g = []) as ->.
      { destruct (sent g) as [|data [|]] eqn:E; try done;
          [| by destruct g].
        by destruct (Hall 0%nat g data eq_refl E) as (? & ? & ? & _). }
      simpl. apply (IH [] _ eq_refl). intros k g' data Hk Hs.
      destruct (Hall (S k) g' data Hk Hs) as (? & ? & ? & _). done.
    + assert (flat_map sent fs ⊆+ h <$> sources) as Hrest.
      { apply (IH sources _ eq_refl). intros k g' data Hk Hs.
        apply (Hall (S k) g' data Hk Hs). }
      destruct (sent g) as [|data [|]] eqn:E; simpl.
      * by apply submseteq_cons.
      * destruct (Hall 0%nat g data eq_refl E) as (d & message & Hm & ->).
        simpl in Hm. simplify_eq. by apply submseteq_skip.
      * by destruct g.
Qed.

Lemma async_sent_built cfg st k g data :
  inv cfg st -> fetches st !! k = Some g -> sent g = [data] ->
  exists d message, messages cfg !! k = Some message /\ data = message d.
Proof.
  intros Hinv Hk Hs. pose proof (i_drawn _ _ Hinv k g Hk) as Hd.
  destruct g as [| |d data'|d data'|d data']; simpl in *; try done; simplify_eq.
  - destruct Hd as (message & ? & ? & _). eauto.
  - destruct Hd as (message & ? & ? & _). eauto.
Qed.

(** The fan-in of both demos is safe and cannot get stuck: with a channel
    that has room for one string per goroutine (as [make(chan string,
    len(sources))] gives) and a positive argument of [rand.Intn], in every
    state of every interleaving no statement panics (no send on the closed
    channel, no second [close], no negative WaitGroup counter), a
    goroutine that is about to send is never blocked, while the main
    goroutine has not finished its [range] some goroutine can run, and
    every statement uses up the measure, so every run ends. *)
Theorem fan_in_safe_and_live (cfg : Config) (st : state) :
  (length (messages cfg) <= capacity cfg)%nat -> 0 < bound cfg ->
  reachable cfg st ->
  (forall a m, exec cfg a st <> Crash m)
  /\ (forall k d d' data, fetches st !! k = Some (GSend d data) ->
        exists st', exec cfg (AFetch k d') st = Step st')
  /\ (mainpc st <> MDone -> exists a st', exec cfg a st = Step st')
  /\ (forall a st', exec cfg a st = Step st' ->
        (measure cfg st' < measure cfg st)%nat).
Proof.
  intros Hcapacity Hbound Hr. pose proof (async_reachable_inv cfg st Hr) as Hinv.
  split; [intros a m; by apply async_no_crash |].
  split; [|split; [by apply async_progress | intros a st'; by apply async_exec_measure]].
  intros k d d' data Hk.
  destruct (async_send_ready cfg st k d data Hinv Hcapacity Hk) as [Hopen Hroom].
  simpl. unfold fetchData_step, chan_send. rewrite Hk, Hopen.
  apply Nat.ltb_lt in Hroom. rewrite Hroom. eauto.
Qed.

Lemma fan_in_safe_and_live_witness :
  exists st',
    exec (demonstrateAsyncFetching_config demo_sources) (AFetch 0 0)
         (state_after (demonstrateAsyncFetching_config demo_sources) sending_schedule)
    = Step st'.
Proof.
  destruct (fan_in_safe_and_live (demonstrateAsyncFetching_config demo_sources)
              (state_after (demonstrateAsyncFetching_config demo_sources)
                           sending_schedule)) as (_ & H & _).
  - simpl. lia.
  - simpl. lia.
  - eapply async_run_reachable with (sched := sending_schedule);
      [apply reach_init | vm_compute; reflexivity].
  - apply (H 0%nat 7 0 "Data fetched from API-1"). vm_compute. reflexivity.
Defined.

(** [demonstrateAsyncFetching] prints one line per source: in every state
    of every interleaving the lines printed so far are lines of different
    sources, and when the [range] over [dataChan] has ended they are
    "Data fetched from <source>" for every source, each exactly once, in
    some order. *)
Theorem async_fetching_prints_every_source (sources : list string) (st : state) :
  reachable (demonstrateAsyncFetching_config sources) st ->
  printed st ⊆+ fetchData_data <$> sources
  /\ (mainpc st = MDone -> printed st ≡ₚ fetchData_data <$> sources).
Proof.
  intros Hr. pose proof (async_reachable_inv _ st Hr) as Hinv. split.
  - transitivity (printed st ++ buf (dataChan st)); [by apply submseteq_inserts_r |].
    rewrite (i_data _ _ Hinv).
    apply (async_sent_sub fetchData_data sources
             (messages (demonstrateAsyncFetching_config sources))); [done |].
    intros k g data Hk Hs. by eapply async_sent_built.
  - intros Hm. destruct (async_done_printed _ st Hinv Hm) as (ds & Hlen & _ & Hp).
    rewrite Hp. simpl. rewrite zip_with_const_l; [done |].
    simpl in Hlen. by rewrite length_fmap in Hlen.
Qed.

Lemma async_fetching_prints_every_source_witness :
  printed (state_after (demonstrateAsyncFetching_config demo_sources)
                       (full_schedule [3; 1; 4; 1; 5]))
  ≡ₚ fetchData_data <$> demo_sources.
Proof.
  apply (async_fetching_prints_every_source demo_sources).
  - eapply async_run_reachable with (sched := full_schedule [3; 1; 4; 1; 5]);
      [apply reach_init | vm_compute; reflexivity].
  - vm_compute. reflexivity.
Defined.

(** [demonstrateWorkerPool] prints one line per job: when the [range]
    over [results] has ended, the lines are "Worker <i%5+1> processed job
    <i> in <time>" for every job i of 1..15, each exactly once, in some
    order, with times below one second. *)
Theorem worker_pool_one_line_per_job (st : state) :
  reachable demonstrateWorkerPool_config st -> mainpc st = MDone ->
  exists ds, length ds = 15%nat
             /\ Forall (fun d => 0 <= d < 1000) ds
             /\ printed st
                ≡ₚ zip_with (fun i d => Process_result (i mod 5 + 1) i d) (seqZ 1 15) ds.
Proof.
  intros Hr Hm. pose proof (async_reachable_inv _ st Hr) as Hinv.
  destruct (async_done_printed _ st Hinv Hm) as (ds & Hlen & Hds & Hp).
  exists ds. split; [by rewrite Hlen |]. split; [done |].
  unfold demonstrateWorkerPool_config in Hp. cbn [messages] in Hp.
  by rewrite zip_with_fmap_l in Hp.
Qed.

Lemma worker_pool_one_line_per_job_witness :
  exists ds, length ds = 15%nat
             /\ Forall (fun d => 0 <= d < 1000) ds
             /\ printed (state_after demonstrateWorkerPool_config
                           (full_schedule worker_pool_draws))
                ≡ₚ zip_with (fun i d => Process_result (i mod 5 + 1) i d) (seqZ 1 15) ds.
Proof.
  apply worker_pool_one_line_per_job.
  - eapply async_run_reachable with (sched := full_schedule worker_pool_draws);
      [apply reach_init | vm_compute; reflexivity].
  - vm_compute. reflexivity.
Defined.

(** The lines of one run of the worker pool. *)
Example worker_pool_first_lines :
  take 4 (printed (state_after demonstrateWorkerPool_config
                     (full_schedule worker_pool_draws)))
  = ["Worker 2 processed job 1 in 3ms"; "Worker 3 processed job 2 in 1ms";
     "Worker 4 processed job 3 in 4ms"; "Worker 5 processed job 4 in 0s"].
Proof. vm_compute. reflexivity. Qed.

End AsyncFetchingProofs.

(** * [channelDirection]: two logs in step *)

Section ChannelDirectionProofs.
Import ChannelDirection.

Lemma sent_of_snoc out l :
  sent_of (out ++ [l]) = sent_of out ++ match l with Sent i => [i] | _ => [] end.
Proof. unfold sent_of. rewrite omap_app. by destruct l. Qed.

Lemma received_of_snoc out l :
  received_of (out ++ [l])
  = received_of out ++ match l with Received num => [num] | _ => [] end.
Proof. unfold received_of. rewrite omap_app. by destruct l. Qed.

Lemma seqZ_last (k : Z) : 1 <= k -> seqZ 1 k = seqZ 1 (k - 1) ++ [k].
Proof.
  intros Hk. replace k with (k - 1 + 1) at 1 by lia.
  rewrite seqZ_snoc by lia. do 2 f_equal. lia.
Qed.

Lemma direction_init_inv n : inv n init.
Proof.
  split; unfold sent_count, received_count, handed; simpl; try done;
    try (by intuition congruence).
Qed.

Ltac seqZ_goal :=
  match goal with
  | H : ?f ?out = seqZ 1 _ |- ?f ?out = seqZ 1 _ =>
      rewrite H; apply seqZ_to_nat; lia
  | H : ?f ?out = seqZ 1 _ |- ?f ?out ++ [_] = seqZ 1 ?b =>
      rewrite H, (seqZ_last b) by lia;
      f_equal; [apply seqZ_to_nat; lia | f_equal; lia]
  end.

Ltac direction_fields :=
  split; unfold sent_count, received_count, handed in *; simpl in *;
  rewrite ?sent_of_snoc, ?received_of_snoc, ?app_nil_r, ?length_app, ?last_snoc;
  simpl;
  try done; try lia; try (by intuition congruence);
  try (intros; simplify_eq; lia); try seqZ_goal.

Lemma direction_exec_inv n a st st' :
  n < 2 ^ 63 - 1 -> inv n st -> exec n a st = Step st' -> inv n st'.
Proof.
  intros Hn Hinv H.
  destruct Hinv as [Hsent Hrecv Hlen Hlast Hloop Hprint Hnum Hclosed Hsignal Hmain
                      Hstart1 Hstart2].
  destruct st as [s r m cl out].
  unfold sent_count, received_count, handed in *. simpl in *.
  destruct a; simpl in H.
  - unfold channelDirection_step in H. simpl in H.
    destruct m; try done; simplify_eq.
    + assert (s = SNotStarted) as -> by intuition.
      assert (r = RNotStarted) as -> by intuition. direction_fields.
    + assert (r = RNotStarted) as -> by intuition. direction_fields.
    + assert (r = RDone) as -> by intuition.
      assert (s = SDone) as -> by intuition. direction_fields.
  - unfold sender_step in H. simpl in H.
    destruct s as [|i|i|]; try done.
    + specialize (Hloop i eq_refl). destruct (i <=? n) eqn:Ei.
      * apply Z.leb_le in Ei. destruct cl; [done |]. destruct r; try done.
        simplify_eq. direction_fields.
      * apply Z.leb_gt in Ei. destruct cl; [done |]. simplify_eq.
        destruct r as [| |num| |]; try (destruct (Hnum num eq_refl));
          direction_fields.
    + specialize (Hprint i eq_refl). simplify_eq.
      assert (int_incr i = i + 1) as -> by (apply int_incr_small; lia).
      destruct r as [| |num| |]; try (destruct (Hnum num eq_refl));
        direction_fields.
  - unfold receiver_step in H. simpl in H.
    destruct r as [| |num| |]; try done.
    + destruct cl; [|done]. simplify_eq. direction_fields.
    + destruct (Hnum num eq_refl) as [Hh Hpos]. simplify_eq.
      destruct s as [|i|i|]; direction_fields.
    + destruct m; try done. simplify_eq. direction_fields.
Qed.

Lemma direction_reachable_inv n st : n < 2 ^ 63 - 1 -> reachable n st -> inv n st.
Proof.
  intros Hn. induction 1 as [|st a st' _ IH Hstep];
    [apply direction_init_inv | by eapply direction_exec_inv].
Qed.

Lemma direction_run_reachable n sched st st' :
  reachable n st -> run n sched st = Step st' -> reachable n st'.
Proof.
  revert st. induction sched as [|a sched IH]; simpl; intros st Hr H.
  - by simplify_eq.
  - destruct (exec n a st) as [|st1|] eqn:E; try done.
    eapply IH; [|done]. by eapply reach_step.
Qed.

Lemma direction_no_crash n a st m : inv n st -> exec n a st <> Crash m.
Proof.
  intros Hinv H.
  destruct Hinv as [Hsent Hrecv Hlen Hlast Hloop Hprint Hnum Hclosed Hsignal Hmain
                      Hstart1 Hstart2].
  destruct st as [s r mp cl out]. simpl in *.
  destruct a; simpl in H.
  - unfold channelDirection_step in H. simpl in H. by destruct mp.
  - unfold sender_step in H. simpl in H. destruct s as [|i|i|]; try done.
    destruct cl; [assert (SLoop i = SDone) by intuition; done |].
    destruct (i <=? n); [by destruct r | done].
  - unfold receiver_step in H. simpl in H. destruct r; try done.
    + by destruct cl.
    + by destruct mp.
Qed.

Lemma direction_progress n st :
  inv n st -> mainpc st <> MDone -> exists a st', exec n a st = Step st'.
Proof.
  intros Hinv Hm.
  destruct Hinv as [Hsent Hrecv Hlen Hlast Hloop Hprint Hnum Hclosed Hsignal Hmain
                      Hstart1 Hstart2].
  destruct st as [s r mp cl out]. simpl in *.
  destruct mp; try done; try (exists AMain; simpl; eauto; fail).
  destruct r as [| |num| |].
  - exfalso. assert (MWait = MSpawn1 \/ MWait = MSpawn2) by intuition.
    intuition congruence.
  - destruct cl eqn:Hcl;
      [exists AReceiver; simpl; unfold receiver_step; simpl; eauto |].
    destruct s as [|i|i|].
    + exfalso. assert (MWait = MSpawn1) by intuition. done.
    + exists ASender. simpl. unfold sender_step. simpl. destruct (i <=? n); eauto.
    + exists ASender. simpl. unfold sender_step. simpl. eauto.
    + exfalso. assert (false = true) by intuition. done.
  - exists AReceiver. simpl. unfold receiver_step. simpl. eauto.
  - exists AReceiver. simpl. unfold receiver_step. simpl. eauto.
  - exfalso. assert (MWait = MPrint \/ MWait = MDone) by intuition.
    intuition congruence.
Qed.

Lemma direction_exec_measure n a st st' :
  n < 2 ^ 63 - 1 -> inv n st -> exec n a st = Step st' ->
  (measure n st' < measure n st)%nat.
Proof.
  intros Hn Hinv H.
  destruct Hinv as [Hsent Hrecv Hlen Hlast Hloop Hprint Hnum Hclosed Hsignal Hmain
                      Hstart1 Hstart2].
  destruct st as [s r m cl out]. unfold measure. simpl in *.
  destruct a; simpl in H.
  - unfold channelDirection_step in H. simpl in H.
    destruct m; try done; simplify_eq; simpl.
    + assert (s = SNotStarted) as -> by intuition. lia.
    + assert (r = RNotStarted) as -> by intuition. lia.
    + lia.
  - unfold sender_step in H. simpl in H.
    destruct s as [|i|i|]; try done.
    + specialize (Hloop i eq_refl). destruct (i <=? n) eqn:Ei.
      * apply Z.leb_le in Ei. destruct cl; [done |]. destruct r; try done.
        simplify_eq. simpl. lia.
      * destruct cl; [done |]. simplify_eq. simpl. lia.
    + specialize (Hprint i eq_refl). simplify_eq.
      assert (int_incr i = i + 1) as -> by (apply int_incr_small; lia). simpl. lia.
  - unfold receiver_step in H. simpl in H.
    destruct r as [| |num| |]; try done.
    + destruct cl; [|done]. simplify_eq. simpl. lia.
    + simplify_eq. simpl. lia.
    + destruct m; try done. simplify_eq. simpl. lia.
Qed.

(** [sender] and [receiver] report the same numbers in the same order and
    stay in step.  In every state of every interleaving the "Sent" lines
    are 1, 2, ... in order, the "Received" lines are 1, 2, ... in order, and
    the two counts differ by at most one; no statement panics, before the
    end some goroutine can run, every statement uses up the measure; and
    when [channelDirection] has printed its last line, that line is
    "Communication completed!", after the "Sent" and "Received" lines of
    all of 1..n. *)
Theorem channel_direction_in_step (n : Z) (st : state) :
  n < 2 ^ 63 - 1 -> reachable n st ->
  sent_of (output st) = seqZ 1 (sent_count n st)
  /\ received_of (output st) = seqZ 1 (received_count n st)
  /\ -1 <= sent_count n st - received_count n st <= 1
  /\ (forall a m, exec n a st <> Crash m)
  /\ (mainpc st <> MDone -> exists a st', exec n a st = Step st')
  /\ (forall a st', exec n a st = Step st' -> (measure n st' < measure n st)%nat)
  /\ (mainpc st = MDone ->
      last (output st) = Some Completed
      /\ sent_of (output st) = seqZ 1 n
      /\ received_of (output st) = seqZ 1 n
      /\ length (output st) = (2 * Z.to_nat n + 1)%nat).
Proof.
  intros Hn Hr. pose proof (direction_reachable_inv n st Hn Hr) as Hinv.
  split; [apply (i_sent _ _ Hinv) |].
  split; [apply (i_received _ _ Hinv) |].
  split; [unfold sent_count, received_count;
          destruct (sender st), (receiver st); lia |].
  split; [intros a m; by apply direction_no_crash |].
  split; [by apply direction_progress |].
  split; [intros a st'; by apply direction_exec_measure |].
  intros Hm.
  destruct Hinv as [Hsent Hrecv Hlen Hlast Hloop Hprint Hnum Hclosed Hsignal Hmain
                      Hstart1 Hstart2].
  assert (receiver st = RDone) as Er by intuition.
  assert (sender st = SDone) as Es by intuition.
  unfold sent_count, received_count, handed in *. rewrite Es, Er, ?Hm in *.
  split; [by apply Hlast |].
  split; [rewrite Hsent; apply seqZ_to_nat; lia |].
  split; [rewrite Hrecv; apply seqZ_to_nat; lia |]. lia.
Qed.

Lemma channel_direction_in_step_witness :
  show <$> output (state_after 3 (receiver_first_schedule 3))
  = ["Received: 1"; "Sent: 1"; "Received: 2"; "Sent: 2"; "Received: 3"; "Sent: 3";
     "Communication completed!"]
  /\ sent_of (output (state_after 3 (receiver_first_schedule 3))) = seqZ 1 3
  /\ received_of (output (state_after 3 (receiver_first_schedule 3))) = seqZ 1 3.
Proof.
  split; [vm_compute; reflexivity |].
  destruct (channel_direction_in_step 3 (state_after 3 (receiver_first_schedule 3)))
    as (_ & _ & _ & _ & _ & _ & H).
  - vm_compute. reflexivity.
  - eapply direction_run_reachable with (sched := receiver_first_schedule 3);
      [apply reach_init | vm_compute; reflexivity].
  - destruct H as (_ & Hs & Hr & _); [vm_compute; reflexivity |]. by split.
Defined.

End ChannelDirectionProofs.

(** * [waitGroupExample]: the barrier *)

Section WaitGroupExampleProofs.
Import WaitGroupExample.

Lemma lines_of_snoc id out l :
  lines_of id (out ++ [l]) = lines_of id out ++ (if about id l then [l] else []).
Proof. unfold lines_of. rewrite List.filter_app. simpl. by destruct (about id l). Qed.

Lemma about_other id id' l :
  id' <> id -> l = Starting id \/ l = Finished id -> about id' l = false.
Proof. intros Hne [-> | ->]; simpl; by apply Z.eqb_neq. Qed.

Lemma ids_insert (ws : list worker) k id pc pc' :
  ws !! k = Some (MkWorker id pc) ->
  (forall j w, ws !! j = Some w -> w_id w = Z.of_nat j + 1) ->
  forall j w, <[k := MkWorker id pc']> ws !! j = Some w -> w_id w = Z.of_nat j + 1.
Proof.
  intros Hk Hids j w Hj.
  apply list_lookup_insert_Some in Hj as [(-> & <- & _) | (_ & Hj)]; [|eauto].
  apply (Hids _ _ Hk).
Qed.

(** A worker's line does not change what the others have printed. *)
Lemma lines_insert_print (ws : list worker) k id pc pc' out l :
  (forall j w, ws !! j = Some w -> w_id w = Z.of_nat j + 1) ->
  ws !! k = Some (MkWorker id pc) ->
  (forall j w, ws !! j = Some w -> lines_of (w_id w) out = reported w) ->
  l = Starting id \/ l = Finished id ->
  reported (MkWorker id pc') = reported (MkWorker id pc) ++ [l] ->
  forall j w, <[k := MkWorker id pc']> ws !! j = Some w ->
    lines_of (w_id w) (out ++ [l]) = reported w.
Proof.
  intros Hids Hk Hlines Hl Hrep j w Hj. rewrite lines_of_snoc.
  pose proof (Hids _ _ Hk) as Hid. simpl in Hid.
  apply list_lookup_insert_Some in Hj as [(-> & <- & _) | (Hne & Hj)].
  - simpl. rewrite Hrep, <- (Hlines _ _ Hk). simpl.
    destruct Hl as [-> | ->]; simpl; by rewrite Z.eqb_refl.
  - rewrite (about_other id (w_id w) l); [by rewrite app_nil_r; eauto | | done].
    rewrite (Hids _ _ Hj), Hid. lia.
Qed.

Lemma lines_insert_silent (ws : list worker) k id pc pc' out :
  ws !! k = Some (MkWorker id pc) ->
  (forall j w, ws !! j = Some w -> lines_of (w_id w) out = reported w) ->
  reported (MkWorker id pc') = reported (MkWorker id pc) ->
  forall j w, <[k := MkWorker id pc']> ws !! j = Some w ->
    lines_of (w_id w) out = reported w.
Proof.
  intros Hk Hlines Hrep j w Hj.
  apply list_lookup_insert_Some in Hj as [(-> & <- & _) | (_ & Hj)]; [|eauto].
  rewrite Hrep. apply (Hlines _ _ Hk).
Qed.

Lemma none_print (ws : list worker) k id pc out l :
  (forall j w, ws !! j = Some w -> w_id w = Z.of_nat j + 1) ->
  ws !! k = Some (MkWorker id pc) ->
  (forall id', Z.of_nat (length ws) < id' \/ id' < 1 -> lines_of id' out = []) ->
  l = Starting id \/ l = Finished id ->
  forall id', Z.of_nat (length ws) < id' \/ id' < 1 -> lines_of id' (out ++ [l]) = [].
Proof.
  intros Hids Hk Hnone Hl id' Hid'. rewrite lines_of_snoc, (Hnone id' Hid').
  pose proof (Hids _ _ Hk) as Hid. simpl in Hid.
  pose proof (lookup_lt_Some _ _ _ Hk).
  rewrite (about_other id id' l); [done | lia | done].
Qed.

Ltac wait_fields :=
  split; unfold adding, main_lines in *; simpl in *;
  rewrite ?length_app, ?wsum_snoc, ?last_snoc, ?length_insert; simpl;
  try done; try lia;
  try (by intros [|]);
  try (intros; simplify_eq; simpl in *; lia);
  try (intros ? ?; exfalso;
       first [by eauto
             | match goal with H : forall i, _ <> _ |- _ => by eapply H end]).

Lemma wait_init_inv n : inv n init.
Proof. wait_fields. Qed.

Lemma wait_main_inv n st st' :
  n < 2 ^ 63 - 1 -> inv n st -> waitGroupExample_step n st = Step st' -> inv n st'.
Proof.
  intros Hn Hinv H.
  destruct Hinv as [Hids Hadd Hgo Hall Hwg Hwait Hlines Hnone Hlen Hlast].
  destruct st as [ws w m out].
  unfold waitGroupExample_step in H. unfold adding, main_lines in *. simpl in *.
  destruct m as [i|i| | | |]; try done.
  - destruct (Hadd i eq_refl) as [Hi Hle]. destruct (i <=? n) eqn:Ei.
    + apply Z.leb_le in Ei. unfold wg_add in H.
      destruct (w + 1 <? 0); [done |]. simplify_eq.
      wait_fields.
    + apply Z.leb_gt in Ei. simplify_eq.
      wait_fields.
  - destruct (Hgo i eq_refl) as [Hi Hle]. simplify_eq.
    assert (int_incr (Z.of_nat (length ws) + 1) = Z.of_nat (length ws) + 1 + 1) as ->
      by (apply int_incr_small; lia).
    wait_fields.
    + intros k wk Hk. apply lookup_snoc_Some in Hk as [[Hlt Hk] | [-> <-]];
        [eauto | simpl; lia].
    + unfold live. simpl. lia.
    + intros k wk Hk. apply lookup_snoc_Some in Hk as [[Hlt Hk] | [-> <-]];
        [eauto |]. simpl. apply Hnone. lia.
    + intros id Hid. apply Hnone. lia.
  - simplify_eq. wait_fields.
    + intros _ _. by apply Hall.
    + intros k wk Hk. rewrite lines_of_snoc. simpl. rewrite app_nil_r. eauto.
    + intros id Hid. rewrite lines_of_snoc. simpl. rewrite app_nil_r. eauto.
  - unfold wg_wait in H. destruct (w =? 0) eqn:Ew; [|done]. apply Z.eqb_eq in Ew.
    simplify_eq. wait_fields.
    intros _ _. by apply Hall.
  - simplify_eq. wait_fields.
    + intros _ _. by apply Hall.
    + intros _. apply Hwait. by left.
    + intros k wk Hk. rewrite lines_of_snoc. simpl. rewrite app_nil_r. eauto.
    + intros id Hid. rewrite lines_of_snoc. simpl. rewrite app_nil_r. eauto.
Qed.

Ltac worker_close :=
  first
    [ by eapply ids_insert
    | by eapply lines_insert_print; eauto
    | by eapply lines_insert_silent; eauto
    | by eapply none_print; eauto
    | match goal with Hbusy : _ -> False |- _ =>
        first [ intros ->; destruct Hbusy; by right
              | let Hm := fresh in intros Hm; destruct (Hbusy Hm) ]
      end ].

Lemma wait_worker_inv n k st st' :
  inv n st -> worker_step k st = Step st' -> inv n st'.
Proof.
  intros Hinv H.
  destruct Hinv as [Hids Hadd Hgo Hall Hwg Hwait Hlines Hnone Hlen Hlast].
  destruct st as [ws w m out].
  unfold worker_step in H. unfold adding, main_lines in *. simpl in *.
  destruct (ws !! k) as [[id pc]|] eqn:Hk; [|done].
  pose proof (wsum_lookup_le live ws k _ Hk) as Hlive. unfold live at 1 in Hlive.
  simpl in Hlive.
  assert (m = MCompleted \/ m = MDone -> False) as Hbusy.
  { intros Hm. specialize (Hwait Hm). destruct pc; simpl in Hlive; try lia.
    simpl in H. done. }
  destruct pc; try done.
  - simplify_eq.
    pose proof (wsum_insert live ws k _ (MkWorker id WSleep) Hk) as Hw1.
    pose proof (wsum_insert (fun w => length (reported w)) ws k _
                  (MkWorker id WSleep) Hk) as Hw2.
    unfold live in Hw1 at 2 4. simpl in Hw1, Hw2.
    wait_fields; worker_close.
  - simplify_eq.
    pose proof (wsum_insert live ws k _ (MkWorker id WEnd) Hk) as Hw1.
    pose proof (wsum_insert (fun w => length (reported w)) ws k _
                  (MkWorker id WEnd) Hk) as Hw2.
    unfold live in Hw1 at 2 4. simpl in Hw1, Hw2.
    wait_fields; worker_close.
  - simplify_eq.
    pose proof (wsum_insert live ws k _ (MkWorker id WExit) Hk) as Hw1.
    pose proof (wsum_insert (fun w => length (reported w)) ws k _
                  (MkWorker id WExit) Hk) as Hw2.
    unfold live in Hw1 at 2 4. simpl in Hw1, Hw2.
    wait_fields; worker_close.
  - unfold wg_done, wg_add in H. destruct (w + -1 <? 0); [done |]. simplify_eq.
    pose proof (wsum_insert live ws k _ (MkWorker id WDone) Hk) as Hw1.
    pose proof (wsum_insert (fun w => length (reported w)) ws k _
                  (MkWorker id WDone) Hk) as Hw2.
    unfold live in Hw1 at 2 4. simpl in Hw1, Hw2.
    wait_fields; worker_close.
Qed.

Lemma wait_exec_inv n a st st' :
  n < 2 ^ 63 - 1 -> inv n st -> exec n a st = Step st' -> inv n st'.
Proof. destruct a; simpl; eauto using wait_main_inv, wait_worker_inv. Qed.

Lemma wait_reachable_inv n st : n < 2 ^ 63 - 1 -> reachable n st -> inv n st.
Proof.
  intros Hn. induction 1 as [|st a st' _ IH Hstep];
    [apply wait_init_inv | by eapply wait_exec_inv].
Qed.

Lemma wait_run_reachable n sched st st' :
  reachable n st -> run n sched st = Step st' -> reachable n st'.
Proof.
  revert st. induction sched as [|a sched IH]; simpl; intros st Hr H.
  - by simplify_eq.
  - destruct (exec n a st) as [|st1|] eqn:E; try done.
    eapply IH; [|done]. by eapply reach_step.
Qed.

Lemma wait_wg_nonneg n st : inv n st -> 0 <= wg st.
Proof. intros Hinv. rewrite (i_wg _ _ Hinv). unfold adding. destruct (mainpc st); lia. Qed.

Lemma wait_no_crash n a st m : inv n st -> exec n a st <> Crash m.
Proof.
  intros Hinv H. pose proof (wait_wg_nonneg n st Hinv) as Hpos.
  pose proof (i_wg _ _ Hinv) as Hwg.
  destruct a as [|k]; simpl in H.
  - unfold waitGroupExample_step in H. destruct (mainpc st) as [i|i| | | |]; try done.
    + destruct (i <=? n); [|done]. unfold wg_add in H.
      destruct (wg st + 1 <? 0) eqn:E; [apply Z.ltb_lt in E; lia | done].
    + unfold wg_wait in H. by destruct (wg st =? 0).
  - unfold worker_step in H. destruct (workers st !! k) as [[id pc]|] eqn:Hk; [|done].
    destruct pc; try done.
    pose proof (wsum_lookup_le live _ _ _ Hk) as Hlive. unfold live at 1 in Hlive.
    simpl in Hlive. unfold wg_done, wg_add in H.
    destruct (wg st + -1 <? 0) eqn:E; [|done]. apply Z.ltb_lt in E.
    unfold adding in Hwg. destruct (mainpc st); lia.
Qed.

Lemma wait_progress n st :
  inv n st -> mainpc st <> MDone -> exists a st', exec n a st = Step st'.
Proof.
  intros Hinv Hm. pose proof (wait_wg_nonneg n st Hinv) as Hpos.
  pose proof (i_wg _ _ Hinv) as Hwg.
  destruct (mainpc st) as [i|i| | | |] eqn:Em; try done.
  - exists AMain. simpl. unfold waitGroupExample_step. rewrite Em.
    destruct (i <=? n); [|eauto]. unfold wg_add.
    destruct (wg st + 1 <? 0) eqn:E; [apply Z.ltb_lt in E; lia | eauto].
  - exists AMain. simpl. unfold waitGroupExample_step. rewrite Em. eauto.
  - exists AMain. simpl. unfold waitGroupExample_step. rewrite Em. eauto.
  - destruct (wg st =? 0) eqn:Ew.
    + exists AMain. simpl. unfold waitGroupExample_step, wg_wait. rewrite Em, Ew. eauto.
    + apply Z.eqb_neq in Ew. unfold adding in Hwg. rewrite Em in Hwg.
      destruct (wsum_pos_lookup live (workers st)) as (k & [id pc] & Hk & Hlive);
        [lia |].
      exists (AWorker k). simpl. unfold worker_step. rewrite Hk.
      destruct pc; eauto; [|unfold live in Hlive; simpl in Hlive; lia].
      unfold wg_done, wg_add.
      destruct (wg st + -1 <? 0) eqn:E; [apply Z.ltb_lt in E; lia | eauto].
  - exists AMain. simpl. unfold waitGroupExample_step. rewrite Em. eauto.
Qed.

Lemma wait_exec_measure n a st st' :
  n < 2 ^ 63 - 1 -> inv n st -> exec n a st = Step st' ->
  (measure n st' < measure n st)%nat.
Proof.
  intros Hn Hinv H.
  destruct Hinv as [Hids Hadd Hgo Hall Hwg Hwait Hlines Hnone Hlen Hlast].
  destruct st as [ws w m out]. unfold measure. simpl in *.
  destruct a as [|k]; simpl in H.
  - unfold waitGroupExample_step in H. simpl in H.
    destruct m as [i|i| | | |]; try done.
    + destruct (Hadd i eq_refl) as [Hi Hle]. destruct (i <=? n) eqn:Ei.
      * unfold wg_add in H. destruct (w + 1 <? 0); [done |]. simplify_eq. simpl. lia.
      * simplify_eq. simpl. lia.
    + destruct (Hgo i eq_refl) as [Hi Hle]. simplify_eq.
      assert (int_incr (Z.of_nat (length ws) + 1) = Z.of_nat (length ws) + 1 + 1) as ->
        by (apply int_incr_small; lia).
      simpl. rewrite wsum_snoc. unfold worker_weight at 2. simpl. lia.
    + simplify_eq. simpl. lia.
    + unfold wg_wait in H. destruct (w =? 0); [|done]. simplify_eq. simpl. lia.
    + simplify_eq. simpl. lia.
  - unfold worker_step in H. simpl in H.
    destruct (ws !! k) as [[id pc]|] eqn:Hk; [|done].
    destruct pc; try done.
    + simplify_eq. simpl.
      pose proof (wsum_insert worker_weight ws k _ (MkWorker id WSleep) Hk) as Hw.
      unfold worker_weight in Hw at 2 4. simpl in Hw. lia.
    + simplify_eq. simpl.
      pose proof (wsum_insert worker_weight ws k _ (MkWorker id WEnd) Hk) as Hw.
      unfold worker_weight in Hw at 2 4. simpl in Hw. lia.
    + simplify_eq. simpl.
      pose proof (wsum_insert worker_weight ws k _ (MkWorker id WExit) Hk) as Hw.
      unfold worker_weight in Hw at 2 4. simpl in Hw. lia.
    + unfold wg_done, wg_add in H. destruct (w + -1 <? 0); [done |].
      simplify_eq. simpl.
      pose proof (wsum_insert worker_weight ws k _ (MkWorker id WDone) Hk) as Hw.
      unfold worker_weight in Hw at 2 4. simpl in Hw. lia.
Qed.

(** The worker with a given number. *)
Lemma wait_worker_of n st id :
  inv n st -> 1 <= id <= Z.of_nat (length (workers st)) ->
  exists k pc, workers st !! k = Some (MkWorker id pc).
Proof.
  intros Hinv Hid.
  destruct (lookup_lt_is_Some_2 (workers st) (Z.to_nat (id - 1))) as [[id' pc] Hk];
    [lia |].
  pose proof (i_ids _ _ Hinv _ _ Hk) as E. simpl in E.
  exists (Z.to_nat (id - 1)), pc. rewrite Hk. do 2 f_equal. lia.
Qed.

Lemma wait_all_done n st :
  inv n st -> mainpc st = MDone -> Forall (fun w => w_pc w = WDone) (workers st).
Proof.
  intros Hinv Hm. apply Forall_lookup. intros k w Hk.
  pose proof (i_wait _ _ Hinv (or_intror Hm)) as Hz.
  pose proof (wsum_lookup_le live _ _ _ Hk) as Hlive.
  unfold live at 1 in Hlive. destruct (w_pc w); simpl in Hlive; try lia. done.
Qed.

(** [wg.Wait()] is a barrier.  In every state of every interleaving the
    lines about one worker are, in order, its "starting" line and then
    its "done" line (or a beginning of that); the WaitGroup counter is
    the number of workers that have not ended (plus the one being
    started) and is never negative; no statement panics, before the end
    some goroutine can run and every statement uses up the measure; and
    "All workers completed!" is the last line, printed after the two
    lines of each of the workers 1..n. *)
Theorem wait_group_barrier (n : Z) (st : state) :
  n < 2 ^ 63 - 1 -> reachable n st ->
  (forall id, lines_of id (output st) `prefix_of` [Starting id; Finished id])
  /\ wg st = Z.of_nat (wsum live (workers st)) + adding st
  /\ (forall a m, exec n a st <> Crash m)
  /\ (mainpc st <> MDone -> exists a st', exec n a st = Step st')
  /\ (forall a st', exec n a st = Step st' -> (measure n st' < measure n st)%nat)
  /\ (mainpc st = MDone ->
      last (output st) = Some AllCompleted
      /\ length (output st) = (2 * Z.to_nat n + 2)%nat
      /\ forall id, 1 <= id <= n ->
           lines_of id (output st) = [Starting id; Finished id]).
Proof.
  intros Hn Hr. pose proof (wait_reachable_inv n st Hn Hr) as Hinv.
  split.
  { intros id.
    destruct (decide (1 <= id <= Z.of_nat (length (workers st)))) as [Hid | Hid].
    - destruct (wait_worker_of n st id Hinv Hid) as (k & pc & Hk).
      rewrite (i_lines _ _ Hinv _ _ Hk : lines_of id _ = _).
      unfold reported. simpl.
      destruct pc; [apply prefix_nil | by exists [Finished id]
                    | by exists [Finished id] | done | done].
    - rewrite (i_none _ _ Hinv id); [apply prefix_nil | lia]. }
  split; [apply (i_wg _ _ Hinv) |].
  split; [intros a m; by apply wait_no_crash |].
  split; [by apply wait_progress |].
  split; [intros a st'; by apply wait_exec_measure |].
  intros Hm. pose proof (wait_all_done n st Hinv Hm) as Hdone.
  assert (Z.of_nat (length (workers st)) = Z.max 0 n) as Hall.
  { apply (i_all _ _ Hinv); intros i; by rewrite Hm. }
  split; [by apply (i_last _ _ Hinv) |]. split.
  - rewrite (i_length _ _ Hinv). unfold main_lines. rewrite Hm.
    rewrite (wsum_const _ (fun w => w_pc w = WDone) 2%nat); [lia | | done].
    intros w Hw. unfold reported. by rewrite Hw.
  - intros id Hid.
    destruct (wait_worker_of n st id Hinv) as (k & pc & Hk); [lia |].
    rewrite (i_lines _ _ Hinv _ _ Hk : lines_of id _ = _).
    rewrite Forall_lookup in Hdone. specialize (Hdone _ _ Hk). simpl in Hdone.
    by subst pc.
Qed.

Lemma wait_group_barrier_witness :
  show <$> output (state_after 3 (full_schedule 3))
  = ["Waiting for all workers to complete..."; "Worker 3 starting"; "Worker 3 done";
     "Worker 2 starting"; "Worker 2 done"; "Worker 1 starting"; "Worker 1 done";
     "All workers completed!"]
  /\ last (output (state_after 3 (full_schedule 3))) = Some AllCompleted
  /\ length (output (state_after 3 (full_schedule 3))) = 8%nat.
Proof.
  split; [vm_compute; reflexivity |].
  destruct (wait_group_barrier 3 (state_after 3 (full_schedule 3)))
    as (_ & _ & _ & _ & _ & H).
  - vm_compute. reflexivity.
  - eapply wait_run_reachable with (sched := full_schedule 3);
      [apply reach_init | vm_compute; reflexivity].
  - destruct H as (Hlast & Hlen & _); [vm_compute; reflexivity |]. by split.
Defined.

End WaitGroupExampleProofs.

(** * [selectExample] and [demonstrateSelect]: each message at most once *)

Section SelectDemoProofs.
Import SelectDemo.

Lemma select_init_inv cfg : inv cfg init.
Proof.
  split; unfold iterations; simpl; try done; try lia; by intuition congruence.
Qed.

Ltac select_fields :=
  split; unfold iterations, count1, count2, timeouts, delivered in *; simpl in *;
  rewrite ?wsum_snoc, ?length_app; simpl;
  try done; try lia; try (by intuition congruence);
  try (intros; simplify_eq; lia);
  try (apply Forall_app; split; [done | by constructor]).

Lemma select_exec_inv cfg a st st' :
  rounds cfg < 2 ^ 63 - 1 -> inv cfg st -> exec cfg a st = Step st' -> inv cfg st'.
Proof.
  intros Hn Hinv H.
  destruct Hinv as [Hc1 Hc2 Hlines Hlen Htotal Hloop Hstart1 Hstart2].
  destruct st as [s1 s2 m out].
  unfold iterations, count1, count2, timeouts, delivered in *. simpl in *.
  destruct a; simpl in H.
  - unfold selectExample_step in H. simpl in H.
    destruct m as [| |i|]; try done.
    + simplify_eq. assert (s1 = GNotStarted) as -> by intuition. select_fields.
    + simplify_eq. assert (s2 = GNotStarted) as -> by intuition. select_fields.
    + specialize (Hloop i eq_refl). destruct (i <? rounds cfg) eqn:Ei; [done |].
      apply Z.ltb_ge in Ei. simplify_eq. select_fields.
  - destruct s1; try done. simpl in H. simplify_eq. select_fields.
  - destruct s2; try done. simpl in H. simplify_eq. select_fields.
  - unfold select_case in H. simpl in H.
    destruct m as [| |i|]; try done. specialize (Hloop i eq_refl).
    destruct (i <? rounds cfg) eqn:Ei; [|done]. apply Z.ltb_lt in Ei.
    assert (int_incr i = i + 1) as E by (apply int_incr_small; lia).
    destruct s1; try done. rewrite E in H. simplify_eq. select_fields.
  - unfold select_case in H. simpl in H.
    destruct m as [| |i|]; try done. specialize (Hloop i eq_refl).
    destruct (i <? rounds cfg) eqn:Ei; [|done]. apply Z.ltb_lt in Ei.
    assert (int_incr i = i + 1) as E by (apply int_incr_small; lia).
    destruct s2; try done. rewrite E in H. simplify_eq. select_fields.
  - unfold select_case in H. simpl in H.
    destruct m as [| |i|]; try done. specialize (Hloop i eq_refl).
    destruct (i <? rounds cfg) eqn:Ei; [|done]. apply Z.ltb_lt in Ei.
    assert (int_incr i = i + 1) as E by (apply int_incr_small; lia).
    rewrite E in H. simplify_eq. select_fields.
Qed.

Lemma select_reachable_inv cfg st :
  rounds cfg < 2 ^ 63 - 1 -> reachable cfg st -> inv cfg st.
Proof.
  intros Hn. induction 1 as [|st a st' _ IH Hstep];
    [apply select_init_inv | by eapply select_exec_inv].
Qed.

Lemma select_run_reachable cfg sched st st' :
  reachable cfg st -> run cfg sched st = Step st' -> reachable cfg st'.
Proof.
  revert st. induction sched as [|a sched IH]; simpl; intros st Hr H.
  - by simplify_eq.
  - destruct (exec cfg a st) as [|st1|] eqn:E; try done.
    eapply IH; [|done]. by eapply reach_step.
Qed.

(** The main goroutine is never stuck: it can run a [go] statement, leave
    the loop, or take the timeout of its [select]. *)
Lemma select_progress cfg st :
  mainpc st <> MDone ->
  exists st', exec cfg AMain st = Step st' \/ exec cfg ATimeout st = Step st'.
Proof.
  intros Hm. destruct st as [s1 s2 mp out]. simpl in *.
  unfold selectExample_step, select_case. simpl.
  destruct mp as [| |i|]; try done; eauto.
  destruct (i <? rounds cfg); eauto.
Qed.

Lemma select_exec_measure cfg a st st' :
  rounds cfg < 2 ^ 63 - 1 -> inv cfg st -> exec cfg a st = Step st' ->
  (measure cfg st' < measure cfg st)%nat.
Proof.
  intros Hn Hinv H.
  destruct Hinv as [Hc1 Hc2 Hlines Hlen Htotal Hloop Hstart1 Hstart2].
  destruct st as [s1 s2 m out]. unfold measure. simpl in *.
  destruct a; simpl in H.
  - unfold selectExample_step in H. simpl in H.
    destruct m as [| |i|]; try done.
    + simplify_eq. assert (s1 = GNotStarted) as -> by intuition. simpl. lia.
    + simplify_eq. assert (s2 = GNotStarted) as -> by intuition. simpl. lia.
    + destruct (i <? rounds cfg) eqn:Ei; [done |]. simplify_eq. simpl. lia.
  - destruct s1; try done. simpl in H. simplify_eq. simpl. lia.
  - destruct s2; try done. simpl in H. simplify_eq. simpl. lia.
  - unfold select_case in H. simpl in H.
    destruct m as [| |i|]; try done. specialize (Hloop i eq_refl).
    destruct (i <? rounds cfg) eqn:Ei; [|done]. apply Z.ltb_lt in Ei.
    assert (int_incr i = i + 1) as E by (apply int_incr_small; lia).
    destruct s1; try done. rewrite E in H. simplify_eq. simpl. lia.
  - unfold select_case in H. simpl in H.
    destruct m as [| |i|]; try done. specialize (Hloop i eq_refl).
    destruct (i <? rounds cfg) eqn:Ei; [|done]. apply Z.ltb_lt in Ei.
    assert (int_incr i = i + 1) as E by (apply int_incr_small; lia).
    destruct s2; try done. rewrite E in H. simplify_eq. simpl. lia.
  - unfold select_case in H. simpl in H.
    destruct m as [| |i|]; try done. specialize (Hloop i eq_refl).
    destruct (i <? rounds cfg) eqn:Ei; [|done]. apply Z.ltb_lt in Ei.
    assert (int_incr i = i + 1) as E by (apply int_incr_small; lia).
    rewrite E in H. simplify_eq. simpl. lia.
Qed.

(** After the loop nothing is printed any more, and a goroutine that has
    not delivered its message never will. *)
Lemma select_after_done cfg a st st' :
  mainpc st = MDone -> exec cfg a st = Step st' ->
  output st' = output st /\ mainpc st' = MDone
  /\ delivered (sender1 st') = delivered (sender1 st)
  /\ delivered (sender2 st') = delivered (sender2 st).
Proof.
  intros Hm H. destruct st as [s1 s2 mp out]. simpl in *. subst mp.
  destruct a; simpl in H; try done.
  - destruct s1; try done. simpl in H. by simplify_eq.
  - destruct s2; try done. simpl in H. by simplify_eq.
Qed.

(** The [select] loop prints one line per iteration and receives each
    message at most once.  In every state of every interleaving, and
    whatever the timing: the "Received" lines of the first channel are as
    many as the first goroutine has completed sends (none or one), and
    they carry its message; likewise for the second; all other lines are
    "Timeout!"; the main goroutine is never stuck;
    every statement uses up the measure; and after the loop exactly
    [rounds] lines have been printed, and nothing changes them any more,
    so a goroutine whose message was not received stays blocked in its
    send for good. *)
Theorem select_each_message_once (cfg : Config) (st : state) :
  rounds cfg < 2 ^ 63 - 1 -> reachable cfg st ->
  count1 (output st) = delivered (sender1 st)
  /\ count2 (output st) = delivered (sender2 st)
  /\ Forall (line_ok cfg) (output st)
  /\ (length (output st)
      = count1 (output st) + count2 (output st) + timeouts (output st))%nat
  /\ (mainpc st <> MDone ->
      exists st', exec cfg AMain st = Step st' \/ exec cfg ATimeout st = Step st')
  /\ (forall a st', exec cfg a st = Step st' ->
        (measure cfg st' < measure cfg st)%nat)
  /\ (mainpc st = MDone ->
      Z.of_nat (length (output st)) = Z.max 0 (rounds cfg)
      /\ forall a st', exec cfg a st = Step st' ->
           output st' = output st /\ mainpc st' = MDone
           /\ delivered (sender1 st') = delivered (sender1 st)
           /\ delivered (sender2 st') = delivered (sender2 st)).
Proof.
  intros Hn Hr. pose proof (select_reachable_inv cfg st Hn Hr) as Hinv.
  split; [apply (i_count1 _ _ Hinv) |].
  split; [apply (i_count2 _ _ Hinv) |].
  split; [apply (i_lines _ _ Hinv) |].
  split; [apply (i_total _ _ Hinv) |].
  split; [apply select_progress |].
  split; [intros a st'; by apply select_exec_measure |].
  intros Hm. split.
  - rewrite (i_length _ _ Hinv). unfold iterations. by rewrite Hm.
  - intros a st'. by apply select_after_done.
Qed.

Lemma select_each_message_once_witness :
  show <$> output (state_after demonstrateSelect_config both_schedule)
  = ["Received: Message from Channel 2"; "Received: Message from Channel 1"]
  /\ count1 (output (state_after demonstrateSelect_config both_schedule)) = 1%nat
  /\ count2 (output (state_after demonstrateSelect_config both_schedule)) = 1%nat.
Proof.
  split; [vm_compute; reflexivity |].
  destruct (select_each_message_once demonstrateSelect_config
              (state_after demonstrateSelect_config both_schedule))
    as (H1 & H2 & _).
  - vm_compute. reflexivity.
  - eapply select_run_reachable with (sched := both_schedule);
      [apply reach_init | vm_compute; reflexivity].
  - rewrite H1, H2. vm_compute. by split.
Defined.

(** Both goroutines can be left behind: when the timeout is taken twice,
    [selectExample] returns with two "Timeout!" lines while both
    goroutines are blocked in their sends, which nothing completes. *)
Example select_leaves_senders_blocked :
  let st := state_after selectExample_config timeout_schedule in
  show <$> output st = ["Timeout!"; "Timeout!"]
  /\ mainpc st = MDone /\ sender1 st = GSend /\ sender2 st = GSend
  /\ forall a, exec selectExample_config a st = Blocked.
Proof.
  vm_compute. repeat split. by intros [].
Qed.

End SelectDemoProofs.

(** * [bufferedChannel]: first in, first out, up to the capacity *)

Section BufferedChannelProofs.
Import BufferedChannel.

Lemma send_all_open (b : list Z) (capacity : nat) (values : list Z) :
  (length b <= capacity)%nat ->
  send_all (MkChan b capacity false) values
  = if decide (length b + length values <= capacity)%nat
    then Step (MkChan (b ++ values) capacity false)
    else Blocked.
Proof.
  revert b. induction values as [|v values IH]; intros b Hb; simpl.
  - rewrite app_nil_r. destruct (decide _); [done | lia].
  - unfold chan_send. simpl. destruct (length b <? capacity)%nat eqn:E.
    + apply Nat.ltb_lt in E. rewrite IH by (rewrite length_app; simpl; lia).
      rewrite length_app, <- app_assoc. simpl.
      destruct (decide _), (decide _); try done; lia.
    + apply Nat.ltb_ge in E. destruct (decide _); [lia | done].
Qed.

Lemma receive_all (b : list Z) (capacity : nat) :
  receive (MkChan b capacity false) (length b) = Step b.
Proof.
  induction b as [|x b IH]; simpl; [done |].
  unfold chan_recv. simpl. by rewrite IH.
Qed.

(** [bufferedChannel] prints its values in the order in which it sent
    them when they fit the buffer, and otherwise never gets to its first
    receive: the send that finds the buffer full blocks the only
    goroutine.  The capacity 3 of the source is the least one for its
    three sends. *)
Theorem bufferedChannel_fifo (capacity : nat) (values : list Z) :
  bufferedChannel capacity values
  = if decide (length values <= capacity)%nat then Step values else Blocked.
Proof.
  unfold bufferedChannel, make_chan. rewrite send_all_open by (simpl; lia). simpl.
  destruct (decide _); [|done]. apply receive_all.
Qed.

(** The values of the source, and one more. *)
Example bufferedChannel_source :
  bufferedChannel 3 [1; 2; 3] = Step [1; 2; 3]
  /\ bufferedChannel 3 [1; 2; 3; 4] = Blocked
  /\ bufferedChannel 2 [1; 2; 3] = Blocked.
Proof. by vm_compute. Qed.

End BufferedChannelProofs.

(** * [pipelineExample]: every job once *)

Section PipelineExampleProofs.
Import PipelineExample.

Lemma results_of_snoc out l :
  results_of (out ++ [l])
  = results_of out ++ match l with Result result => [result] | _ => [] end.
Proof. unfold results_of. rewrite omap_app. by destruct l. Qed.

Lemma processed_of_snoc out l :
  processed_of (out ++ [l])
  = processed_of out ++ match l with Processing _ job => [job] | _ => [] end.
Proof. unfold processed_of. rewrite omap_app. by destruct l. Qed.

Ltac example_unfold :=
  unfold set_main, set_wg, set_jobs, set_results, set_closer, set_processor,
    set_processors, print, sent_jobs, adding, spawning, jobs_closed,
    closer_started in *;
  simpl in *.

Ltac example_fields :=
  split; example_unfold;
  rewrite ?length_app, ?wsum_snoc, ?flat_map_snoc, ?results_of_snoc,
    ?processed_of_snoc, ?length_insert, ?app_nil_r;
  simpl;
  try done; try lia; try (by intuition congruence);
  try (intros; simplify_eq; simpl in *; lia).

Lemma example_init_inv cfg : inv cfg (init cfg).
Proof. example_fields. Qed.

Lemma example_main_inv cfg st st' :
  fits cfg -> inv cfg st -> pipelineExample_step cfg st = Step st' -> inv cfg st'.
Proof.
  intros (HnumJobs & Hworkers & Hcapacity) Hinv H.
  destruct Hinv as [Hids Hadd Hgo Hall Hsend Hwg Hjc Hjcap Hrcap Hstart Hclosed Hclose
                      Hleaving Hjobs Hreceived Hprocessed Hlines Hdone].
  destruct st as [ps w jb rs c m out].
  unfold pipelineExample_step in H. example_unfold.
  destruct m as [i|i|j| | | |]; try done.
  - destruct (Hadd i eq_refl) as [Hi Hle]. destruct (i <=? workers cfg) eqn:Ei.
    + apply Z.leb_le in Ei. unfold wg_add in H.
      destruct (w + 1 <? 0); [done |]. simplify_eq. example_fields.
    + apply Z.leb_gt in Ei. simplify_eq. example_fields.
  - destruct (Hgo i eq_refl) as [Hi Hle]. simplify_eq.
    assert (int_incr (Z.of_nat (length ps) + 1) = Z.of_nat (length ps) + 1 + 1) as ->
      by (apply int_incr_small; lia).
    example_fields.
    + apply Forall_app. split; [done |]. constructor; [simpl; lia | done].
    + unfold live. simpl. lia.
    + unfold leaving at 2. simpl. rewrite Nat.add_0_r. done.
  - specialize (Hsend j eq_refl). destruct (j <=? numJobs cfg) eqn:Ej.
    + apply Z.leb_le in Ej. unfold chan_send in H. destruct jb as [b cp cl].
      simpl in *. subst cl. destruct (length b <? cp)%nat; [|done]. simplify_eq.
      assert (int_incr j = j + 1) as -> by (apply int_incr_small; lia).
      example_fields.
      * replace (j + 1 - 1) with j by lia. rewrite (seqZ_last j) by lia.
        rewrite !fmap_app, Hjobs. simpl. solve_Permutation.
      * replace (j + 1 - 1) with j by lia. rewrite (seqZ_last j) by lia.
        rewrite Hreceived. solve_Permutation.
    + apply Z.leb_gt in Ej. unfold chan_close in H. destruct jb as [b cp cl].
      simpl in *. subst cl. simplify_eq.
      assert (seqZ 1 (Z.max 0 (numJobs cfg)) = seqZ 1 (j - 1)) as E
        by (apply seqZ_to_nat; lia).
      example_fields; by rewrite E.
  - simplify_eq. example_fields.
  - simplify_eq. example_fields.
    apply Forall_app. split; [done |]. by constructor.
  - unfold chan_recv in H. destruct rs as [b cp cl]. simpl in *.
    destruct b as [|x rest].
    + destruct cl; [|done]. simplify_eq. example_fields.
    + simplify_eq. example_fields.
      * rewrite Hjobs. solve_Permutation.
      * rewrite Hprocessed. solve_Permutation.
      * apply Forall_app. split; [done |]. by constructor.
Qed.

Lemma example_closer_inv cfg st st' :
  inv cfg st -> closer_step st = Step st' -> inv cfg st'.
Proof.
  intros Hinv H.
  destruct Hinv as [Hids Hadd Hgo Hall Hsend Hwg Hjc Hjcap Hrcap Hstart Hclosed Hclose
                      Hleaving Hjobs Hreceived Hprocessed Hlines Hdone].
  destruct st as [ps w jb rs c m out].
  unfold closer_step in H. example_unfold.
  destruct c; try done.
  - unfold wg_wait in H. destruct (w =? 0) eqn:Ew; [|done]. apply Z.eqb_eq in Ew.
    simplify_eq. example_fields.
    intros _. destruct m; lia.
  - unfold chan_close in H. destruct rs as [b cp cl]. simpl in *.
    destruct cl; [done |]. simplify_eq. example_fields.
Qed.

Ltac processor_facts ps k new Hk :=
  pose proof (wsum_insert live ps k _ new Hk) as Hw_live;
  pose proof (wsum_insert leaving ps k _ new Hk) as Hw_leaving;
  pose proof (flat_map_insert_perm held ps k _ new Hk) as Hp_held;
  pose proof (flat_map_insert_perm received ps k _ new Hk) as Hp_received;
  pose proof (flat_map_insert_perm reported ps k _ new Hk) as Hp_reported;
  unfold live in Hw_live at 2 4; unfold leaving in Hw_leaving at 2 4;
  simpl in Hw_live, Hw_leaving, Hp_held, Hp_received, Hp_reported.

Lemma example_processor_inv cfg k st st' :
  inv cfg st -> processor_step k st = Step st' -> inv cfg st'.
Proof.
  intros Hinv H.
  destruct Hinv as [Hids Hadd Hgo Hall Hsend Hwg Hjc Hjcap Hrcap Hstart Hclosed Hclose
                      Hleaving Hjobs Hreceived Hprocessed Hlines Hdone].
  destruct st as [ps w jb rs c m out].
  unfold processor_step in H. example_unfold.
  destruct (ps !! k) as [[id pc]|] eqn:Hk; [|done].
  pose proof (wsum_lookup_le live ps k _ Hk) as Hlive. unfold live at 1 in Hlive.
  simpl in Hlive.
  assert (1 <= id <= workers cfg) as Hid.
  { rewrite Forall_lookup in Hids. apply (Hids _ _ Hk). }
  assert (forall pc', Forall (fun p => 1 <= p_id p <= workers cfg)
                        (<[k := MkProcessor id pc']> ps)) as Hids'.
  { intros pc'. by apply Forall_insert. }
  destruct pc as [|job|job| |]; try done.
  - unfold chan_recv in H. destruct jb as [b cp cl]. simpl in *.
    destruct b as [|job rest].
    + destruct cl; [|done]. simplify_eq.
      processor_facts ps k (MkProcessor id PExit) Hk.
      example_fields.
      * intros Hc. specialize (Hclose Hc). lia.
      * by rewrite Hp_held.
      * by rewrite Hp_received.
      * by rewrite Hp_reported.
    + simplify_eq.
      processor_facts ps k (MkProcessor id (PPrint job)) Hk.
      example_fields.
      * intros Hc. specialize (Hclose Hc). lia.
      * intros Hl. destruct Hleaving as [_ ?]; [lia | done].
      * rewrite Hp_held, Hjobs. solve_Permutation.
      * rewrite Hp_received, Hreceived. solve_Permutation.
      * by rewrite Hp_reported.
  - simplify_eq.
    processor_facts ps k (MkProcessor id (PSend job)) Hk.
    apply Permutation_cons_inv in Hp_held.
    example_fields.
    + intros Hc. specialize (Hclose Hc). lia.
    + intros Hl. apply Hleaving. lia.
    + by rewrite Hp_held.
    + rewrite Hreceived, <- Hp_received. solve_Permutation.
    + rewrite fmap_app, Hp_reported, Hprocessed. simpl. solve_Permutation.
    + apply Forall_app. split; [done |]. by constructor.
  - unfold chan_send in H. destruct rs as [b cp cl]. simpl in *.
    destruct cl; [done |]. destruct (length b <? cp)%nat; [|done]. simplify_eq.
    processor_facts ps k (MkProcessor id PRecv) Hk.
    example_fields.
    + intros Hc. specialize (Hclose Hc). lia.
    + intros Hl. apply Hleaving. lia.
    + rewrite Hjobs, <- Hp_held. solve_Permutation.
    + by rewrite Hp_received.
    + rewrite Hprocessed, <- Hp_reported. solve_Permutation.
  - unfold wg_done, wg_add in H. destruct (w + -1 <? 0); [done |]. simplify_eq.
    processor_facts ps k (MkProcessor id PDone) Hk.
    example_fields.
    + intros Hc. specialize (Hclose Hc). lia.
    + intros Hl. apply Hleaving. lia.
    + by rewrite Hp_held.
    + by rewrite Hp_received.
    + by rewrite Hp_reported.
Qed.

Lemma example_exec_inv cfg a st st' :
  fits cfg -> inv cfg st -> exec cfg a st = Step st' -> inv cfg st'.
Proof.
  destruct a; simpl;
    eauto using example_main_inv, example_processor_inv, example_closer_inv.
Qed.

Lemma example_reachable_inv cfg st : fits cfg -> reachable cfg st -> inv cfg st.
Proof.
  intros Hn. induction 1 as [|st a st' _ IH Hstep];
    [apply example_init_inv | by eapply example_exec_inv].
Qed.

Lemma example_run_reachable cfg sched st st' :
  reachable cfg st -> run cfg sched st = Step st' -> reachable cfg st'.
Proof.
  revert st. induction sched as [|a sched IH]; simpl; intros st Hr H.
  - by simplify_eq.
  - destruct (exec cfg a st) as [|st1|] eqn:E; try done.
    eapply IH; [|done]. by eapply reach_step.
Qed.

Lemma flat_map_lookup_length {A B : Type} (g : A -> list B) (l : list A) k x :
  l !! k = Some x -> (length (g x) <= length (flat_map g l))%nat.
Proof.
  revert k. induction l as [|y l IH]; intros [|k] Hk; simpl in *; try done.
  - simplify_eq. rewrite length_app. lia.
  - rewrite length_app. specialize (IH k Hk). lia.
Qed.

Lemma flat_map_all_nil {A B : Type} (g : A -> list B) (l : list A) :
  Forall (fun x => g x = []) l -> flat_map g l = [].
Proof. induction 1 as [|x l Hx _ IH]; simpl; [done | by rewrite Hx, IH]. Qed.

Lemma example_sent_le cfg st :
  inv cfg st -> 0 <= sent_jobs cfg st <= Z.max 0 (numJobs cfg).
Proof.
  intros Hinv. unfold sent_jobs. pose proof (i_send _ _ Hinv) as Hsend.
  destruct (mainpc st) as [| |j| | | |]; try lia.
  specialize (Hsend j eq_refl). lia.
Qed.

Lemma example_wg_pos cfg st : inv cfg st -> Z.of_nat (wsum live (processors st)) <= wg st.
Proof.
  intros Hinv. rewrite (i_wg _ _ Hinv). unfold adding. destruct (mainpc st); lia.
Qed.

(** The main goroutine finds room in [jobs] for every job. *)
Lemma example_jobs_room cfg st j :
  fits cfg -> inv cfg st -> mainpc st = MSend j -> j <= numJobs cfg ->
  closed (jobs st) = false /\ (length (buf (jobs st)) < cap (jobs st))%nat.
Proof.
  intros (HnumJobs & Hworkers & Hcapacity) Hinv Hm Hj. split.
  - rewrite (i_jobs_closed _ _ Hinv). unfold jobs_closed. by rewrite Hm.
  - pose proof (i_received _ _ Hinv) as Hp. apply Permutation_length in Hp.
    rewrite length_seqZ, !length_app in Hp. unfold sent_jobs in Hp. rewrite Hm in Hp.
    rewrite (i_jobs_cap _ _ Hinv). pose proof (i_send _ _ Hinv j Hm). lia.
Qed.

(** A processor that is about to send finds [results] open and not full. *)
Lemma example_results_room cfg st k id job :
  fits cfg -> inv cfg st -> processors st !! k = Some (MkProcessor id (PSend job)) ->
  closed (results st) = false /\ (length (buf (results st)) < cap (results st))%nat.
Proof.
  intros (HnumJobs & Hworkers & Hcapacity) Hinv Hk.
  pose proof (wsum_lookup_le live _ _ _ Hk) as Hlive. unfold live at 1 in Hlive.
  simpl in Hlive. split.
  - destruct (closed (results st)) eqn:E; [|done].
    assert (wsum live (processors st) = 0%nat); [|lia].
    apply (i_close _ _ Hinv). right. by apply (i_closed _ _ Hinv).
  - pose proof (i_jobs _ _ Hinv) as Hp. apply Permutation_length in Hp.
    rewrite length_fmap, length_seqZ, !length_app in Hp.
    pose proof (flat_map_lookup_length held _ _ _ Hk) as Hheld. simpl in Hheld.
    pose proof (example_sent_le cfg st Hinv).
    rewrite (i_results_cap _ _ Hinv). lia.
Qed.

Lemma example_no_crash cfg a st m :
  fits cfg -> inv cfg st -> exec cfg a st <> Crash m.
Proof.
  intros Hfits Hinv H. pose proof (example_wg_pos cfg st Hinv) as Hwg.
  destruct a as [|k|]; simpl in H.
  - unfold pipelineExample_step in H.
    destruct (mainpc st) as [i|i|j| | | |] eqn:Hm; try done.
    + destruct (i <=? workers cfg); [|done]. unfold wg_add in H.
      destruct (wg st + 1 <? 0) eqn:E; [apply Z.ltb_lt in E; lia | done].
    + pose proof (i_jobs_closed _ _ Hinv) as Hjc. unfold jobs_closed in Hjc.
      rewrite Hm in Hjc.
      destruct (j <=? numJobs cfg) eqn:Ej.
      * apply Z.leb_le in Ej.
        destruct (example_jobs_room cfg st j Hfits Hinv Hm Ej) as [_ Hroom].
        unfold chan_send in H. rewrite Hjc in H. apply Nat.ltb_lt in Hroom.
        by rewrite Hroom in H.
      * unfold chan_close in H. by rewrite Hjc in H.
    + by destruct (chan_recv (results st)).
  - unfold processor_step in H.
    destruct (processors st !! k) as [[id pc]|] eqn:Hk; [|done].
    destruct pc as [|job|job| |]; try done.
    + by destruct (chan_recv (jobs st)).
    + destruct (example_results_room cfg st k id job Hfits Hinv Hk) as [Hopen Hroom].
      unfold chan_send in H. rewrite Hopen in H. apply Nat.ltb_lt in Hroom.
      by rewrite Hroom in H.
    + pose proof (wsum_lookup_le live _ _ _ Hk) as Hlive. unfold live at 1 in Hlive.
      simpl in Hlive. unfold wg_done, wg_add in H.
      destruct (wg st + -1 <? 0) eqn:E; [apply Z.ltb_lt in E; lia | done].
  - unfold closer_step in H. destruct (closer st) eqn:Hc; try done.
    + unfold wg_wait in H. by destruct (wg st =? 0).
    + unfold chan_close in H. destruct (closed (results st)) eqn:E; [|done].
      assert (closer st = CDone) by (by apply (i_closed _ _ Hinv)). congruence.
Qed.

(** A processor that has not ended can run, once [jobs] is closed. *)
Lemma example_processor_enabled cfg st k p :
  fits cfg -> inv cfg st -> jobs_closed st = true ->
  processors st !! k = Some p -> (0 < live p)%nat ->
  exists st', exec cfg (AProcessor k) st = Step st'.
Proof.
  intros Hfits Hinv Hjc Hk Hlive. destruct p as [id pc].
  pose proof (example_wg_pos cfg st Hinv) as Hwg.
  pose proof (wsum_lookup_le live _ _ _ Hk) as Hl. unfold live at 1 in Hl.
  simpl. unfold processor_step. rewrite Hk.
  destruct pc as [|job|job| |]; simpl in Hl; eauto.
  - unfold chan_recv. destruct (buf (jobs st)); [|eauto].
    rewrite (i_jobs_closed _ _ Hinv), Hjc. eauto.
  - destruct (example_results_room cfg st k id job Hfits Hinv Hk) as [Hopen Hroom].
    unfold chan_send. rewrite Hopen. apply Nat.ltb_lt in Hroom. rewrite Hroom. eauto.
  - unfold wg_done, wg_add.
    destruct (wg st + -1 <? 0) eqn:E; [apply Z.ltb_lt in E; lia | eauto].
  - unfold live in Hlive. simpl in Hlive. lia.
Qed.

Lemma example_progress cfg st :
  fits cfg -> inv cfg st -> mainpc st <> MDone ->
  exists a st', exec cfg a st = Step st'.
Proof.
  intros Hfits Hinv Hm. pose proof (example_wg_pos cfg st Hinv) as Hwg.
  destruct (mainpc st) as [i|i|j| | | |] eqn:Em; try done.
  - exists AMain. simpl. unfold pipelineExample_step. rewrite Em.
    destruct (i <=? workers cfg); [|eauto]. unfold wg_add.
    destruct (wg st + 1 <? 0) eqn:E; [apply Z.ltb_lt in E; lia | eauto].
  - exists AMain. simpl. unfold pipelineExample_step. rewrite Em. eauto.
  - exists AMain. simpl. unfold pipelineExample_step. rewrite Em.
    pose proof (i_jobs_closed _ _ Hinv) as Hjc. unfold jobs_closed in Hjc.
    rewrite Em in Hjc.
    destruct (j <=? numJobs cfg) eqn:Ej.
    + apply Z.leb_le in Ej.
      destruct (example_jobs_room cfg st j Hfits Hinv Em Ej) as [_ Hroom].
      unfold chan_send. rewrite Hjc. apply Nat.ltb_lt in Hroom. rewrite Hroom. eauto.
    + unfold chan_close. rewrite Hjc. eauto.
  - exists AMain. simpl. unfold pipelineExample_step. rewrite Em. eauto.
  - exists AMain. simpl. unfold pipelineExample_step. rewrite Em. eauto.
  - destruct (chan_recv (results st)) as [|result c|] eqn:Er.
    + unfold chan_recv in Er. destruct (buf (results st)); [|done].
      destruct (closed (results st)) eqn:Ecl; [done |].
      pose proof (i_start _ _ Hinv) as Hstart. unfold closer_started in Hstart.
      rewrite Em in Hstart.
      destruct (closer st) eqn:Ec.
      * assert (true = false) by (by apply Hstart). done.
      * destruct (wg st =? 0) eqn:Ew.
        -- exists ACloser. simpl. unfold closer_step, wg_wait. rewrite Ec, Ew. eauto.
        -- apply Z.eqb_neq in Ew. pose proof (i_wg _ _ Hinv) as Hw.
           unfold adding in Hw. rewrite Em in Hw.
           destruct (wsum_pos_lookup live (processors st)) as (k & p & Hk & Hp);
             [lia |].
           exists (AProcessor k). eapply example_processor_enabled; eauto.
           unfold jobs_closed. by rewrite Em.
      * exists ACloser. simpl. unfold closer_step, chan_close. rewrite Ec, Ecl. eauto.
      * assert (closed (results st) = true) by (by apply (i_closed _ _ Hinv)).
        congruence.
    + exists AMain. simpl. unfold pipelineExample_step. rewrite Em, Er. eauto.
    + exists AMain. simpl. unfold pipelineExample_step. rewrite Em, Er. eauto.
Qed.

Lemma example_exec_measure cfg a st st' :
  fits cfg -> inv cfg st -> exec cfg a st = Step st' ->
  (measure cfg st' < measure cfg st)%nat.
Proof.
  intros (HnumJobs & Hworkers & Hcapacity) Hinv H.
  destruct Hinv as [Hids Hadd Hgo Hall Hsend Hwg Hjc Hjcap Hrcap Hstart Hclosed Hclose
                      Hleaving Hjobs Hreceived Hprocessed Hlines Hdone].
  destruct st as [ps w jb rs c m out]. unfold measure.
  destruct a as [|k|]; simpl in H.
  - unfold pipelineExample_step in H. example_unfold.
    destruct m as [i|i|j| | | |]; try done.
    + destruct (Hadd i eq_refl) as [Hi Hle]. destruct (i <=? workers cfg) eqn:Ei.
      * unfold wg_add in H. destruct (w + 1 <? 0); [done |]. simplify_eq. simpl. lia.
      * apply Z.leb_gt in Ei. simplify_eq. simpl. lia.
    + destruct (Hgo i eq_refl) as [Hi Hle]. simplify_eq.
      assert (int_incr (Z.of_nat (length ps) + 1) = Z.of_nat (length ps) + 1 + 1) as ->
        by (apply int_incr_small; lia).
      simpl. rewrite wsum_snoc. unfold processor_weight at 2. simpl. lia.
    + specialize (Hsend j eq_refl). destruct (j <=? numJobs cfg) eqn:Ej.
      * apply Z.leb_le in Ej. unfold chan_send in H. destruct jb as [b cp cl].
        simpl in *. destruct cl; [done |]. destruct (length b <? cp)%nat; [|done].
        simplify_eq.
        assert (int_incr j = j + 1) as -> by (apply int_incr_small; lia).
        simpl. rewrite length_app. simpl. lia.
      * unfold chan_close in H. destruct jb as [b cp cl]. simpl in *.
        destruct cl; [done |]. simplify_eq. simpl. lia.
    + simplify_eq. simpl.
      assert (c = CNotStarted) as -> by (by apply Hstart). lia.
    + simplify_eq. simpl. lia.
    + unfold chan_recv in H. destruct rs as [b cp cl]. simpl in *.
      destruct b as [|x rest]; [destruct cl; [|done] |]; simplify_eq; simpl; lia.
  - unfold processor_step in H. example_unfold.
    destruct (ps !! k) as [[id pc]|] eqn:Hk; [|done].
    destruct pc as [|job|job| |]; try done.
    + unfold chan_recv in H. destruct jb as [b cp cl]. simpl in *.
      destruct b as [|job rest].
      * destruct cl; [|done]. simplify_eq. simpl.
        pose proof (wsum_insert processor_weight ps k _ (MkProcessor id PExit) Hk) as Hw.
        unfold processor_weight in Hw at 2 4. simpl in Hw. lia.
      * simplify_eq. simpl.
        pose proof (wsum_insert processor_weight ps k _
                      (MkProcessor id (PPrint job)) Hk) as Hw.
        unfold processor_weight in Hw at 2 4. simpl in Hw. lia.
    + simplify_eq. simpl.
      pose proof (wsum_insert processor_weight ps k _
                    (MkProcessor id (PSend job)) Hk) as Hw.
      unfold processor_weight in Hw at 2 4. simpl in Hw. lia.
    + unfold chan_send in H. destruct rs as [b cp cl]. simpl in *.
      destruct cl; [done |]. destruct (length b <? cp)%nat; [|done]. simplify_eq.
      simpl. rewrite length_app. simpl.
      pose proof (wsum_insert processor_weight ps k _ (MkProcessor id PRecv) Hk) as Hw.
      unfold processor_weight in Hw at 2 4. simpl in Hw. lia.
    + unfold wg_done, wg_add in H. destruct (w + -1 <? 0); [done |]. simplify_eq.
      simpl.
      pose proof (wsum_insert processor_weight ps k _ (MkProcessor id PDone) Hk) as Hw.
      unfold processor_weight in Hw at 2 4. simpl in Hw. lia.
  - unfold closer_step in H. example_unfold. destruct c; try done.
    + unfold wg_wait in H. destruct (w =? 0); [|done]. simplify_eq. simpl. lia.
    + unfold chan_close in H. destruct rs as [b cp cl]. simpl in *.
      destruct cl; [done |]. simplify_eq. simpl. lia.
Qed.

Lemma seqZ_prefix_sub (a b : Z) : a <= b -> seqZ 1 a ⊆+ seqZ 1 b.
Proof.
  intros Hab. destruct (decide (0 <= a)) as [Ha | Ha].
  - replace b with (a + (b - a)) by lia. rewrite seqZ_app by lia.
    by apply submseteq_inserts_r.
  - rewrite (seqZ_to_nat 1 a 0) by lia. apply submseteq_nil_l.
Qed.

Lemma double_small (n : Z) :
  n < 2 ^ 62 -> double <$> seqZ 1 n = (fun job => job * 2) <$> seqZ 1 n.
Proof.
  intros Hn. apply list_fmap_ext. intros k job Hk.
  apply lookup_seqZ in Hk as [-> Hk]. unfold double, int_wrap.
  rewrite Z.mod_small; lia.
Qed.

Lemma example_all_done cfg st :
  inv cfg st -> mainpc st = MDone -> Forall (fun p => p_pc p = PDone) (processors st).
Proof.
  intros Hinv Hm. apply Forall_lookup. intros k p Hk.
  destruct (i_done _ _ Hinv Hm) as [Hcl _].
  assert (wsum live (processors st) = 0%nat) as Hz.
  { apply (i_close _ _ Hinv). right. by apply (i_closed _ _ Hinv). }
  pose proof (wsum_lookup_le live _ _ _ Hk) as Hlive.
  unfold live at 1 in Hlive. destruct (p_pc p); simpl in Hlive; try lia. done.
Qed.

(** [pipelineExample] cannot fail or get stuck.  With channels that have
    room for [numJobs] values, in every state of every interleaving: no
    statement panics; the main goroutine is never blocked when it sends a
    job, nor a processor when it sends a result; until the [range] of the
    main goroutine has ended some goroutine can run; and every statement
    uses up the measure. *)
Theorem pipeline_example_safe_and_live (cfg : Config) (st : state) :
  fits cfg -> reachable cfg st ->
  (forall a m, exec cfg a st <> Crash m)
  /\ (forall j, mainpc st = MSend j -> exists st', exec cfg AMain st = Step st')
  /\ (forall k id job, processors st !! k = Some (MkProcessor id (PSend job)) ->
        exists st', exec cfg (AProcessor k) st = Step st')
  /\ (mainpc st <> MDone -> exists a st', exec cfg a st = Step st')
  /\ (forall a st', exec cfg a st = Step st' ->
        (measure cfg st' < measure cfg st)%nat).
Proof.
  intros Hfits Hr. pose proof (example_reachable_inv cfg st Hfits Hr) as Hinv.
  split; [intros a m; by apply example_no_crash |].
  split; [|split; [|split; [by apply example_progress
                           | intros a st'; by apply example_exec_measure]]].
  - intros j Hm. simpl. unfold pipelineExample_step. rewrite Hm.
    pose proof (i_jobs_closed _ _ Hinv) as Hjc. unfold jobs_closed in Hjc.
    rewrite Hm in Hjc.
    destruct (j <=? numJobs cfg) eqn:Ej.
    + apply Z.leb_le in Ej.
      destruct (example_jobs_room cfg st j Hfits Hinv Hm Ej) as [_ Hroom].
      unfold chan_send. rewrite Hjc. apply Nat.ltb_lt in Hroom. rewrite Hroom. eauto.
    + unfold chan_close. rewrite Hjc. eauto.
  - intros k id job Hk.
    destruct (example_results_room cfg st k id job Hfits Hinv Hk) as [Hopen Hroom].
    simpl. unfold processor_step, chan_send. rewrite Hk, Hopen.
    apply Nat.ltb_lt in Hroom. rewrite Hroom. eauto.
Qed.

Lemma pipeline_example_safe_and_live_witness :
  exists st', exec demo_config (AProcessor 0) (state_after demo_config sending_schedule)
              = Step st'.
Proof.
  destruct (pipeline_example_safe_and_live demo_config
              (state_after demo_config sending_schedule)) as (_ & _ & H & _).
  - unfold fits. simpl. lia.
  - eapply example_run_reachable with (sched := sending_schedule);
      [apply reach_init | vm_compute; reflexivity].
  - apply (H 0%nat 1 1). vm_compute. reflexivity.
Defined.

(** Every job is processed once and gives one result.  In every state of
    every interleaving the jobs of the "processing" lines are different
    jobs of 1..numJobs, every "Result" line is the double of the job of an
    earlier "processing" line of its own, and the worker numbers are
    among 1..workers; and with at least one processor, when the [range]
    over [results] has ended every job of 1..numJobs has its "processing"
    line and its "Result" line, each exactly once. *)
Theorem pipeline_example_every_job_once (cfg : Config) (st : state) :
  fits cfg -> reachable cfg st ->
  processed_of (output st) ⊆+ seqZ 1 (numJobs cfg)
  /\ results_of (output st) ⊆+ double <$> processed_of (output st)
  /\ Forall (line_ok cfg) (output st)
  /\ (1 <= workers cfg -> mainpc st = MDone ->
      processed_of (output st) ≡ₚ seqZ 1 (numJobs cfg)
      /\ results_of (output st) ≡ₚ double <$> seqZ 1 (numJobs cfg)
      /\ (numJobs cfg < 2 ^ 62 ->
          results_of (output st) ≡ₚ (fun job => job * 2) <$> seqZ 1 (numJobs cfg))).
Proof.
  intros Hfits Hr. pose proof (example_reachable_inv cfg st Hfits Hr) as Hinv.
  pose proof (example_sent_le cfg st Hinv) as Hsent.
  assert (seqZ 1 (Z.max 0 (numJobs cfg)) = seqZ 1 (numJobs cfg)) as Emax
    by (apply seqZ_to_nat; lia).
  split.
  { transitivity (seqZ 1 (sent_jobs cfg st)).
    - rewrite (i_received _ _ Hinv). rewrite app_assoc. apply submseteq_inserts_l. done.
    - rewrite <- Emax. apply seqZ_prefix_sub. lia. }
  split.
  { rewrite (i_processed _ _ Hinv). rewrite app_assoc. by apply submseteq_inserts_l. }
  split; [apply (i_lines _ _ Hinv) |].
  intros Hw Hm. pose proof (example_all_done cfg st Hinv Hm) as Hall.
  destruct (i_done _ _ Hinv Hm) as [_ Hrs].
  assert (buf (jobs st) = []) as Hjb.
  { apply (i_leaving _ _ Hinv).
    pose proof (i_all _ _ Hinv) as Hlen. unfold spawning in Hlen. rewrite Hm in Hlen.
    specialize (Hlen eq_refl).
    destruct (processors st) as [|p ps] eqn:Eps; [simpl in Hlen; lia |].
    apply Forall_cons in Hall as [Hp _]. simpl. unfold leaving at 1. rewrite Hp. lia. }
  pose proof (i_jobs _ _ Hinv) as Hjobs. pose proof (i_received _ _ Hinv) as Hrec.
  unfold sent_jobs in Hjobs, Hrec. rewrite Hm, Emax in Hjobs, Hrec.
  rewrite Hjb, Hrs in Hjobs. rewrite Hjb in Hrec.
  rewrite (flat_map_all_nil held) in Hjobs
    by (eapply Forall_impl; [exact Hall | intros p Hp; unfold held; by rewrite Hp]).
  rewrite (flat_map_all_nil received) in Hrec
    by (eapply Forall_impl; [exact Hall | intros p Hp; unfold received; by rewrite Hp]).
  simpl in Hjobs, Hrec.
  split; [done |]. split; [done |].
  intros Hsmall. by rewrite <- double_small.
Qed.

Lemma pipeline_example_every_job_once_witness :
  results_of (output (state_after demo_config (full_schedule demo_config)))
  ≡ₚ (fun job => job * 2) <$> seqZ 1 10.
Proof.
  destruct (pipeline_example_every_job_once demo_config
              (state_after demo_config (full_schedule demo_config)))
    as (_ & _ & _ & H).
  - unfold fits. simpl. lia.
  - eapply example_run_reachable with (sched := full_schedule demo_config);
      [apply reach_init | vm_compute; reflexivity].
  - destruct H as (_ & _ & H); [simpl; lia | vm_compute; reflexivity |].
    apply H. simpl. lia.
Defined.

(** The output of the run in which the first processor does all jobs. *)
Example pipeline_example_lines :
  take 5 (show <$> output (state_after demo_config (full_schedule demo_config)))
  = [String (Ascii.ascii_of_nat 10) "Results:"; "Worker 1 processing job 1"; "Result: 2";
     "Worker 1 processing job 2"; "Result: 4"].
Proof. vm_compute. reflexivity. Qed.

End PipelineExampleProofs.
